(** * bitcoinjs-lib, [src/transaction.js]: codec and signature hash

    A shallow embedding of the transaction object of [src/transaction.js]:
    its constructors, [serialize], [deserialize], [clone] and
    [hashTransactionForSignature], with the properties the specification
    states about them, and the other methods of the file ([getHash],
    [addInput], [estimateFee], the signing methods) with properties of
    their own.

    JavaScript numbers are modelled by [Z] (exact for the integers the codec
    handles, all below 2^53), together with [NaN] and [undefined], which the
    code produces when it reads past the end of a buffer or uses a field that
    was never set. *)

From Stdlib Require Import ZArith Lia List Bool Ascii String DecimalString.
From stdpp Require Import base tactics option list.
Import ListNotations.

Local Open Scope Z_scope.

(** ** JavaScript values of the codec *)

Inductive jsval :=
| Num (z : Z)
| NaN
| Undefined.

(** [if (v)]: zero, [NaN] and [undefined] are falsy. *)
Definition truthy (v : jsval) : bool :=
  match v with
  | Num z => negb (z =? 0)
  | _ => false
  end.

(** [a + b], [a - b], [a * b] on numbers; anything else gives [NaN]. *)
Definition jadd (a b : jsval) : jsval :=
  match a, b with
  | Num x, Num y => Num (x + y)
  | _, _ => NaN
  end.

Definition jsub (a b : jsval) : jsval :=
  match a, b with
  | Num x, Num y => Num (x - y)
  | _, _ => NaN
  end.

Definition jmul (a b : jsval) : jsval :=
  match a, b with
  | Num x, Num y => Num (x * y)
  | _, _ => NaN
  end.

(** [a < b]: false as soon as one side is not a number. *)
Definition jlt (a b : jsval) : bool :=
  match a, b with
  | Num x, Num y => x <? y
  | _, _ => false
  end.

(** [parseInt(v)] on a number is the number (for integers below 1e21). *)
Definition parseInt (v : jsval) : jsval :=
  match v with
  | Num z => Num z
  | _ => NaN
  end.

(** [buffer[i]]: [undefined] outside the array. *)
Definition jget (buffer : list jsval) (i : jsval) : jsval :=
  match i with
  | Num p => if p <? 0 then Undefined else nth (Z.to_nat p) buffer Undefined
  | _ => Undefined
  end.

(** [Array.prototype.slice(start, end)]: a negative bound counts from the
    end, [NaN] is 0, an [undefined] bound is its default (0 for [start], the
    length for [end]), and both bounds are clamped to the array. *)
Definition slice_bound (len default : Z) (v : jsval) : Z :=
  match v with
  | Num r => if r <? 0 then Z.max (len + r) 0 else Z.min r len
  | NaN => 0
  | Undefined => default
  end.

Definition slice (l : list jsval) (s e : jsval) : list jsval :=
  let len := Z.of_nat (length l) in
  let k := slice_bound len 0 s in
  let final := slice_bound len len e in
  firstn (Z.to_nat (final - k)) (skipn (Z.to_nat k) l).

(** ** The conversion helpers ([convert.js]) *)

Module convert.

(** Little-endian digits of [z] in base 256. *)
Fixpoint le_bytes (z : Z) (bytes : nat) : list Z :=
  match bytes with
  | O => []
  | S k => (z mod 256) :: le_bytes (z / 256) k
  end.

(** Modelled from the spec: [convert.numToBytes], which is not in
    [transaction.js]; "integer to fixed-width little-endian bytes" (spec 2
    and 6).  A value that is not a number has no digits: every element is
    [NaN]. *)
Definition numToBytes (num : jsval) (bytes : nat) : list jsval :=
  match num with
  | Num z => map Num (le_bytes z bytes)
  | _ => repeat NaN bytes
  end.

(** Modelled from the spec: [convert.bytesToNum], which is not in
    [transaction.js]; "fixed-width little-endian bytes to integer". *)
Fixpoint bytesToNum (bytes : list jsval) : jsval :=
  match bytes with
  | [] => Num 0
  | b :: rest => jadd b (jmul (Num 256) (bytesToNum rest))
  end.

(** Modelled from the spec: [convert.numToVarInt], which is not in
    [transaction.js]; spec 4.1: "values < 0xFD encode as one byte; 0xFD
    prefixes a 2-byte LE value; 0xFE a 4-byte LE value; 0xFF an 8-byte LE
    value", with the boundaries of spec 8 (252 | 253, 65535 | 65536,
    2^32-1 | 2^32). *)
Definition numToVarInt (num : Z) : list jsval :=
  if num <? 253 then [Num num]
  else if num <? 65536 then Num 253 :: numToBytes (Num num) 2
  else if num <? 4294967296 then Num 254 :: numToBytes (Num num) 4
  else Num 255 :: numToBytes (Num num) 8.

(** Hexadecimal digits. *)
Definition hexDigit (n : Z) : ascii :=
  match n with
  | 0 => "0" | 1 => "1" | 2 => "2" | 3 => "3" | 4 => "4" | 5 => "5"
  | 6 => "6" | 7 => "7" | 8 => "8" | 9 => "9" | 10 => "a" | 11 => "b"
  | 12 => "c" | 13 => "d" | 14 => "e" | 15 => "f" | _ => "?"
  end%char.

Definition hexValue (c : ascii) : option Z :=
  let n := Z.of_nat (nat_of_ascii c) in
  if (48 <=? n) && (n <=? 57) then Some (n - 48)
  else if (97 <=? n) && (n <=? 102) then Some (n - 87)
  else if (65 <=? n) && (n <=? 70) then Some (n - 55)
  else None.

(** Modelled from the spec: [convert.bytesToHex], which is not in
    [transaction.js]; "bytes to hex" (spec 2 and 6): two lower-case digits
    per byte.  The spec gives no hex form to an element that is not a
    byte; such an element is written [??]. *)
Fixpoint bytesToHex (bytes : list jsval) : string :=
  match bytes with
  | [] => EmptyString
  | Num z :: rest =>
      if (0 <=? z) && (z <? 256)
      then String (hexDigit (z / 16)) (String (hexDigit (z mod 16)) (bytesToHex rest))
      else String "?" (String "?" (bytesToHex rest))
  | _ :: rest => String "?" (String "?" (bytesToHex rest))
  end.

(** Modelled from the spec: [convert.hexToBytes], which is not in
    [transaction.js]; "hex to bytes": one byte per pair of digits.  A pair
    that is not hexadecimal has no value ([NaN]), a last lone character is
    dropped. *)
Fixpoint hexToBytes (hex : string) : list jsval :=
  match hex with
  | String a (String b rest) =>
      match hexValue a, hexValue b with
      | Some x, Some y => Num (16 * x + y)
      | _, _ => NaN
      end :: hexToBytes rest
  | _ => []
  end.

End convert.

(** ** SHA-256

    [SHA256] is the hash function of the [crypto-js] package, a dependency
    of the repository: SHA-256 as in FIPS 180-4, on a list of bytes. *)

Module SHA256.

Definition w32 (x : Z) : Z := x mod 4294967296.
Definition add32 (x y : Z) : Z := w32 (x + y).
Definition not32 (x : Z) : Z := Z.lxor x 4294967295.
Definition rotr (n x : Z) : Z :=
  Z.lor (Z.shiftr x n) (w32 (Z.shiftl x (32 - n))).

Definition Ch (x y z : Z) : Z := Z.lxor (Z.land x y) (Z.land (not32 x) z).
Definition Maj (x y z : Z) : Z :=
  Z.lxor (Z.lxor (Z.land x y) (Z.land x z)) (Z.land y z).
Definition Sigma0 (x : Z) : Z := Z.lxor (Z.lxor (rotr 2 x) (rotr 13 x)) (rotr 22 x).
Definition Sigma1 (x : Z) : Z := Z.lxor (Z.lxor (rotr 6 x) (rotr 11 x)) (rotr 25 x).
Definition sigma0 (x : Z) : Z := Z.lxor (Z.lxor (rotr 7 x) (rotr 18 x)) (Z.shiftr x 3).
Definition sigma1 (x : Z) : Z := Z.lxor (Z.lxor (rotr 17 x) (rotr 19 x)) (Z.shiftr x 10).

(** The constants are those of FIPS 180-4: the first 32 bits of the
    fractional parts of the cube roots of the first 64 primes, and of the
    square roots of the first 8 primes for the initial hash value. *)
Definition is_prime (n : nat) : bool :=
  forallb (fun d => negb (Nat.eqb (Nat.modulo n d) 0)) (seq 2 (n - 2)).

Definition primes : list Z :=
  map Z.of_nat (filter is_prime (seq 2 310)).

(** The largest [r] from [lo] on with [pw r <= n], by bisection. *)
Fixpoint root (pw : Z -> Z) (n : Z) (fuel : nat) (lo hi : Z) : Z :=
  match fuel with
  | O => lo
  | S fuel' =>
      let mid := (lo + hi) / 2 in
      if pw mid <=? n then root pw n fuel' mid hi else root pw n fuel' lo mid
  end.

Definition frac_root (pw : Z -> Z) (scale : Z) (p : Z) : Z :=
  w32 (root pw (p * scale) 40 0 (2 ^ 35)).

Definition K : list Z :=
  Eval vm_compute in map (frac_root (fun r => r * r * r) (2 ^ 96)) primes.

Definition H0 : list Z :=
  Eval vm_compute in map (frac_root (fun r => r * r) (2 ^ 64)) (firstn 8 primes).

(** Big-endian words of a byte list (a last short group is dropped; the
    padded message has none). *)
Fixpoint words (bytes : list Z) : list Z :=
  match bytes with
  | a :: b :: c :: d :: rest =>
      (((a * 256 + b) * 256 + c) * 256 + d) :: words rest
  | _ => []
  end.

Fixpoint be_bytes (k : nat) (z : Z) : list Z :=
  match k with
  | O => []
  | S k' => be_bytes k' (z / 256) ++ [z mod 256]
  end.

(** The message followed by 0x80, zeros up to 56 modulo 64, and the bit
    length on 8 bytes. *)
Definition pad (msg : list Z) : list Z :=
  let len := Z.of_nat (length msg) in
  let zeros := Z.to_nat ((55 - len) mod 64) in
  msg ++ [128] ++ repeat 0 zeros ++ be_bytes 8 (8 * len).

(** The message schedule, most recent word first. *)
Fixpoint schedule (n : nat) (w : list Z) : list Z :=
  match n with
  | O => w
  | S n' =>
      let x := add32 (add32 (sigma1 (nth 1 w 0)) (nth 6 w 0))
                     (add32 (sigma0 (nth 14 w 0)) (nth 15 w 0)) in
      schedule n' (x :: w)
  end.

Definition round (st : list Z) (kw : Z * Z) : list Z :=
  match st with
  | [a; b; c; d; e; f; g; h] =>
      let t1 := add32 (add32 (add32 h (Sigma1 e)) (add32 (Ch e f g) (fst kw))) (snd kw) in
      let t2 := add32 (Sigma0 a) (Maj a b c) in
      [add32 t1 t2; a; b; c; add32 d t1; e; f; g]
  | _ => st
  end.

Definition compress (h : list Z) (block : list Z) : list Z :=
  let w := rev (schedule 48 (rev block)) in
  let st := fold_left round (combine K w) h in
  map (fun p => add32 (fst p) (snd p)) (combine h st).

Fixpoint blocks (n : nat) (ws : list Z) (h : list Z) : list Z :=
  match n with
  | O => h
  | S n' => blocks n' (skipn 16 ws) (compress h (firstn 16 ws))
  end.

(** The digest of a byte list, as 32 bytes. *)
Definition digest (msg : list Z) : list Z :=
  let ws := words (pad msg) in
  flat_map (be_bytes 4) (blocks (length ws / 16) ws H0).

End SHA256.

(** Modelled from the spec: [convert.bytesToWordArray] and
    [convert.wordArrayToBytes], which are not in [transaction.js]; with them
    [SHA256(SHA256(buffer))] is the "double hash" of a byte array (spec 4.2
    and 6), itself an array of 32 bytes.  Elements are bytes; an element
    that is not a number counts as 0. *)
Definition byteOf (v : jsval) : Z :=
  match v with
  | Num z => z mod 256
  | _ => 0
  end.

Definition doubleSHA256 (buffer : list jsval) : list jsval :=
  map Num (SHA256.digest (SHA256.digest (map byteOf buffer))).

(** ** The data model *)

(** [script.js] is outside [transaction.js]; of a [Script] the transaction
    code uses the byte buffer only. *)
Record Script := { buffer : list jsval }.

(** Modelled from the spec: the [Script] constructor and [clone], which are
    not in [transaction.js]; "construct from raw bytes" and "deep-copy"
    (spec 6).  [new Script()] has the empty buffer. *)
Definition new_Script (bytes : option (list jsval)) : Script :=
  {| buffer := match bytes with Some b => b | None => [] end |}.

Definition Script_clone (s : Script) : Script := {| buffer := buffer s |}.

(** The [sequence] field holds an array of bytes, or any other value: the
    code stores the number 0 (hash type NONE) and [undefined]. *)
Inductive seqval :=
| SeqBytes (bytes : list jsval)
| SeqVal (v : jsval).

Record Outpoint := { hash : string; index : jsval }.

Record TransactionIn := {
  outpoint : Outpoint;
  script : Script;
  sequence : seqval
}.

(** The derived [address] of an output is computed by the script
    collaborator from [script] alone and is not part of the model. *)
Record TransactionOut := {
  out_script : Script;
  value : jsval
}.

Record Transaction := {
  version : jsval;
  locktime : jsval;
  ins : list TransactionIn;
  outs : list TransactionOut;
  tx_hash : option (list jsval)
}.

(** [this.defaultSequence], set by the [Transaction] constructor. *)
Definition defaultSequence : seqval :=
  SeqBytes [Num 255; Num 255; Num 255; Num 255].

(** [a || b] on a [sequence] value: an array is truthy, also when empty. *)
Definition seq_or (a b : seqval) : seqval :=
  match a with
  | SeqBytes _ => a
  | SeqVal v => if truthy v then a else b
  end.

(** The object forms of the argument of [TransactionIn]: [{outpoint, script,
    sequence}] and [{hash, index, script, sequence}], where [script] and
    [sequence] may be absent.  (The string form and [scriptSig], which go
    through string splitting and [Script.fromScriptSig], are left out.) *)
Inductive TransactionIn_data :=
| InOutpoint (op : Outpoint) (sc : option Script) (sq : seqval)
| InHashIndex (h : string) (i : jsval) (sc : option Script) (sq : seqval).

Definition data_script (data : TransactionIn_data) : option Script :=
  match data with
  | InOutpoint _ sc _ => sc
  | InHashIndex _ _ sc _ => sc
  end.

Definition data_sequence (data : TransactionIn_data) : seqval :=
  match data with
  | InOutpoint _ _ sq => sq
  | InHashIndex _ _ _ sq => sq
  end.

(** [new TransactionIn(data)].  The default of the last line is
    [this.defaultSequence] of the new [TransactionIn], a field that only a
    [Transaction] has: it is [undefined] here. *)
Definition new_TransactionIn (data : TransactionIn_data) : TransactionIn :=
  {| outpoint :=
       match data with
       | InOutpoint op _ _ => op
       | InHashIndex h i _ _ => {| hash := h; index := i |}
       end;
     script :=
       match data_script data with
       | Some s => s
       | None => new_Script None
       end;
     sequence := seq_or (data_sequence data) (SeqVal Undefined) |}.

Definition TransactionIn_clone (txin : TransactionIn) : TransactionIn :=
  new_TransactionIn
    (InOutpoint {| hash := hash (outpoint txin); index := index (outpoint txin) |}
                (Some (Script_clone (script txin)))
                (sequence txin)).

(** The forms of [data.script] and [data.value] of [TransactionOut] that do
    not go through the script factories, strings of values or
    [BigInteger].  (The constructor also sets the derived [address] through
    the script collaborator when the buffer is not empty; see
    [TransactionOut].) *)
Inductive script_arg :=
| ScriptObject (s : Script)
| ScriptArray (bytes : list jsval)
| ScriptHex (hex : string)
| ScriptAbsent.

Inductive value_arg :=
| ValueArray (bytes : list jsval)
| ValueOther (v : jsval).

Record TransactionOut_data := { d_script : script_arg; d_value : value_arg }.

Definition new_TransactionOut (data : TransactionOut_data) : TransactionOut :=
  {| out_script :=
       match d_script data with
       | ScriptObject s => Script_clone s
       | ScriptArray bytes => new_Script (Some bytes)
       | ScriptHex hex => new_Script (Some (convert.hexToBytes hex))
       | ScriptAbsent => new_Script None
       end;
     value :=
       match d_value data with
       | ValueArray bytes => convert.bytesToNum bytes
       | ValueOther v => v
       end |}.

Definition TransactionOut_clone (txout : TransactionOut) : TransactionOut :=
  new_TransactionOut
    {| d_script := ScriptObject (Script_clone (out_script txout));
       d_value := ValueOther (value txout) |}.

(** ** [serialize] *)

(** [buffer.concat(x)] appends the elements of an array, and any other value
    as one element. *)
Definition concat_arg (s : seqval) : list jsval :=
  match s with
  | SeqBytes bytes => bytes
  | SeqVal v => [v]
  end.

Definition serialize_in (txin : TransactionIn) : list jsval :=
  rev (convert.hexToBytes (hash (outpoint txin)))
  ++ convert.numToBytes (parseInt (index (outpoint txin))) 4
  ++ convert.numToVarInt (Z.of_nat (length (buffer (script txin))))
  ++ buffer (script txin)
  ++ concat_arg (sequence txin).

Definition serialize_out (txout : TransactionOut) : list jsval :=
  convert.numToBytes (value txout) 8
  ++ convert.numToVarInt (Z.of_nat (length (buffer (out_script txout))))
  ++ buffer (out_script txout).

Definition serialize (tx : Transaction) : list jsval :=
  convert.numToBytes (parseInt (version tx)) 4
  ++ convert.numToVarInt (Z.of_nat (length (ins tx)))
  ++ flat_map serialize_in (ins tx)
  ++ convert.numToVarInt (Z.of_nat (length (outs tx)))
  ++ flat_map serialize_out (outs tx)
  ++ convert.numToBytes (parseInt (locktime tx)) 4.

(** [getHash]: the double digest of the serialization, reversed. *)
Definition getHash (tx : Transaction) : list jsval :=
  rev (doubleSHA256 (serialize tx)).

(** ** The [Transaction] constructor, [addInput], [addOutput] *)

Record Transaction_doc := {
  doc_hash : option (list jsval);
  doc_version : jsval;
  doc_locktime : jsval;
  doc_ins : list TransactionIn_data;
  doc_outs : list TransactionOut_data
}.

Definition set_ins (tx : Transaction) (l : list TransactionIn) : Transaction :=
  {| version := version tx; locktime := locktime tx; ins := l;
     outs := outs tx; tx_hash := tx_hash tx |}.

Definition set_outs (tx : Transaction) (l : list TransactionOut) : Transaction :=
  {| version := version tx; locktime := locktime tx; ins := ins tx;
     outs := l; tx_hash := tx_hash tx |}.

Definition set_hash (tx : Transaction) (h : option (list jsval)) : Transaction :=
  {| version := version tx; locktime := locktime tx; ins := ins tx;
     outs := outs tx; tx_hash := h |}.

(** The arguments of [addInput]: an existing [TransactionIn], or an index
    with a hash in display hex or with a transaction, whose cached [hash] is
    taken.  (The ["txhash:index"] string, which re-enters [addInput] with
    its two pieces, is left out.) *)
Inductive addInput_args :=
| AddTransactionIn (txin : TransactionIn)
| AddHash (h : string) (outIndex : jsval)
| AddTransaction (tx : Transaction) (outIndex : jsval).

(** [this.ins.push(txin)] and [this.outs.push(txout)]. *)
Definition push_in (tx : Transaction) (txin : TransactionIn) : Transaction :=
  set_ins tx (ins tx ++ [txin]).

Definition push_out (tx : Transaction) (txout : TransactionOut) : Transaction :=
  set_outs tx (outs tx ++ [txout]).

Definition addInput_new (h : string) (outIndex : jsval) : TransactionIn :=
  new_TransactionIn
    (InOutpoint {| hash := h; index := outIndex |}
                (Some (new_Script None))
                defaultSequence).

(** [addInput]; [None] stands for what is left out: a string of more than
    65 characters is taken for ["txhash:index"], and a transaction without a
    cached hash gives an [undefined] hash. *)
Definition addInput (tx : Transaction) (args : addInput_args) : option Transaction :=
  match args with
  | AddTransactionIn txin => Some (push_in tx txin)
  | AddHash h outIndex =>
      if (65 <? Z.of_nat (String.length h)) then None
      else Some (push_in tx (addInput_new h outIndex))
  | AddTransaction prev outIndex =>
      match tx_hash prev with
      | Some h => Some (push_in tx (addInput_new (convert.bytesToHex h) outIndex))
      | None => None
      end
  end.

(** [addOutput] with an existing [TransactionOut] (the address forms need
    [Script.createOutputScript]). *)
Definition addOutput (tx : Transaction) (txout : TransactionOut) : Transaction :=
  push_out tx txout.

(** [new Transaction(doc)] for an absent [doc] or a document object. *)
Definition new_Transaction (doc : option Transaction_doc) : Transaction :=
  let this := {| version := Num 1; locktime := Num 0; ins := []; outs := [];
                 tx_hash := None |} in
  match doc with
  | None => this
  | Some d =>
      let this := set_hash this (doc_hash d) in
      let this :=
        {| version := if truthy (doc_version d) then doc_version d else version this;
           locktime := if truthy (doc_locktime d) then doc_locktime d else locktime this;
           ins := ins this; outs := outs this; tx_hash := tx_hash this |} in
      let this :=
        fold_left (fun t input => push_in t (new_TransactionIn input))
                  (doc_ins d) this in
      let this :=
        fold_left (fun t output => addOutput t (new_TransactionOut output))
                  (doc_outs d) this in
      set_hash this
        (match tx_hash this with
         | Some h => Some h
         | None => Some (getHash this)
         end)
  end.

(** [clone]: a new transaction with the version and locktime of this one and
    a clone of every input and output. *)
Definition clone (tx : Transaction) : Transaction :=
  let newTx := new_Transaction None in
  let newTx :=
    {| version := version tx; locktime := locktime tx; ins := ins newTx;
       outs := outs newTx; tx_hash := tx_hash newTx |} in
  let newTx :=
    fold_left (fun t txin => push_in t (TransactionIn_clone txin))
              (ins tx) newTx in
  fold_left (fun t txout => addOutput t (TransactionOut_clone txout))
            (outs tx) newTx.

(** ** [deserialize] *)

(** What a call can throw.  The source has no [throw] of its own: the
    engine raises [TypeError] on a property access on [undefined], and
    [RangeError] when a recursion never reaches its base case (stack
    overflow). *)
Inductive error :=
| TypeError
| RangeError.

Inductive result (A : Type) :=
| Ok (a : A)
| Throw (e : error).
Arguments Ok {A} a.
Arguments Throw {A} e.

Definition bind {A B : Type} (r : result A) (k : A -> result B) : result B :=
  match r with
  | Ok a => k a
  | Throw e => Throw e
  end.

Notation "'let*' p ':=' r 'in' k" := (bind r (fun p => k))
  (at level 10, p pattern, r at level 200, k at level 200).

Section Reader.

(** The array being read; the cursor [pos] is passed along. *)
Variable buffer : list jsval.

(** [readAsInt(bytes)] for a count that is a natural number: [pos++], then
    [buffer[pos-1] + readAsInt(bytes-1) * 256]. *)
Fixpoint readAsInt (bytes : nat) (pos : jsval) : jsval * jsval :=
  match bytes with
  | O => (Num 0, pos)
  | S k =>
      let pos := jadd pos (Num 1) in
      let b := jget buffer (jsub pos (Num 1)) in
      let '(r, pos) := readAsInt k pos in
      (jadd b (jmul r (Num 256)), pos)
  end.

(** [readAsInt(v)] for any value: a count that is negative or not a number
    never meets [bytes === 0].  (The depth of the recursion is not bounded
    here; for a count read from a byte it is at most 4.) *)
Definition readAsInt_val (v : jsval) (pos : jsval) : result (jsval * jsval) :=
  match v with
  | Num k => if k <? 0 then Throw RangeError else Ok (readAsInt (Z.to_nat k) pos)
  | _ => Throw RangeError
  end.

Definition readVarInt (pos : jsval) : result (jsval * jsval) :=
  let pos := jadd pos (Num 1) in
  let b := jget buffer (jsub pos (Num 1)) in
  if jlt b (Num 253) then Ok (b, pos)
  else readAsInt_val (jsub b (Num 251)) pos.

Definition readBytes (bytes : jsval) (pos : jsval) : list jsval * jsval :=
  let pos := jadd pos bytes in
  (slice buffer (jsub pos bytes) pos, pos).

Definition readVarString (pos : jsval) : result (list jsval * jsval) :=
  let* (size, pos) := readVarInt pos in
  Ok (readBytes size pos).

(** One turn of the first loop: the object pushed on [obj.ins]. *)
Definition read_in (pos : jsval) : result (TransactionIn_data * jsval) :=
  let '(h, pos) := readBytes (Num 32) pos in
  let '(i, pos) := readAsInt 4 pos in
  let* (s, pos) := readVarString pos in
  let '(sq, pos) := readBytes (Num 4) pos in
  Ok (InOutpoint {| hash := convert.bytesToHex (rev h); index := i |}
                 (Some (new_Script (Some s)))
                 (SeqBytes sq),
      pos).

(** One turn of the second loop: the object pushed on [obj.outs]. *)
Definition read_out (pos : jsval) : result (TransactionOut_data * jsval) :=
  let '(v, pos) := readBytes (Num 8) pos in
  let* (s, pos) := readVarString pos in
  Ok ({| d_script := ScriptObject (new_Script (Some s));
         d_value := ValueOther (convert.bytesToNum v) |},
      pos).

(** [for (i = 0; i < n; i++) push(item())]. *)
Fixpoint read_loop {A : Type} (item : jsval -> result (A * jsval))
         (n : nat) (pos : jsval) : result (list A * jsval) :=
  match n with
  | O => Ok ([], pos)
  | S k =>
      let* (x, pos) := item pos in
      let* (rest, pos) := read_loop item k pos in
      Ok (x :: rest, pos)
  end.

End Reader.

(** The number of turns of [for (i = 0; i < n; i++)]. *)
Definition loop_count (n : jsval) : nat :=
  match n with
  | Num z => Z.to_nat z
  | _ => O
  end.

(** [Transaction.deserialize(buffer)] on an array. *)
Definition deserialize (buffer : list jsval) : result Transaction :=
  let pos := Num 0 in
  let '(version, pos) := readAsInt buffer 4 pos in
  let* (n_ins, pos) := readVarInt buffer pos in
  let* (obj_ins, pos) := read_loop (read_in buffer) (loop_count n_ins) pos in
  let* (n_outs, pos) := readVarInt buffer pos in
  let* (obj_outs, pos) := read_loop (read_out buffer) (loop_count n_outs) pos in
  let '(locktime, pos) := readAsInt buffer 4 pos in
  Ok (new_Transaction
        (Some {| doc_hash := None; doc_version := version;
                 doc_locktime := locktime; doc_ins := obj_ins;
                 doc_outs := obj_outs |})).

(** [Transaction.deserialize(hex)] on a string. *)
Definition deserialize_hex (hex : string) : result Transaction :=
  deserialize (convert.hexToBytes hex).

(** ** [hashTransactionForSignature] *)

Definition SIGHASH_ALL : Z := 1.
Definition SIGHASH_NONE : Z := 2.
Definition SIGHASH_SINGLE : Z := 3.
Definition SIGHASH_ANYONECANPAY : Z := 80.

Definition set_script (txin : TransactionIn) (s : Script) : TransactionIn :=
  {| outpoint := outpoint txin; script := s; sequence := sequence txin |}.

Definition set_sequence (txin : TransactionIn) (s : seqval) : TransactionIn :=
  {| outpoint := outpoint txin; script := script txin; sequence := s |}.

(** [txTmp.ins.forEach(function(txin, i) { if (i != inIndex)
    txTmp.ins[i].sequence = 0 })]. *)
Definition zero_other_sequences (inIndex : nat) (l : list TransactionIn)
  : list TransactionIn :=
  imap (fun i txin => if Nat.eqb i inIndex then txin
                      else set_sequence txin (SeqVal (Num 0))) l.

(** The transaction that is serialized: the clone [txTmp] after the changes
    of the hash type.  [txTmp.ins[inIndex].script = connectedScript] is a
    [TypeError] when there is no such input. *)
Definition sighash_txTmp (tx : Transaction) (connectedScript : Script)
           (inIndex : nat) (hashType : Z) : result Transaction :=
  let txTmp := clone tx in
  let txTmp :=
    set_ins txTmp (map (fun txin => set_script txin (new_Script None)) (ins txTmp)) in
  match ins txTmp !! inIndex with
  | None => Throw TypeError
  | Some txin =>
      let txTmp :=
        set_ins txTmp (<[inIndex := set_script txin connectedScript]> (ins txTmp)) in
      let txTmp :=
        if Z.land hashType 0x1f =? SIGHASH_NONE then
          let txTmp := set_outs txTmp [] in
          set_ins txTmp (zero_other_sequences inIndex (ins txTmp))
        else if Z.land hashType 0x1f =? SIGHASH_SINGLE then
          txTmp
        else txTmp in
      let txTmp :=
        if truthy (Num (Z.land hashType SIGHASH_ANYONECANPAY)) then
          set_ins txTmp (option_list (ins txTmp !! inIndex))
        else txTmp in
      Ok txTmp
  end.

(** The bytes that are hashed: the serialization of [txTmp] followed by the
    hash type on 4 bytes. *)
Definition sighash_buffer (tx : Transaction) (connectedScript : Script)
           (inIndex : nat) (hashType : Z) : result (list jsval) :=
  let* txTmp := sighash_txTmp tx connectedScript inIndex hashType in
  Ok (serialize txTmp ++ convert.numToBytes (parseInt (Num hashType)) 4).

Definition hashTransactionForSignature (tx : Transaction) (connectedScript : Script)
           (inIndex : nat) (hashType : Z) : result (list jsval) :=
  let* buffer := sighash_buffer tx connectedScript inIndex hashType in
  Ok (doubleSHA256 buffer).

(** ** The wire format of the specification *)

Module Wire.

(** A logical transaction: the previous hash of an input is its 32 bytes
    in display order. *)
Record input := {
  prev_hash : list Z;
  prev_index : Z;
  in_script : list Z;
  in_sequence : list Z
}.

Record output := { amount : Z; out_script : list Z }.

Record tx := {
  tx_version : Z;
  inputs : list input;
  outputs : list output;
  tx_locktime : Z
}.

(** Follows the spec (4.1), not the code: the CompactSize rule. *)
Definition varint (n : Z) : list Z :=
  if n <? 0xFD then [n]
  else if n <=? 0xFFFF then 0xFD :: convert.le_bytes n 2
  else if n <=? 0xFFFFFFFF then 0xFE :: convert.le_bytes n 4
  else 0xFF :: convert.le_bytes n 8.

(** Follows the spec (4.1), not the code: the layout of an input, of an
    output and of a transaction. *)
Definition encode_input (i : input) : list Z :=
  rev (prev_hash i) ++ convert.le_bytes (prev_index i) 4
  ++ varint (Z.of_nat (length (in_script i))) ++ in_script i
  ++ in_sequence i.

Definition encode_output (o : output) : list Z :=
  convert.le_bytes (amount o) 8
  ++ varint (Z.of_nat (length (out_script o))) ++ out_script o.

Definition encode (t : tx) : list Z :=
  convert.le_bytes (tx_version t) 4
  ++ varint (Z.of_nat (length (inputs t))) ++ flat_map encode_input (inputs t)
  ++ varint (Z.of_nat (length (outputs t))) ++ flat_map encode_output (outputs t)
  ++ convert.le_bytes (tx_locktime t) 4.

Definition byteb (z : Z) : bool := (0 <=? z) && (z <? 256).

(** The fields have their widths; script lengths and counts are below
    65536 (the one-byte and the 0xFD forms of the CompactSize), and
    amounts are below 2^53. *)
Definition input_ok (i : input) : bool :=
  forallb byteb (prev_hash i) && (length (prev_hash i) =? 32)%nat
  && (0 <=? prev_index i) && (prev_index i <? 4294967296)
  && forallb byteb (in_script i) && (Z.of_nat (length (in_script i)) <? 65536)
  && forallb byteb (in_sequence i) && (length (in_sequence i) =? 4)%nat.

Definition output_ok (o : output) : bool :=
  (0 <=? amount o) && (amount o <? 9007199254740992)
  && forallb byteb (out_script o) && (Z.of_nat (length (out_script o)) <? 65536).

Definition body_ok (t : tx) : bool :=
  forallb input_ok (inputs t) && (Z.of_nat (length (inputs t)) <? 65536)
  && forallb output_ok (outputs t) && (Z.of_nat (length (outputs t)) <? 65536)
  && (0 <=? tx_locktime t) && (tx_locktime t <? 4294967296).

Definition tx_ok (t : tx) : bool :=
  (0 <? tx_version t) && (tx_version t <? 4294967296) && body_ok t.

End Wire.

(** The transaction object of a logical transaction. *)
Definition of_wire_input (i : Wire.input) : TransactionIn :=
  {| outpoint := {| hash := convert.bytesToHex (map Num (Wire.prev_hash i));
                    index := Num (Wire.prev_index i) |};
     script := {| buffer := map Num (Wire.in_script i) |};
     sequence := SeqBytes (map Num (Wire.in_sequence i)) |}.

Definition of_wire_output (o : Wire.output) : TransactionOut :=
  {| out_script := {| buffer := map Num (Wire.out_script o) |};
     value := Num (Wire.amount o) |}.

Definition of_wire (t : Wire.tx) : Transaction :=
  {| version := Num (Wire.tx_version t);
     locktime := Num (Wire.tx_locktime t);
     ins := map of_wire_input (Wire.inputs t);
     outs := map of_wire_output (Wire.outputs t);
     tx_hash := None |}.

(** ** Well-formed transaction objects *)

Definition is_byte (v : jsval) : bool :=
  match v with
  | Num z => (0 <=? z) && (z <? 256)
  | _ => false
  end.

Definition lower_hex (c : ascii) : bool :=
  let n := Z.of_nat (nat_of_ascii c) in
  ((48 <=? n) && (n <=? 57)) || ((97 <=? n) && (n <=? 102)).

(** An even number of lower-case hexadecimal digits. *)
Fixpoint hex_ok (s : string) : bool :=
  match s with
  | EmptyString => true
  | String a (String b rest) => lower_hex a && lower_hex b && hex_ok rest
  | _ => false
  end.

Definition uint32 (v : jsval) : bool :=
  match v with
  | Num z => (0 <=? z) && (z <? 4294967296)
  | _ => false
  end.

Definition script_ok (s : Script) : bool :=
  forallb is_byte (buffer s) && (Z.of_nat (length (buffer s)) <? 65536).

Definition in_ok (txin : TransactionIn) : bool :=
  hex_ok (hash (outpoint txin)) && (String.length (hash (outpoint txin)) =? 64)%nat
  && uint32 (index (outpoint txin))
  && script_ok (script txin)
  && match sequence txin with
     | SeqBytes l => forallb is_byte l && (length l =? 4)%nat
     | SeqVal _ => false
     end.

Definition out_ok (txout : TransactionOut) : bool :=
  match value txout with
  | Num z => (0 <=? z) && (z <? 9007199254740992)
  | _ => false
  end
  && script_ok (out_script txout).

(** Inputs and outputs have the types and widths of the wire format, with
    counts and script lengths below 65536. *)
Definition items_ok (tx : Transaction) : bool :=
  forallb in_ok (ins tx) && (Z.of_nat (length (ins tx)) <? 65536)
  && forallb out_ok (outs tx) && (Z.of_nat (length (outs tx)) <? 65536).

(** Everything but the version. *)
Definition body_ok (tx : Transaction) : bool :=
  items_ok tx && uint32 (locktime tx).

(** The serialization up to the locktime. *)
Definition serialize_head (tx : Transaction) : list jsval :=
  convert.numToBytes (parseInt (version tx)) 4
  ++ convert.numToVarInt (Z.of_nat (length (ins tx)))
  ++ flat_map serialize_in (ins tx)
  ++ convert.numToVarInt (Z.of_nat (length (outs tx)))
  ++ flat_map serialize_out (outs tx).

Definition tx_ok (tx : Transaction) : bool :=
  uint32 (version tx) && truthy (version tx) && body_ok tx.

(** ** The object store

    [clone] and [hashTransactionForSignature] work on objects that may be
    shared.  For the claims about sharing, the objects live in a store, one
    table per class, and a field that holds an object holds its location.
    The arrays [ins] and [outs] of a transaction are created by its
    constructor and assigned as a whole; they are kept inside the
    transaction object. *)

Abbreviation loc := nat (only parsing).

(** The [sequence] field: an array (by reference) or another value. *)
Inductive seqref :=
| SeqRef (a : loc)
| SeqOther (v : jsval).

Record TransactionIn_obj := {
  o_outpoint : loc;
  o_script : loc;
  o_sequence : seqref
}.

Record TransactionOut_obj := {
  o_out_script : loc;
  o_value : jsval
}.

Record Transaction_obj := {
  o_version : jsval;
  o_locktime : jsval;
  o_ins : list loc;
  o_outs : list loc;
  o_defaultSequence : loc;
  o_hash : option loc
}.

Record store := {
  arrays : list (list jsval);
  scripts : list loc;
  outpoints : list Outpoint;
  txins : list TransactionIn_obj;
  txouts : list TransactionOut_obj;
  txs : list Transaction_obj
}.

Definition empty_store : store :=
  {| arrays := []; scripts := []; outpoints := []; txins := []; txouts := [];
     txs := [] |}.

Definition with_arrays (l : list (list jsval)) (st : store) : store :=
  {| arrays := l; scripts := scripts st; outpoints := outpoints st;
     txins := txins st; txouts := txouts st; txs := txs st |}.

Definition with_scripts (l : list loc) (st : store) : store :=
  {| arrays := arrays st; scripts := l; outpoints := outpoints st;
     txins := txins st; txouts := txouts st; txs := txs st |}.

Definition with_outpoints (l : list Outpoint) (st : store) : store :=
  {| arrays := arrays st; scripts := scripts st; outpoints := l;
     txins := txins st; txouts := txouts st; txs := txs st |}.

Definition with_txins (l : list TransactionIn_obj) (st : store) : store :=
  {| arrays := arrays st; scripts := scripts st; outpoints := outpoints st;
     txins := l; txouts := txouts st; txs := txs st |}.

Definition with_txouts (l : list TransactionOut_obj) (st : store) : store :=
  {| arrays := arrays st; scripts := scripts st; outpoints := outpoints st;
     txins := txins st; txouts := l; txs := txs st |}.

Definition with_txs (l : list Transaction_obj) (st : store) : store :=
  {| arrays := arrays st; scripts := scripts st; outpoints := outpoints st;
     txins := txins st; txouts := txouts st; txs := l |}.

(** Computations on the store; an exception keeps the store it was raised
    in. *)
Definition M (A : Type) : Type := store -> result A * store.

Definition ret {A : Type} (a : A) : M A := fun st => (Ok a, st).

Definition throw {A : Type} (e : error) : M A := fun st => (Throw e, st).

Definition mbind {A B : Type} (m : M A) (k : A -> M B) : M B :=
  fun st =>
    match m st with
    | (Ok a, st') => k a st'
    | (Throw e, st') => (Throw e, st')
    end.

Notation "'let!' p ':=' m 'in' k" := (mbind m (fun p => k))
  (at level 10, p pattern, m at level 200, k at level 200).

(** A new object, a field read through a reference, an assignment through a
    reference.  (A reference into nothing does not exist in JavaScript; here
    it raises [TypeError].) *)
Definition alloc {A : Type} (table : store -> list A)
           (put : list A -> store -> store) (x : A) : M loc :=
  fun st => (Ok (length (table st)), put (table st ++ [x]) st).

Definition load {A : Type} (table : store -> list A) (l : loc) : M A :=
  fun st =>
    match table st !! l with
    | Some x => (Ok x, st)
    | None => (Throw TypeError, st)
    end.

Definition assign {A : Type} (table : store -> list A)
           (put : list A -> store -> store) (l : loc) (x : A) : M unit :=
  fun st => (Ok tt, put (<[l := x]> (table st)) st).

Fixpoint forEach {A : Type} (f : nat -> A -> M unit) (i : nat) (l : list A) : M unit :=
  match l with
  | [] => ret tt
  | x :: rest => let! _ := f i x in forEach f (S i) rest
  end.

(** Modelled from the spec: [new Script()] and [Script.prototype.clone],
    which are not in [transaction.js]; "deep-copy" (spec 6): the clone has a
    buffer of its own. *)
Definition h_new_Script : M loc :=
  let! b := alloc arrays with_arrays [] in
  alloc scripts with_scripts b.

Definition h_Script_clone (this : loc) : M loc :=
  let! b := load scripts this in
  let! elts := load arrays b in
  let! b' := alloc arrays with_arrays elts in
  alloc scripts with_scripts b'.

Definition seqref_or (a b : seqref) : seqref :=
  match a with
  | SeqRef _ => a
  | SeqOther v => if truthy v then a else b
  end.

(** [TransactionIn.prototype.clone]: a new outpoint object, a clone of the
    script, and [sequence: this.sequence], the same array. *)
Definition h_TransactionIn_clone (this : loc) : M loc :=
  let! o := load txins this in
  let! op := load outpoints (o_outpoint o) in
  let! op' := alloc outpoints with_outpoints {| hash := hash op; index := index op |} in
  let! sc := h_Script_clone (o_script o) in
  alloc txins with_txins
        {| o_outpoint := op'; o_script := sc;
           o_sequence := seqref_or (o_sequence o) (SeqOther Undefined) |}.

(** [TransactionOut.prototype.clone]: the script is cloned by [clone] and
    again by the constructor. *)
Definition h_TransactionOut_clone (this : loc) : M loc :=
  let! o := load txouts this in
  let! sc := h_Script_clone (o_out_script o) in
  let! sc' := h_Script_clone sc in
  alloc txouts with_txouts {| o_out_script := sc'; o_value := o_value o |}.

(** [new Transaction()]. *)
Definition h_new_Transaction : M loc :=
  let! d := alloc arrays with_arrays [Num 255; Num 255; Num 255; Num 255] in
  alloc txs with_txs
        {| o_version := Num 1; o_locktime := Num 0; o_ins := []; o_outs := [];
           o_defaultSequence := d; o_hash := None |}.

Definition tx_set_version (v : jsval) (o : Transaction_obj) : Transaction_obj :=
  {| o_version := v; o_locktime := o_locktime o; o_ins := o_ins o; o_outs := o_outs o;
     o_defaultSequence := o_defaultSequence o; o_hash := o_hash o |}.

Definition tx_set_locktime (v : jsval) (o : Transaction_obj) : Transaction_obj :=
  {| o_version := o_version o; o_locktime := v; o_ins := o_ins o; o_outs := o_outs o;
     o_defaultSequence := o_defaultSequence o; o_hash := o_hash o |}.

Definition tx_set_ins (l : list loc) (o : Transaction_obj) : Transaction_obj :=
  {| o_version := o_version o; o_locktime := o_locktime o; o_ins := l; o_outs := o_outs o;
     o_defaultSequence := o_defaultSequence o; o_hash := o_hash o |}.

Definition tx_set_outs (l : list loc) (o : Transaction_obj) : Transaction_obj :=
  {| o_version := o_version o; o_locktime := o_locktime o; o_ins := o_ins o; o_outs := l;
     o_defaultSequence := o_defaultSequence o; o_hash := o_hash o |}.

Definition in_set_script (s : loc) (o : TransactionIn_obj) : TransactionIn_obj :=
  {| o_outpoint := o_outpoint o; o_script := s; o_sequence := o_sequence o |}.

Definition in_set_sequence (s : seqref) (o : TransactionIn_obj) : TransactionIn_obj :=
  {| o_outpoint := o_outpoint o; o_script := o_script o; o_sequence := s |}.

(** An assignment to a field of a transaction or of an input. *)
Definition update_tx (l : loc) (f : Transaction_obj -> Transaction_obj) : M unit :=
  let! o := load txs l in
  assign txs with_txs l (f o).

Definition update_in (l : loc) (f : TransactionIn_obj -> TransactionIn_obj) : M unit :=
  let! o := load txins l in
  assign txins with_txins l (f o).

(** [Transaction.prototype.clone].  [this] is read once: between its reads
    only the new transaction is written. *)
Definition h_clone (this : loc) : M loc :=
  let! newTx := h_new_Transaction in
  let! o := load txs this in
  let! _ := update_tx newTx (tx_set_version (o_version o)) in
  let! _ := update_tx newTx (tx_set_locktime (o_locktime o)) in
  let! _ := forEach (fun _ txin =>
                       let! c := h_TransactionIn_clone txin in
                       update_tx newTx (fun n => tx_set_ins (o_ins n ++ [c]) n))
                    0 (o_ins o) in
  let! _ := forEach (fun _ txout =>
                       let! c := h_TransactionOut_clone txout in
                       update_tx newTx (fun n => tx_set_outs (o_outs n ++ [c]) n))
                    0 (o_outs o) in
  ret newTx.

(** What the fields of an object amount to, read through the store. *)
Definition snap_script (st : store) (l : loc) : option Script :=
  b ← scripts st !! l; elts ← arrays st !! b; Some {| buffer := elts |}.

Definition snap_sequence (st : store) (s : seqref) : option seqval :=
  match s with
  | SeqRef a => SeqBytes <$> arrays st !! a
  | SeqOther v => Some (SeqVal v)
  end.

Definition snap_in (st : store) (l : loc) : option TransactionIn :=
  o ← txins st !! l;
  op ← outpoints st !! o_outpoint o;
  sc ← snap_script st (o_script o);
  sq ← snap_sequence st (o_sequence o);
  Some {| outpoint := op; script := sc; sequence := sq |}.

Definition snap_out (st : store) (l : loc) : option TransactionOut :=
  o ← txouts st !! l;
  sc ← snap_script st (o_out_script o);
  Some {| out_script := sc; value := o_value o |}.

Definition snap_hash (st : store) (h : option loc) : option (option (list jsval)) :=
  match h with
  | Some a => Some <$> arrays st !! a
  | None => Some None
  end.

Definition snap_tx (st : store) (l : loc) : option Transaction :=
  o ← txs st !! l;
  i ← mapM (snap_in st) (o_ins o);
  u ← mapM (snap_out st) (o_outs o);
  h ← snap_hash st (o_hash o);
  Some {| version := o_version o; locktime := o_locktime o; ins := i; outs := u;
          tx_hash := h |}.

(** [serialize] reads the transaction through the store. *)
Definition h_serialize (this : loc) : M (list jsval) :=
  fun st =>
    match snap_tx st this with
    | Some tx => (Ok (serialize tx), st)
    | None => (Throw TypeError, st)
    end.

(** [hashTransactionForSignature] on the store.  In the second loop
    [txTmp.ins[i]] is the element [txin] being visited. *)
Definition h_hashTransactionForSignature (this connectedScript : loc)
           (inIndex : nat) (hashType : Z) : M (list jsval) :=
  let! txTmp := h_clone this in
  let! t := load txs txTmp in
  let! _ := forEach (fun _ txin =>
                       let! s := h_new_Script in
                       update_in txin (in_set_script s))
                    0 (o_ins t) in
  let! t := load txs txTmp in
  let! _ := match o_ins t !! inIndex with
            | Some txin => update_in txin (in_set_script connectedScript)
            | None => throw TypeError
            end in
  let! _ := if Z.land hashType 0x1f =? SIGHASH_NONE then
              let! _ := update_tx txTmp (tx_set_outs []) in
              let! t := load txs txTmp in
              forEach (fun i txin =>
                         if Nat.eqb i inIndex then ret tt
                         else update_in txin (in_set_sequence (SeqOther (Num 0))))
                      0 (o_ins t)
            else ret tt in
  let! _ := if truthy (Num (Z.land hashType SIGHASH_ANYONECANPAY)) then
              let! t := load txs txTmp in
              update_tx txTmp (tx_set_ins (option_list (o_ins t !! inIndex)))
            else ret tt in
  let! buffer := h_serialize txTmp in
  ret (doubleSHA256 (buffer ++ convert.numToBytes (parseInt (Num hashType)) 4)).

(** [array[i] = v] on an array of the store (an index inside the array). *)
Definition h_array_set (a : loc) (i : nat) (v : jsval) : M unit :=
  let! elts := load arrays a in
  assign arrays with_arrays a (<[i := v]> elts).

(** A transaction put in the store, every array an object of its own (as
    [deserialize] builds it). *)
Definition h_put_script (s : Script) : M loc :=
  let! b := alloc arrays with_arrays (buffer s) in
  alloc scripts with_scripts b.

Definition h_put_sequence (s : seqval) : M seqref :=
  match s with
  | SeqBytes l => let! a := alloc arrays with_arrays l in ret (SeqRef a)
  | SeqVal v => ret (SeqOther v)
  end.

Definition h_put_in (txin : TransactionIn) : M loc :=
  let! op := alloc outpoints with_outpoints (outpoint txin) in
  let! sc := h_put_script (script txin) in
  let! sq := h_put_sequence (sequence txin) in
  alloc txins with_txins {| o_outpoint := op; o_script := sc; o_sequence := sq |}.

Definition h_put_out (txout : TransactionOut) : M loc :=
  let! sc := h_put_script (out_script txout) in
  alloc txouts with_txouts {| o_out_script := sc; o_value := value txout |}.

Fixpoint h_put_list {A : Type} (put : A -> M loc) (l : list A) : M (list loc) :=
  match l with
  | [] => ret []
  | x :: rest =>
      let! a := put x in
      let! r := h_put_list put rest in
      ret (a :: r)
  end.

Definition h_put_tx (tx : Transaction) : M loc :=
  let! d := alloc arrays with_arrays [Num 255; Num 255; Num 255; Num 255] in
  let! i := h_put_list h_put_in (ins tx) in
  let! u := h_put_list h_put_out (outs tx) in
  alloc txs with_txs
        {| o_version := version tx; o_locktime := locktime tx; o_ins := i; o_outs := u;
           o_defaultSequence := d; o_hash := None |}.

(** ** Definitions for the statements and the proofs *)

(** [view buffer p rem]: the cursor is at [p] and [rem] is what lies from
    there on. *)
Definition view (buffer : list jsval) (p : Z) (rem : list jsval) : Prop :=
  0 <= p /\ drop (Z.to_nat p) buffer = rem.

(** Equalities between results that differ in arithmetic only. *)
Ltac feq := repeat first [lia | reflexivity | progress f_equal].

(** The transaction built from a document without a cached hash. *)
Definition built (v l : jsval) (i : list TransactionIn) (o : list TransactionOut)
  : Transaction :=
  let t := {| version := if truthy v then v else Num 1;
              locktime := if truthy l then l else Num 0;
              ins := i; outs := o; tx_hash := None |} in
  set_hash t (Some (getHash t)).

(** What [deserialize] returns on the serialization of [tx]. *)
Definition reread (tx : Transaction) : Transaction :=
  built (version tx) (locktime tx) (ins tx) (outs tx).

(** A result that is not an error other than [RangeError]. *)
Definition only_RangeError {A : Type} (r : result A) : Prop :=
  match r with
  | Ok _ => True
  | Throw e => e = RangeError
  end.

(** The golden vector of the specification (8): one input spending output 0
    of the transaction 00..01, one empty output. *)
Definition golden : Transaction :=
  {| version := Num 1; locktime := Num 0;
     ins := [ {| outpoint :=
                   {| hash := "0000000000000000000000000000000000000000000000000000000000000001";
                      index := Num 0 |};
                 script := {| buffer := [] |};
                 sequence := defaultSequence |} ];
     outs := [ {| out_script := {| buffer := [] |}; value := Num 0 |} ];
     tx_hash := None |}.

(** The empty transaction with version 0, as an object and on the wire. *)
Definition zero_version_tx : Transaction :=
  {| version := Num 0; locktime := Num 0; ins := []; outs := []; tx_hash := None |}.

Definition zero_version_wire : Wire.tx :=
  {| Wire.tx_version := 0; Wire.inputs := []; Wire.outputs := [];
     Wire.tx_locktime := 0 |}.

(** The golden vector as a logical transaction. *)
Definition golden_wire : Wire.tx :=
  {| Wire.tx_version := 1;
     Wire.inputs := [ {| Wire.prev_hash := repeat 0 31 ++ [1]; Wire.prev_index := 0;
                         Wire.in_script := []; Wire.in_sequence := [255; 255; 255; 255] |} ];
     Wire.outputs := [ {| Wire.amount := 0; Wire.out_script := [] |} ];
     Wire.tx_locktime := 0 |}.


(** A locking script to sign against, and a second input. *)
Definition a_script : Script := {| buffer := [Num 118; Num 169; Num 136; Num 172] |}.

Definition second_in : TransactionIn :=
  {| outpoint :=
       {| hash := "0000000000000000000000000000000000000000000000000000000000000002";
          index := Num 3 |};
     script := {| buffer := [] |};
     sequence := defaultSequence |}.

Definition two_inputs : Transaction := push_in golden second_in.

(** [frame ins_w txs_w st st']: from [st] to [st'] objects were added, and
    only the inputs at [ins_w] and the transactions at [txs_w] were
    assigned to. *)
Record frame (ins_w txs_w : list loc) (st st' : store) : Prop := {
  fr_arrays : arrays st `prefix_of` arrays st';
  fr_scripts : scripts st `prefix_of` scripts st';
  fr_outpoints : outpoints st `prefix_of` outpoints st';
  fr_txouts : txouts st `prefix_of` txouts st';
  fr_txins : forall l o, l ∉ ins_w -> txins st !! l = Some o -> txins st' !! l = Some o;
  fr_txs : forall l o, l ∉ txs_w -> txs st !! l = Some o -> txs st' !! l = Some o
}.

(** A store that differs by objects added at the end of its tables, or by
    one assignment. *)
Ltac frame_append :=
  split; cbn; intros; try done; try (by apply prefix_app_r).

(** The store with one more script, whose buffer is a new array. *)
Definition add_script (elts : list jsval) (st : store) : store :=
  with_scripts (scripts st ++ [length (arrays st)]) (with_arrays (arrays st ++ [elts]) st).

(** [tx_state st txTmp ls tm]: the transaction object at [txTmp] has the
    inputs [ls] and reads as [tm]. *)
Definition tx_state (st : store) (txTmp : loc) (ls : list loc) (tm : Transaction) : Prop :=
  exists o, txs st !! txTmp = Some o
            /\ o_version o = version tm /\ o_locktime o = locktime tm
            /\ o_hash o = None /\ tx_hash tm = None
            /\ o_ins o = ls
            /\ Forall2 (fun l x => snap_in st l = Some x) ls (ins tm)
            /\ Forall2 (fun l y => snap_out st l = Some y) (o_outs o) (outs tm).

(** The input object at [l'] holds in its [sequence] field what
    [this.sequence || undefined] gives for the input object at [l]: the same
    array when it is an array. *)
Definition shares_sequence (st : store) (l l' : loc) : Prop :=
  exists o o', txins st !! l = Some o /\ txins st !! l' = Some o'
               /\ o_sequence o' = seqref_or (o_sequence o) (SeqOther Undefined).

(** The golden transaction and a locking script, as objects. *)
Definition golden_store : store :=
  snd ((let! _ := h_put_tx golden in h_put_script a_script) empty_store).

(** [c = this.clone(); c.ins[0].sequence[0] = 0]. *)
Definition write_clone_sequence (this : loc) : M unit :=
  let! c := h_clone this in
  let! t := load txs c in
  match o_ins t !! 0%nat with
  | Some txin =>
      let! i := load txins txin in
      match o_sequence i with
      | SeqRef a => h_array_set a 0 (Num 0)
      | SeqOther _ => throw TypeError
      end
  | None => throw TypeError
  end.

(** [c = this.clone(); c.ins[0].script.buffer[0] = 0]. *)
Definition write_clone_script (this : loc) : M unit :=
  let! c := h_clone this in
  let! t := load txs c in
  match o_ins t !! 0%nat with
  | Some txin =>
      let! i := load txins txin in
      let! b := load scripts (o_script i) in
      h_array_set b 0 (Num 0)
  | None => throw TypeError
  end.

(** ** Further methods *)

(** ** [serializeHex], [scriptPubKey], [estimateFee] *)

Definition serializeHex (tx : Transaction) : string :=
  convert.bytesToHex (serialize tx).

Definition scriptPubKey (txout : TransactionOut) : string :=
  convert.bytesToHex (buffer (out_script txout)).

(** [Transaction.feePerKb]. *)
Definition Transaction_feePerKb : Z := 20000.

(** [Math.ceil(a / b)] for integers [a] and [b > 0].  (The quotient of the
    source is a floating-point number; for a size computed from two array
    lengths it is far enough from the next integer for the ceiling to be
    the exact one.) *)
Definition ceil_div (a b : Z) : Z := - ((- a) / b).

(** [size] of [estimateFee]. *)
Definition estimate_size (tx : Transaction) : Z :=
  Z.of_nat (length (ins tx)) * 180 + Z.of_nat (length (outs tx)) * 34 + 34.

(** [estimateFee(feePerKb)]: [feePerKb == undefined] holds for [undefined]
    only (of the values modelled), not for 0 or [NaN]. *)
Definition estimateFee (tx : Transaction) (feePerKb : jsval) : jsval :=
  let feePerKb :=
    match feePerKb with
    | Undefined => Num Transaction_feePerKb
    | _ => feePerKb
    end in
  jmul feePerKb (Num (ceil_div (estimate_size tx) 1000)).

(** [addInput(hash, outIndex)] on the store, for a hash string of at most
    65 characters: the new input is given [this.defaultSequence], the array
    of the transaction. *)
Definition h_addInput (this : loc) (h : string) (outIndex : jsval) : M unit :=
  let! o := load txs this in
  let! op := alloc outpoints with_outpoints {| hash := h; index := outIndex |} in
  let! sc := h_new_Script in
  let! txin := alloc txins with_txins
                     {| o_outpoint := op; o_script := sc;
                        o_sequence := seqref_or (SeqRef (o_defaultSequence o))
                                                (SeqOther Undefined) |} in
  update_tx this (fun n => tx_set_ins (o_ins n ++ [txin]) n).

(** The transaction object of [golden_store]. *)
Definition golden_obj : Transaction_obj :=
  {| o_version := Num 1; o_locktime := Num 0; o_ins := [0%nat]; o_outs := [0%nat];
     o_defaultSequence := 0%nat; o_hash := None |}.

(** ** Signing *)

(** Modelled from the spec: the key, signature and script collaborators,
    which are not in [transaction.js] (spec 6): "public-key export from a
    private key; standard address derivation; sign(digest) -> signature;
    free-standing verify(digest, signature, publicKey) -> bool", and the
    factories "for a standard pay-to-address locking script", "for a
    standard signature+pubkey unlocking script" and "for a multisig
    unlocking script from signatures + redeem script".  They are parameters
    of the signing methods, as is [convert.coerceToBytes], and are taken to
    return a value; [entropy] is what a signature depends on besides the
    key and the digest. *)
Class Collaborators := {
  ECKey : Type;
  Address : Type;
  entropy : Type;
  new_ECKey : ECKey -> ECKey;
  getPub : ECKey -> list jsval;
  getAddress : ECKey -> string;
  key_sign : ECKey -> list jsval -> entropy -> list jsval;
  sha256ripe160 : list jsval -> list jsval;
  new_Address : list jsval -> Address;
  createOutputScript : Address -> Script;
  createInputScript : list jsval -> list jsval -> Script;
  createMultiSigInputScript : list (list jsval) -> Script -> Script;
  ECDSA_verify : list jsval -> list jsval -> list jsval -> bool;
  coerceToBytes : list jsval -> list jsval
}.

(** [type || SIGHASH_ALL] for a hash type that is a number or absent. *)
Definition type_or_ALL (type : jsval) : Z :=
  if truthy type then match type with Num z => z | _ => SIGHASH_ALL end
  else SIGHASH_ALL.

(** A record of [outputs]: [{ output: 'txhash:index', address: 'address' }]. *)
Record history := { output : string; address : string }.

(** A number as the string that [+] appends (an integer below 1e21). *)
Definition to_string (v : jsval) : string :=
  match v with
  | Num z => NilZero.string_of_int (Z.to_int z)
  | NaN => "NaN"
  | Undefined => "undefined"
  end.

(** [outpoint.hash + ':' + outpoint.index]. *)
Definition outpoint_key (op : Outpoint) : string :=
  (hash op ++ ":" ++ to_string (index op))%string.

(** [hmap] after [outputs.forEach(function(o) { hmap[o.output] = o })]:
    the last record of a key is the one that is kept.  (The keys looked up
    hold a colon, so that none is a property that [{}] inherits.) *)
Definition hmap_of (outputs : list history) : string -> option history :=
  fold_left (fun hmap o key => if String.eqb key (output o) then Some o else hmap key)
            outputs (fun _ => None).

Section Signing.

Context {collaborators : Collaborators}.

(** [this.ins[index].script = s] on values: a [TypeError] when there is no
    such input.  The source assigns to the input object at [index]; this
    is what it amounts to when the inputs of the transaction are distinct
    objects (an object that [addInput] has pushed twice changes at both
    places).  [h_sign] and [h_signWithKeys] below work on the store. *)
Definition assign_script (tx : Transaction) (index : nat) (s : Script)
  : result Transaction :=
  match ins tx !! index with
  | Some txin => Ok (set_ins tx (<[index := set_script txin s]> (ins tx)))
  | None => Throw TypeError
  end.

(** The locking script that [sign] hashes against: the standard script of
    the address of the key. *)
Definition key_script (key : ECKey) : Script :=
  let pub := getPub key in
  let hash160 := sha256ripe160 pub in
  createOutputScript (new_Address hash160).

(** [sign(index, key, type)]; [e] is the entropy of the signature. *)
Definition sign (tx : Transaction) (index : nat) (key : ECKey) (type : jsval)
           (e : entropy) : result Transaction :=
  let type := type_or_ALL type in
  let key := new_ECKey key in
  let pub := getPub key in
  let script := key_script key in
  let* hash := hashTransactionForSignature tx script index type in
  let sig := key_sign key hash e ++ [Num type] in
  assign_script tx index (createInputScript sig pub).

(** [addrdata]: every key with the string of its address. *)
Definition addrdata_of (keys : list ECKey) : list (ECKey * string) :=
  map (fun key => let key := new_ECKey key in (key, getAddress key)) keys.

(** The key that [signWithKeys] takes for an input, by its outpoint: the
    first one whose address is that of the record of the outpoint, if there
    is a record and such a key. *)
Definition key_for (addrdata : list (ECKey * string)) (hmap : string -> option history)
           (op : Outpoint) : option ECKey :=
  match hmap (outpoint_key op) with
  | None => None
  | Some histItem =>
      match filter (fun a => String.eqb (snd a) (address histItem)) addrdata with
      | [] => None
      | a :: _ => Some (fst a)
      end
  end.

(** The loop of [signWithKeys], from [i] on; [n] bounds the number of turns
    that are left ([sign] keeps the number of inputs).  The call of [sign]
    has no hash type; [rnd i] is the entropy of the signature of input
    [i]. *)
Fixpoint signWithKeys_from (addrdata : list (ECKey * string))
         (hmap : string -> option history) (rnd : nat -> entropy)
         (n i : nat) (tx : Transaction) : result Transaction :=
  match n with
  | O => Ok tx
  | S n' =>
      match ins tx !! i with
      | None => Ok tx
      | Some txin =>
          match key_for addrdata hmap (outpoint txin) with
          | None => signWithKeys_from addrdata hmap rnd n' (S i) tx
          | Some key =>
              let* tx := sign tx i key Undefined (rnd i) in
              signWithKeys_from addrdata hmap rnd n' (S i) tx
          end
      end
  end.

(** [signWithKeys(keys, outputs, type)]; [type] is given its default and
    not used after that. *)
Definition signWithKeys (tx : Transaction) (keys : list ECKey) (outputs : list history)
           (type : jsval) (rnd : nat -> entropy) : result Transaction :=
  let type := type_or_ALL type in
  let addrdata := addrdata_of keys in
  let hmap := hmap_of outputs in
  signWithKeys_from addrdata hmap rnd (length (ins tx)) 0 tx.

(** Input [i] as [sign] alone leaves it, with the key that [signWithKeys]
    takes for it; the input itself when there is no such key. *)
Definition signed_input (tx : Transaction) (addrdata : list (ECKey * string))
           (hmap : string -> option history) (rnd : nat -> entropy)
           (i : nat) (txin : TransactionIn) : TransactionIn :=
  match key_for addrdata hmap (outpoint txin) with
  | None => txin
  | Some key =>
      match sign tx i key Undefined (rnd i) with
      | Ok t => nth i (ins t) txin
      | Throw _ => txin
      end
  end.

(** [p2shsign(index, script, key, type)], also called [multisign], for a
    script given as an array of bytes. *)
Definition p2shsign (tx : Transaction) (index : nat) (script : list jsval) (key : ECKey)
           (type : jsval) (e : entropy) : result (list jsval) :=
  let script := new_Script (Some script) in
  let key := new_ECKey key in
  let type := type_or_ALL type in
  let* hash := hashTransactionForSignature tx script index type in
  Ok (key_sign key hash e ++ [Num type]).

(** [applyMultisigs(index, script, sigs)]. *)
Definition applyMultisigs (tx : Transaction) (index : nat) (script : Script)
           (sigs : list (list jsval)) : result Transaction :=
  assign_script tx index (createMultiSigInputScript sigs script).

(** [validateSig(index, script, sig, pub)] for a script, a signature and a
    public key given as arrays of bytes. *)
Definition validateSig (tx : Transaction) (index : nat) (script sig pub : list jsval)
  : result bool :=
  let script := new_Script (Some script) in
  let* hash := hashTransactionForSignature tx script index 1 in
  Ok (ECDSA_verify hash (coerceToBytes sig) (coerceToBytes pub)).

(** [sign] on the store: the two scripts that the factories return are new
    objects, and the assignment is to the input object at [index]. *)
Definition h_sign (this : loc) (index : nat) (key : ECKey) (type : jsval)
           (e : entropy) : M unit :=
  let type := type_or_ALL type in
  let key := new_ECKey key in
  let pub := getPub key in
  let! script := h_put_script (key_script key) in
  let! hash := h_hashTransactionForSignature this script index type in
  let sig := key_sign key hash e ++ [Num type] in
  let! s := h_put_script (createInputScript sig pub) in
  let! t := load txs this in
  match o_ins t !! index with
  | Some txin => update_in txin (in_set_script s)
  | None => throw TypeError
  end.

(** The loop of [signWithKeys] on the store: the outpoint is read through
    the input object at [i], and [sign] assigns to that object. *)
Fixpoint h_signWithKeys_from (addrdata : list (ECKey * string))
         (hmap : string -> option history) (rnd : nat -> entropy)
         (n i : nat) (this : loc) : M unit :=
  match n with
  | O => ret tt
  | S n' =>
      let! t := load txs this in
      match o_ins t !! i with
      | None => ret tt
      | Some txin =>
          let! o := load txins txin in
          let! op := load outpoints (o_outpoint o) in
          match key_for addrdata hmap op with
          | None => h_signWithKeys_from addrdata hmap rnd n' (S i) this
          | Some key =>
              let! _ := h_sign this i key Undefined (rnd i) in
              h_signWithKeys_from addrdata hmap rnd n' (S i) this
          end
      end
  end.

Definition h_signWithKeys (this : loc) (keys : list ECKey) (outputs : list history)
           (type : jsval) (rnd : nat -> entropy) : M unit :=
  let type := type_or_ALL type in
  let addrdata := addrdata_of keys in
  let hmap := hmap_of outputs in
  let! t := load txs this in
  h_signWithKeys_from addrdata hmap rnd (length (o_ins t)) 0 this.

End Signing.

(** Equality of values is decidable. *)
#[local] Instance jsval_eq_dec : EqDecision jsval.
Proof. solve_decision. Defined.

(** Collaborators to evaluate the signing methods with: a key is its own
    public key, a signature is the digest followed by the key, and a
    script holds what it is made from. *)
Definition toy : Collaborators :=
  {| ECKey := list jsval;
     Address := list jsval;
     entropy := unit;
     new_ECKey := fun key => key;
     getPub := fun key => key;
     getAddress := fun key => convert.bytesToHex key;
     key_sign := fun key digest _ => digest ++ key;
     sha256ripe160 := fun bytes => take 20 (doubleSHA256 bytes);
     new_Address := fun bytes => bytes;
     createOutputScript := fun a => {| buffer := Num 118 :: Num 169 :: a |};
     createInputScript := fun sig pub => {| buffer := sig ++ pub |};
     createMultiSigInputScript := fun sigs script => {| buffer := concat sigs ++ buffer script |};
     ECDSA_verify := fun digest sig pub => bool_decide (sig = digest ++ pub);
     coerceToBytes := fun bytes => bytes |}.

(** The transaction [two_inputs] as objects, and its transaction object. *)
Definition two_inputs_store : store := snd (h_put_tx two_inputs empty_store).

Definition two_inputs_obj : Transaction_obj :=
  {| o_version := Num 1; o_locktime := Num 0; o_ins := [0%nat; 1%nat];
     o_outs := [0%nat]; o_defaultSequence := 0%nat; o_hash := None |}.


(** A record for the second input of [two_inputs], with the address of the
    key [[Num 2]] of the collaborators [toy]. *)
Definition second_history : history :=
  {| output := "0000000000000000000000000000000000000000000000000000000000000002:3";
     address := "02" |}.

(** * Properties *)

(** ** Reading a buffer *)

Lemma view_start buffer : view buffer 0 buffer.
Proof. split; [lia | reflexivity]. Qed.

Lemma view_app buffer p x rem :
  view buffer p (x ++ rem) -> view buffer (p + Z.of_nat (length x)) rem.
Proof.
  intros [Hp Hd]. split; [lia |].
  replace (Z.to_nat (p + Z.of_nat (length x))) with (Z.to_nat p + length x)%nat by lia.
  rewrite <- drop_drop, Hd. apply drop_app_length.
Qed.

Lemma view_cons buffer p x rem :
  view buffer p (x :: rem) -> view buffer (p + 1) rem.
Proof. intros H. apply (view_app buffer p [x] rem H). Qed.

Lemma view_length buffer p rem :
  view buffer p rem -> (length rem = length buffer - Z.to_nat p)%nat.
Proof. intros [_ <-]. apply length_drop. Qed.

Lemma view_jget buffer p x rem :
  view buffer p (x :: rem) -> jget buffer (Num p) = x.
Proof.
  intros [Hp Hd]. unfold jget.
  destruct (Z.ltb_spec p 0); [lia |].
  rewrite <- (firstn_skipn (Z.to_nat p) buffer) at 1.
  assert (Hl : (Z.to_nat p <= length buffer)%nat).
  { apply (f_equal (@length _)) in Hd. rewrite length_drop in Hd. simpl in Hd. lia. }
  rewrite app_nth2; rewrite length_take; [| lia].
  replace (Z.to_nat p - Z.to_nat p `min` length buffer)%nat with 0%nat by lia.
  rewrite Hd. reflexivity.
Qed.

Lemma view_jget_end buffer p :
  view buffer p [] -> jget buffer (Num p) = Undefined.
Proof.
  intros [Hp Hd]. unfold jget.
  destruct (Z.ltb_spec p 0); [lia |].
  apply nth_overflow.
  apply (f_equal (@length _)) in Hd. rewrite length_drop in Hd. simpl in Hd. lia.
Qed.

Lemma le_bytes_length z k : length (convert.le_bytes z k) = k.
Proof. revert z. induction k; intros; simpl; [reflexivity | by rewrite IHk]. Qed.

Lemma readAsInt_view buffer k :
  forall z p rem,
    0 <= z < 256 ^ Z.of_nat k ->
    view buffer p (map Num (convert.le_bytes z k) ++ rem) ->
    readAsInt buffer k (Num p) = (Num z, Num (p + Z.of_nat k)).
Proof.
  induction k as [| k IH]; intros z p rem Hz Hv.
  - simpl in *. f_equal; f_equal; lia.
  - cbn [convert.le_bytes map app] in Hv. cbn [readAsInt jadd jsub].
    replace (p + 1 - 1) with p by lia.
    rewrite (view_jget _ _ _ _ Hv).
    rewrite (IH (z / 256) (p + 1) rem).
    + pose proof (Z.div_mod z 256 ltac:(lia)).
      cbn [jadd jmul]. f_equal; f_equal; lia.
    + rewrite Nat2Z.inj_succ, Z.pow_succ_r in Hz by lia.
      split; [apply Z.div_pos; lia | apply Z.div_lt_upper_bound; lia].
    + eapply view_cons, Hv.
Qed.

Lemma readAsInt_short buffer k :
  forall p rem,
    view buffer p rem -> (length rem < k)%nat ->
    fst (readAsInt buffer k (Num p)) = NaN.
Proof.
  induction k as [| k IH]; intros p rem Hv Hl; [lia |].
  cbn [readAsInt jadd jsub]. replace (p + 1 - 1) with p by lia.
  destruct rem as [| x rem].
  - rewrite (view_jget_end _ _ Hv).
    destruct (readAsInt buffer k (Num (p + 1))); reflexivity.
  - specialize (IH (p + 1) rem (view_cons _ _ _ _ Hv)).
    destruct (readAsInt buffer k (Num (p + 1))) as [r q]. cbn [fst length] in *.
    rewrite IH by lia. destruct (jget buffer (Num p)); reflexivity.
Qed.

Lemma numToVarInt_length n :
  0 <= n < 65536 ->
  length (convert.numToVarInt n) = if n <? 253 then 1%nat else 3%nat.
Proof.
  intros Hn. unfold convert.numToVarInt.
  destruct (n <? 253); [reflexivity |].
  destruct (Z.ltb_spec n 65536); [reflexivity | lia].
Qed.

Lemma readVarInt_view buffer n p rem :
  0 <= n < 65536 ->
  view buffer p (convert.numToVarInt n ++ rem) ->
  readVarInt buffer (Num p)
  = Ok (Num n, Num (p + Z.of_nat (length (convert.numToVarInt n)))).
Proof.
  intros Hn Hv. rewrite numToVarInt_length by assumption.
  unfold convert.numToVarInt in Hv. unfold readVarInt.
  cbn [jadd jsub]. replace (p + 1 - 1) with p by lia.
  destruct (Z.ltb_spec n 253) as [Hlt | Hge].
  - rewrite (view_jget _ _ _ _ Hv). cbn [jlt].
    destruct (Z.ltb_spec n 253); [reflexivity | lia].
  - destruct (Z.ltb_spec n 65536); [| lia].
    rewrite (view_jget _ _ _ _ Hv). cbn [jlt jsub readAsInt_val].
    change (253 <? 253) with false. change (253 - 251 <? 0) with false.
    cbn iota. change (Z.to_nat (253 - 251)) with 2%nat.
    rewrite (readAsInt_view buffer 2 n (p + 1) rem).
    + feq.
    + change (256 ^ Z.of_nat 2) with 65536. lia.
    + eapply view_cons, Hv.
Qed.

Lemma readBytes_take buffer n p rem :
  0 <= n -> view buffer p rem ->
  readBytes buffer (Num n) (Num p) = (take (Z.to_nat n) rem, Num (p + n)).
Proof.
  intros Hn [Hp Hd]. unfold readBytes, slice. cbn [jadd jsub slice_bound].
  replace (p + n - n) with p by lia. f_equal.
  destruct (Z.ltb_spec p 0); [lia |]. destruct (Z.ltb_spec (p + n) 0); [lia |].
  subst rem.
  destruct (Z.le_gt_cases p (Z.of_nat (length buffer))) as [Hle | Hgt].
  - rewrite (Z.min_l p) by lia.
    destruct (Z.le_gt_cases (p + n) (Z.of_nat (length buffer))).
    + rewrite Z.min_l by lia. f_equal. lia.
    + rewrite Z.min_r by lia.
      rewrite !take_ge; [reflexivity | |]; rewrite length_drop; lia.
  - rewrite !Z.min_r by lia.
    rewrite (drop_ge buffer (Z.to_nat p)) by lia.
    rewrite drop_ge by lia. by rewrite !take_nil.
Qed.

Lemma readBytes_view buffer bs p rem :
  view buffer p (bs ++ rem) ->
  readBytes buffer (Num (Z.of_nat (length bs))) (Num p)
  = (bs, Num (p + Z.of_nat (length bs))).
Proof.
  intros Hv.
  rewrite (readBytes_take buffer (Z.of_nat (length bs)) p _ ltac:(lia) Hv).
  rewrite Nat2Z.id. by rewrite take_app_length.
Qed.

Lemma readBytes_exact buffer bs n p rem :
  Z.of_nat (length bs) = n ->
  view buffer p (bs ++ rem) ->
  readBytes buffer (Num n) (Num p) = (bs, Num (p + n)).
Proof. intros <-. apply readBytes_view. Qed.

(** ** Hexadecimal strings *)

Lemma lower_hex_value c :
  lower_hex c = true ->
  exists x, convert.hexValue c = Some x /\ 0 <= x < 16 /\ convert.hexDigit x = c.
Proof.
  intros H.
  exists (match convert.hexValue c with Some x => x | None => 0 end).
  destruct c as [[] [] [] [] [] [] [] []]; try discriminate H;
    vm_compute; repeat split; congruence.
Qed.

Lemma hexDigit_value n :
  0 <= n < 16 ->
  convert.hexValue (convert.hexDigit n) = Some n /\ lower_hex (convert.hexDigit n) = true.
Proof.
  intros Hn. replace n with (Z.of_nat (Z.to_nat n)) by lia.
  assert (Hm : (Z.to_nat n < 16)%nat) by lia.
  generalize (Z.to_nat n) Hm. clear. intros m Hm.
  do 16 (destruct m as [| m]; [split; reflexivity |]). lia.
Qed.

(** Induction on strings two characters at a time. *)
Lemma string_pair_ind (P : string -> Prop) :
  P EmptyString ->
  (forall a, P (String a EmptyString)) ->
  (forall a b s, P s -> P (String a (String b s))) ->
  forall s, P s.
Proof.
  intros H0 H1 H2 s.
  assert (H : P s /\ forall a, P (String a s)).
  { induction s as [| b s [IH1 IH2]]; split; auto. }
  apply H.
Qed.

Lemma bytesToHex_hexToBytes s :
  hex_ok s = true -> convert.bytesToHex (convert.hexToBytes s) = s.
Proof.
  induction s as [| a | a b s IH] using string_pair_ind; intros H;
    [reflexivity | discriminate H |].
  cbn [hex_ok] in H. apply andb_true_iff in H as [H Hs].
  apply andb_true_iff in H as [Ha Hb].
  destruct (lower_hex_value a Ha) as (x & Hx & Hxr & <-).
  destruct (lower_hex_value b Hb) as (y & Hy & Hyr & <-).
  cbn [convert.hexToBytes convert.bytesToHex]. rewrite Hx, Hy.
  destruct (Z.leb_spec 0 (16 * x + y)); [| lia].
  destruct (Z.ltb_spec (16 * x + y) 256); [| lia]. cbn [andb].
  replace ((16 * x + y) / 16) with x by (apply (Z.div_unique _ 16 x y); lia).
  replace ((16 * x + y) mod 16) with y by (apply (Z.mod_unique _ 16 x y); lia).
  by rewrite IH.
Qed.

Lemma hexToBytes_length s :
  hex_ok s = true -> (2 * length (convert.hexToBytes s) = String.length s)%nat.
Proof.
  induction s as [| a | a b s IH] using string_pair_ind; intros H;
    [reflexivity | discriminate H |].
  cbn [hex_ok] in H. apply andb_true_iff in H as [_ Hs].
  cbn [convert.hexToBytes length String.length]. specialize (IH Hs). lia.
Qed.

Lemma bytesToHex_ok l :
  forallb is_byte l = true ->
  hex_ok (convert.bytesToHex l) = true
  /\ String.length (convert.bytesToHex l) = (2 * length l)%nat
  /\ convert.hexToBytes (convert.bytesToHex l) = l.
Proof.
  induction l as [| v l IH]; intros H; [by repeat split |].
  cbn [forallb] in H. apply andb_true_iff in H as [Hv Hl].
  destruct (IH Hl) as (IH1 & IH2 & IH3).
  destruct v as [z | |]; try discriminate Hv. cbn [is_byte] in Hv.
  cbn [convert.bytesToHex]. rewrite Hv.
  apply andb_true_iff in Hv as [Hz1 Hz2].
  apply Z.leb_le in Hz1. apply Z.ltb_lt in Hz2.
  assert (Hq : 0 <= z / 16 < 16)
    by (split; [apply Z.div_pos | apply Z.div_lt_upper_bound]; lia).
  assert (Hr : 0 <= z mod 16 < 16) by (apply Z.mod_pos_bound; lia).
  destruct (hexDigit_value _ Hq) as [Hq1 Hq2].
  destruct (hexDigit_value _ Hr) as [Hr1 Hr2].
  cbn [hex_ok String.length convert.hexToBytes length].
  rewrite Hq1, Hq2, Hr1, Hr2, IH1, IH2, IH3. repeat split; [lia |].
  f_equal. f_equal. pose proof (Z.div_mod z 16 ltac:(lia)). lia.
Qed.

(** ** Reading back what [serialize] wrote *)

Lemma view_skip buffer p x n rem :
  Z.of_nat (length x) = n ->
  view buffer p (x ++ rem) -> view buffer (p + n) rem.
Proof. intros <-. apply view_app. Qed.

Lemma readVarString_view buffer bs p rem :
  Z.of_nat (length bs) < 65536 ->
  view buffer p (convert.numToVarInt (Z.of_nat (length bs)) ++ bs ++ rem) ->
  readVarString buffer (Num p)
  = Ok (bs, Num (p + Z.of_nat (length (convert.numToVarInt (Z.of_nat (length bs))))
                   + Z.of_nat (length bs))).
Proof.
  intros Hl Hv. unfold readVarString.
  rewrite (readVarInt_view buffer (Z.of_nat (length bs)) p _ ltac:(lia) Hv).
  cbn [bind].
  by rewrite (readBytes_view _ _ _ _ (view_app _ _ _ _ Hv)).
Qed.

Lemma read_in_view buf x p rem :
  in_ok x = true ->
  view buf p (serialize_in x ++ rem) ->
  exists d,
    read_in buf (Num p) = Ok (d, Num (p + Z.of_nat (length (serialize_in x))))
    /\ new_TransactionIn d = x.
Proof.
  destruct x as [[h i] [sb] sq]. unfold in_ok, script_ok, uint32, serialize_in.
  cbn [outpoint hash index script buffer sequence].
  intros H Hv. repeat (apply andb_true_iff in H as [H ?]).
  destruct i as [iz | |]; try discriminate.
  destruct sq as [l | ]; try discriminate.
  repeat match goal with
         | H : (_ && _) = true |- _ => apply andb_true_iff in H as [? ?]
         | H : (_ <=? _) = true |- _ => apply Z.leb_le in H
         | H : (_ <? _) = true |- _ => apply Z.ltb_lt in H
         | H : (_ =? _)%nat = true |- _ => apply Nat.eqb_eq in H
         end.
  cbn [parseInt convert.numToBytes concat_arg] in *.
  rewrite <- !app_assoc in Hv.
  assert (Hh : Z.of_nat (length (rev (convert.hexToBytes h))) = 32).
  { rewrite length_rev. pose proof (hexToBytes_length h ltac:(assumption)). lia. }
  assert (Hi : Z.of_nat (length (map Num (convert.le_bytes iz 4))) = 4).
  { by rewrite length_map, le_bytes_length. }
  pose proof (view_skip _ _ _ _ _ Hh Hv) as Hv1.
  pose proof (view_skip _ _ _ _ _ Hi Hv1) as Hv2.
  pose proof (view_app _ _ _ _ Hv2) as Hv3.
  pose proof (view_app _ _ _ _ Hv3) as Hv4.
  eexists. split.
  - unfold read_in.
    rewrite (readBytes_exact _ _ _ _ _ Hh Hv).
    rewrite (readAsInt_view _ 4 iz _ _
               ltac:(change (256 ^ Z.of_nat 4) with 4294967296; lia) Hv1).
    change (Z.of_nat 4) with 4.
    rewrite (readVarString_view _ sb _ _ ltac:(assumption) Hv2). cbn [bind].
    rewrite (readBytes_exact _ l 4 _ rem ltac:(lia) Hv4).
    rewrite rev_involutive, bytesToHex_hexToBytes by assumption.
    f_equal. f_equal. f_equal. rewrite !length_app. lia.
  - reflexivity.
Qed.

Lemma bytesToNum_le_bytes z k :
  0 <= z < 256 ^ Z.of_nat k ->
  convert.bytesToNum (map Num (convert.le_bytes z k)) = Num z.
Proof.
  revert z. induction k as [| k IH]; intros z Hz.
  - simpl in *. f_equal. lia.
  - cbn [convert.le_bytes map convert.bytesToNum]. rewrite IH.
    + cbn [jadd jmul]. f_equal. pose proof (Z.div_mod z 256 ltac:(lia)). lia.
    + rewrite Nat2Z.inj_succ, Z.pow_succ_r in Hz by lia.
      split; [apply Z.div_pos; lia | apply Z.div_lt_upper_bound; lia].
Qed.

Lemma read_out_view buf x p rem :
  out_ok x = true ->
  view buf p (serialize_out x ++ rem) ->
  exists d,
    read_out buf (Num p) = Ok (d, Num (p + Z.of_nat (length (serialize_out x))))
    /\ new_TransactionOut d = x.
Proof.
  destruct x as [[sb] v]. unfold out_ok, script_ok, serialize_out.
  cbn [out_script value buffer].
  intros H Hv. destruct v as [z | |]; try discriminate.
  repeat match goal with
         | H : (_ && _) = true |- _ => apply andb_true_iff in H as [? ?]
         | H : (_ <=? _) = true |- _ => apply Z.leb_le in H
         | H : (_ <? _) = true |- _ => apply Z.ltb_lt in H
         end.
  cbn [convert.numToBytes] in *.
  rewrite <- !app_assoc in Hv.
  assert (Hi : Z.of_nat (length (map Num (convert.le_bytes z 8))) = 8).
  { by rewrite length_map, le_bytes_length. }
  pose proof (view_skip _ _ _ _ _ Hi Hv) as Hv1.
  eexists. split.
  - unfold read_out.
    rewrite (readBytes_exact _ _ _ _ _ Hi Hv).
    rewrite (readVarString_view _ sb _ _ ltac:(assumption) Hv1). cbn [bind].
    rewrite bytesToNum_le_bytes
      by (change (256 ^ Z.of_nat 8) with 18446744073709551616; lia).
    f_equal. f_equal. f_equal. rewrite !length_app. lia.
  - reflexivity.
Qed.

Lemma read_loop_view {A B : Type} (item : list jsval -> jsval -> result (B * jsval))
      (ser : A -> list jsval) (ok : A -> bool) (new : B -> A) buffer :
  (forall x p rem, ok x = true -> view buffer p (ser x ++ rem) ->
     exists d, item buffer (Num p) = Ok (d, Num (p + Z.of_nat (length (ser x))))
               /\ new d = x) ->
  forall xs p rem,
    forallb ok xs = true ->
    view buffer p (flat_map ser xs ++ rem) ->
    exists ds,
      read_loop (item buffer) (length xs) (Num p)
      = Ok (ds, Num (p + Z.of_nat (length (flat_map ser xs))))
      /\ map new ds = xs.
Proof.
  intros Hitem xs. induction xs as [| x xs IH]; intros p rem Hok Hv.
  - exists []. split; [| reflexivity]. simpl. feq.
  - cbn [forallb] in Hok. apply andb_true_iff in Hok as [Hx Hxs].
    cbn [flat_map] in *. rewrite <- app_assoc in Hv.
    destruct (Hitem x p _ Hx Hv) as (d & Hd & Hnew).
    destruct (IH _ _ Hxs (view_app _ _ _ _ Hv)) as (ds & Hds & Hmap).
    exists (d :: ds). split.
    + cbn [length read_loop]. rewrite Hd. cbn [bind]. rewrite Hds. cbn [bind].
      rewrite length_app. feq.
    + cbn [map]. by rewrite Hnew, Hmap.
Qed.

(** ** The constructor on a document *)

Lemma fold_push_in {A : Type} (f : A -> TransactionIn) l :
  forall t, fold_left (fun t x => push_in t (f x)) l t = set_ins t (ins t ++ map f l).
Proof.
  induction l as [| x l IH]; intros t; cbn [fold_left map].
  - rewrite app_nil_r. by destruct t.
  - rewrite IH. unfold push_in, set_ins. cbn. by rewrite <- app_assoc.
Qed.

Lemma fold_push_out {A : Type} (f : A -> TransactionOut) l :
  forall t, fold_left (fun t x => addOutput t (f x)) l t = set_outs t (outs t ++ map f l).
Proof.
  induction l as [| x l IH]; intros t; cbn [fold_left map].
  - rewrite app_nil_r. by destruct t.
  - rewrite IH. unfold addOutput, push_out, set_outs. cbn. by rewrite <- app_assoc.
Qed.

Lemma new_Transaction_doc v l di do :
  new_Transaction (Some {| doc_hash := None; doc_version := v; doc_locktime := l;
                           doc_ins := di; doc_outs := do |})
  = built v l (map new_TransactionIn di) (map new_TransactionOut do).
Proof.
  unfold new_Transaction, built. cbn [doc_hash doc_version doc_locktime doc_ins doc_outs].
  rewrite fold_push_in, fold_push_out. reflexivity.
Qed.

Lemma version_built v l i o :
  version (built v l i o) = if truthy v then v else Num 1.
Proof. reflexivity. Qed.

Lemma serialize_head_locktime tx :
  serialize tx = serialize_head tx ++ convert.numToBytes (parseInt (locktime tx)) 4.
Proof. unfold serialize, serialize_head. by rewrite <- !app_assoc. Qed.

(** Reading a buffer that starts as the serialization of [tx] does: all is
    read back up to the locktime, which is whatever the last read finds. *)
Lemma deserialize_head tx tail :
  uint32 (version tx) = true -> items_ok tx = true ->
  deserialize (serialize_head tx ++ tail)
  = Ok (built (version tx)
              (fst (readAsInt (serialize_head tx ++ tail) 4
                              (Num (Z.of_nat (length (serialize_head tx))))))
              (ins tx) (outs tx)).
Proof.
  intros Hver Hbody. unfold items_ok in Hbody.
  repeat (apply andb_true_iff in Hbody as [Hbody ?]).
  destruct tx as [v l i o h]. cbn [version locktime ins outs] in *.
  destruct v as [vz | |]; try discriminate.
  unfold uint32 in *.
  repeat match goal with
         | H : (_ && _) = true |- _ => apply andb_true_iff in H as [? ?]
         | H : (_ <=? _) = true |- _ => apply Z.leb_le in H
         | H : (_ <? _) = true |- _ => apply Z.ltb_lt in H
         end.
  set (tx := {| version := Num vz; locktime := l; ins := i; outs := o; tx_hash := h |}).
  pose proof (view_start (serialize_head tx ++ tail)) as Hv.
  assert (Hlen : Z.of_nat (length (serialize_head tx))
                 = 0 + 4 + Z.of_nat (length (convert.numToVarInt (Z.of_nat (length i))))
                   + Z.of_nat (length (flat_map serialize_in i))
                   + Z.of_nat (length (convert.numToVarInt (Z.of_nat (length o))))
                   + Z.of_nat (length (flat_map serialize_out o))).
  { unfold serialize_head, tx. cbn [version ins outs parseInt convert.numToBytes].
    rewrite !length_app, length_map, le_bytes_length. lia. }
  rewrite Hlen. clear Hlen.
  unfold serialize_head in Hv at 2. subst tx.
  cbn [version locktime ins outs parseInt] in Hv.
  set (buf := serialize_head _ ++ tail) in *. clearbody buf.
  cbn [convert.numToBytes] in Hv. rewrite <- !app_assoc in Hv.
  assert (Hfour : Z.of_nat (length (map Num (convert.le_bytes vz 4))) = 4)
    by (by rewrite length_map, le_bytes_length).
  pose proof (view_skip _ _ _ _ _ Hfour Hv) as Hv1.
  pose proof (view_app _ _ _ _ Hv1) as Hv2.
  destruct (read_loop_view read_in serialize_in in_ok new_TransactionIn buf
              (read_in_view buf) i _ _ ltac:(assumption) Hv2) as (di & Hdi & Hmi).
  pose proof (view_app _ _ _ _ Hv2) as Hv3.
  pose proof (view_app _ _ _ _ Hv3) as Hv4.
  destruct (read_loop_view read_out serialize_out out_ok new_TransactionOut buf
              (read_out_view buf) o _ _ ltac:(assumption) Hv4) as (do & Hdo & Hmo).
  unfold deserialize.
  rewrite (readAsInt_view _ 4 vz _ _
             ltac:(change (256 ^ Z.of_nat 4) with 4294967296; lia) Hv).
  change (0 + Z.of_nat 4) with (0 + 4).
  rewrite (readVarInt_view buf (Z.of_nat (length i)) _ _ ltac:(lia) Hv1). cbn [bind].
  cbn [loop_count]. rewrite Nat2Z.id, Hdi. cbn [bind].
  rewrite (readVarInt_view buf (Z.of_nat (length o)) _ _ ltac:(lia) Hv3). cbn [bind].
  cbn [loop_count]. rewrite Nat2Z.id, Hdo. cbn [bind].
  destruct (readAsInt buf 4 _) as [lt q]. cbn [fst].
  rewrite new_Transaction_doc, Hmi, Hmo. reflexivity.
Qed.

Lemma view_end (x tail : list jsval) :
  view (x ++ tail) (Z.of_nat (length x)) tail.
Proof.
  split; [lia |]. rewrite Nat2Z.id. apply drop_app_length.
Qed.

Lemma deserialize_serialize tx :
  uint32 (version tx) = true -> body_ok tx = true ->
  deserialize (serialize tx) = Ok (reread tx).
Proof.
  intros Hver Hbody. apply andb_true_iff in Hbody as [Hitems Hlock].
  rewrite serialize_head_locktime, deserialize_head by assumption.
  unfold reread. destruct (locktime tx) as [lz | |]; try discriminate.
  cbn [parseInt convert.numToBytes].
  rewrite (readAsInt_view _ 4 lz _ []); [reflexivity | |].
  - unfold uint32 in Hlock. apply andb_true_iff in Hlock as [H1 H2].
    apply Z.leb_le in H1. apply Z.ltb_lt in H2.
    change (256 ^ Z.of_nat 4) with 4294967296. lia.
  - rewrite app_nil_r. apply view_end.
Qed.

(** ** The wire format of the specification and [serialize] *)

Lemma varint_numToVarInt n : map Num (Wire.varint n) = convert.numToVarInt n.
Proof.
  unfold Wire.varint, convert.numToVarInt.
  change 0xFD with 253. change 0xFFFF with 65535. change 0xFFFFFFFF with 4294967295.
  change 0xFE with 254. change 0xFF with 255.
  destruct (Z.ltb_spec n 253); [reflexivity |].
  destruct (Z.leb_spec n 65535), (Z.ltb_spec n 65536); try lia; [reflexivity |].
  destruct (Z.leb_spec n 4294967295), (Z.ltb_spec n 4294967296); try lia; reflexivity.
Qed.

Lemma forallb_byteb l : forallb Wire.byteb l = true -> forallb is_byte (map Num l) = true.
Proof.
  induction l as [| z l IH]; [reflexivity |]. cbn [forallb map].
  intros H. apply andb_true_iff in H as [Hz Hl]. by rewrite (IH Hl), andb_true_r.
Qed.

Lemma of_wire_input_ok i :
  Wire.input_ok i = true ->
  in_ok (of_wire_input i) = true
  /\ serialize_in (of_wire_input i) = map Num (Wire.encode_input i).
Proof.
  unfold Wire.input_ok. intros H.
  repeat (apply andb_true_iff in H as [H ?]).
  destruct (bytesToHex_ok _ (forallb_byteb _ H)) as (Hh1 & Hh2 & Hh3).
  split.
  - unfold in_ok, of_wire_input, script_ok, uint32.
    cbn [outpoint hash index script buffer sequence].
    rewrite Hh1, Hh2, !length_map, !forallb_byteb by assumption.
    repeat match goal with H : _ = true |- _ => rewrite H end.
    match goal with H : (_ =? 32)%nat = true |- _ => apply Nat.eqb_eq in H; rewrite H end.
    reflexivity.
  - unfold serialize_in, of_wire_input, Wire.encode_input.
    cbn [outpoint hash index script buffer sequence parseInt convert.numToBytes concat_arg].
    rewrite Hh3, !map_app, map_rev, length_map, varint_numToVarInt. reflexivity.
Qed.

Lemma of_wire_output_ok o :
  Wire.output_ok o = true ->
  out_ok (of_wire_output o) = true
  /\ serialize_out (of_wire_output o) = map Num (Wire.encode_output o).
Proof.
  unfold Wire.output_ok. intros H.
  repeat (apply andb_true_iff in H as [H ?]).
  split.
  - unfold out_ok, of_wire_output, script_ok. cbn [out_script value buffer].
    rewrite !length_map, !forallb_byteb by assumption.
    repeat match goal with H : _ = true |- _ => rewrite H end. reflexivity.
  - unfold serialize_out, of_wire_output, Wire.encode_output.
    cbn [out_script value buffer convert.numToBytes].
    rewrite !map_app, length_map, varint_numToVarInt. reflexivity.
Qed.

Lemma of_wire_items {A B : Type} (ok : A -> bool) (ok' : B -> bool) (f : A -> B)
      (enc : A -> list Z) (ser : B -> list jsval) :
  (forall x, ok x = true -> ok' (f x) = true /\ ser (f x) = map Num (enc x)) ->
  forall l, forallb ok l = true ->
    forallb ok' (map f l) = true
    /\ flat_map ser (map f l) = map Num (flat_map enc l).
Proof.
  intros Hf l. induction l as [| x l IH]; intros H; [by split |].
  cbn [forallb] in H. apply andb_true_iff in H as [Hx Hl].
  destruct (Hf x Hx) as [H1 H2]. destruct (IH Hl) as [H3 H4].
  cbn [map forallb flat_map]. by rewrite H1, H2, H3, H4, map_app.
Qed.

Lemma of_wire_ok w :
  Wire.body_ok w = true ->
  body_ok (of_wire w) = true
  /\ serialize (of_wire w) = map Num (Wire.encode w).
Proof.
  unfold Wire.body_ok. intros H.
  repeat (apply andb_true_iff in H as [H ?]).
  destruct (of_wire_items _ _ _ _ _ of_wire_input_ok _ H) as [Hi1 Hi2].
  destruct (of_wire_items _ _ _ _ _ of_wire_output_ok (Wire.outputs w)
              ltac:(assumption)) as [Ho1 Ho2].
  split.
  - unfold body_ok, items_ok, of_wire, uint32. cbn [ins outs locktime].
    rewrite Hi1, Ho1, !length_map.
    repeat match goal with H : _ = true |- _ => rewrite H end. reflexivity.
  - unfold serialize, of_wire, Wire.encode.
    cbn [version locktime ins outs parseInt convert.numToBytes].
    rewrite Hi2, Ho2, !map_app, !length_map, !varint_numToVarInt. reflexivity.
Qed.

Lemma serialize_reread tx :
  truthy (version tx) = true -> uint32 (locktime tx) = true ->
  serialize (reread tx) = serialize tx.
Proof.
  intros Hv Hl. unfold reread, built, serialize. cbn [version locktime ins outs set_hash].
  rewrite Hv. destruct (locktime tx) as [z | |]; try discriminate.
  cbn [truthy]. destruct (Z.eqb_spec z 0) as [-> |]; reflexivity.
Qed.

(** ** Errors of [deserialize] *)

Lemma only_RangeError_bind {A B : Type} (r : result A) (k : A -> result B) :
  only_RangeError r -> (forall a, only_RangeError (k a)) -> only_RangeError (bind r k).
Proof. destruct r; simpl; auto. Qed.

Lemma readVarInt_error buf p : only_RangeError (readVarInt buf p).
Proof.
  unfold readVarInt. destruct (jlt _ _); [exact I |].
  unfold readAsInt_val. destruct (jsub _ _); try reflexivity.
  destruct (_ <? _); [reflexivity | exact I].
Qed.

Lemma read_loop_error {A : Type} (item : jsval -> result (A * jsval)) n :
  (forall p, only_RangeError (item p)) ->
  forall p, only_RangeError (read_loop item n p).
Proof.
  intros Hitem. induction n as [| n IH]; intros p; cbn [read_loop]; [exact I |].
  apply only_RangeError_bind; [apply Hitem |]. intros [x q].
  apply only_RangeError_bind; [apply IH |]. intros [rest q']. exact I.
Qed.

Lemma read_in_error buf p : only_RangeError (read_in buf p).
Proof.
  unfold read_in, readVarString.
  destruct (readBytes buf (Num 32) p) as [h q]. destruct (readAsInt buf 4 q) as [i q'].
  apply only_RangeError_bind.
  - apply only_RangeError_bind; [apply readVarInt_error | by intros []].
  - intros [s q'']. by destruct (readBytes buf (Num 4) q'').
Qed.

Lemma read_out_error buf p : only_RangeError (read_out buf p).
Proof.
  unfold read_out, readVarString. destruct (readBytes buf (Num 8) p) as [v q].
  apply only_RangeError_bind.
  - apply only_RangeError_bind; [apply readVarInt_error | by intros []].
  - by intros [s q''].
Qed.

Lemma deserialize_error buf : only_RangeError (deserialize buf).
Proof.
  unfold deserialize. destruct (readAsInt buf 4 (Num 0)) as [v p].
  apply only_RangeError_bind; [apply readVarInt_error |]. intros [n q].
  apply only_RangeError_bind; [apply read_loop_error, read_in_error |]. intros [di q1].
  apply only_RangeError_bind; [apply readVarInt_error |]. intros [m q2].
  apply only_RangeError_bind; [apply read_loop_error, read_out_error |]. intros [do q3].
  by destruct (readAsInt buf 4 q3).
Qed.

(** ** The codec *)

Example serialize_golden :
  convert.bytesToHex (serialize golden)
  = "010000000101000000000000000000000000000000000000000000000000000000000000000000000000ffffffff0100000000000000000000000000"%string.
Proof. reflexivity. Qed.

Example encode_golden_wire : map Num (Wire.encode golden_wire) = serialize golden.
Proof. reflexivity. Qed.

(** From 65536 on, [readVarInt] reads too few bytes after the prefix: 3
    after 0xFE, where 4 were written. *)
Example readVarInt_0xFE_width :
  convert.numToVarInt 16777216 = map Num [254; 0; 0; 0; 1]
  /\ readVarInt (convert.numToVarInt 16777216) (Num 0) = Ok (Num 0, Num 4).
Proof. split; reflexivity. Qed.

(** C2, where it fails: a transaction of version 0 is read back with
    version 1. *)
Lemma roundtrip_zero_version_counterexample :
  exists tx', deserialize (serialize zero_version_tx) = Ok tx'
              /\ version tx' <> version zero_version_tx.
Proof.
  eexists. split; [vm_compute; reflexivity |]. cbn. discriminate.
Qed.

(** C2, amended: for a transaction whose version is a non-zero 32-bit
    number, whose locktime and indices are 32-bit numbers, whose values are
    integers below 2^53, whose previous hashes are 64 lower-case hexadecimal
    digits, whose sequences are arrays of 4 bytes and whose scripts are
    byte arrays, with counts and script lengths below 65536,
    [deserialize (serialize tx)] returns a transaction with the same
    version, locktime, inputs and outputs. *)
Theorem deserialize_serialize_roundtrip tx :
  tx_ok tx = true ->
  exists tx', deserialize (serialize tx) = Ok tx'
              /\ version tx' = version tx /\ locktime tx' = locktime tx
              /\ ins tx' = ins tx /\ outs tx' = outs tx.
Proof.
  intros H. unfold tx_ok in H.
  apply andb_true_iff in H as [H Hbody]. apply andb_true_iff in H as [Hver Htruthy].
  exists (reread tx). split; [by apply deserialize_serialize |].
  pose proof Hbody as Hb. apply andb_true_iff in Hb as [_ Hlock].
  unfold reread, built. cbn [version locktime ins outs set_hash]. rewrite Htruthy.
  repeat split. destruct (locktime tx) as [z | |]; try discriminate.
  cbn [truthy]. by destruct (Z.eqb_spec z 0) as [-> |].
Qed.

Lemma deserialize_serialize_roundtrip_witness :
  exists tx', deserialize (serialize golden) = Ok tx'
              /\ version tx' = version golden /\ locktime tx' = locktime golden
              /\ ins tx' = ins golden /\ outs tx' = outs golden.
Proof. apply (deserialize_serialize_roundtrip golden). reflexivity. Defined.

(** C3, where it fails: the wire encoding of the empty transaction of
    version 0 is read and written back with version 1. *)
Lemma reserialize_zero_version_counterexample :
  exists tx, deserialize (map Num (Wire.encode zero_version_wire)) = Ok tx
             /\ serialize tx <> map Num (Wire.encode zero_version_wire).
Proof.
  eexists. split; [vm_compute; reflexivity |]. vm_compute. discriminate.
Qed.

(** C3, amended: for the wire encoding [b] (spec 4.1) of a logical
    transaction whose version is a non-zero 32-bit number, with counts and
    script lengths below 65536 and amounts below 2^53, [deserialize b]
    returns a transaction whose serialization is [b]. *)
Theorem serialize_deserialize_wire w :
  Wire.tx_ok w = true ->
  exists tx, deserialize (map Num (Wire.encode w)) = Ok tx
             /\ serialize tx = map Num (Wire.encode w).
Proof.
  intros H. unfold Wire.tx_ok in H.
  apply andb_true_iff in H as [H Hbody]. apply andb_true_iff in H as [H0 H32].
  apply Z.ltb_lt in H0. apply Z.ltb_lt in H32.
  destruct (of_wire_ok w Hbody) as [Hok Hser].
  assert (Hver : uint32 (version (of_wire w)) = true).
  { cbn. apply andb_true_iff. split; [apply Z.leb_le | apply Z.ltb_lt]; lia. }
  exists (reread (of_wire w)). rewrite <- Hser. split.
  - by apply deserialize_serialize.
  - apply serialize_reread.
    + cbn. destruct (Z.eqb_spec (Wire.tx_version w) 0); [lia | reflexivity].
    + by apply andb_true_iff in Hok as [_ ?].
Qed.

Lemma serialize_deserialize_wire_witness :
  exists tx, deserialize (map Num (Wire.encode golden_wire)) = Ok tx
             /\ serialize tx = map Num (Wire.encode golden_wire).
Proof. apply (serialize_deserialize_wire golden_wire). reflexivity. Defined.





(** C5, where it fails: one output whose script length field says 5 with no
    byte left; [deserialize] returns a transaction with an empty script. *)
Lemma deserialize_unchecked_length_counterexample :
  deserialize (map Num [1; 0; 0; 0;  0;  1;  0; 0; 0; 0; 0; 0; 0; 0;  5])
  = Ok (built (Num 1) NaN []
              [ {| out_script := {| buffer := [] |}; value := Num 0 |} ]).
Proof. vm_compute. reflexivity. Qed.

(** C5, amended: [deserialize] checks no bound.  On a well-formed
    serialization cut 1 to 4 bytes short, where the last read of 4 bytes
    exceeds what remains, it returns the transaction with the same version,
    inputs and outputs and with locktime 0; no error is raised. *)
Theorem deserialize_cut_short tx k :
  tx_ok tx = true -> (1 <= k <= 4)%nat ->
  exists tx',
    deserialize (take (length (serialize tx) - k) (serialize tx)) = Ok tx'
    /\ version tx' = version tx /\ ins tx' = ins tx /\ outs tx' = outs tx
    /\ locktime tx' = Num 0.
Proof.
  intros H Hk. unfold tx_ok in H.
  apply andb_true_iff in H as [H Hbody]. apply andb_true_iff in H as [Hver Htruthy].
  apply andb_true_iff in Hbody as [Hitems Hlock].
  destruct (locktime tx) as [lz | |] eqn:Hl; try discriminate.
  set (tail := take (4 - k) (map Num (convert.le_bytes lz 4))).
  assert (Hcut : take (length (serialize tx) - k) (serialize tx)
                 = serialize_head tx ++ tail).
  { rewrite serialize_head_locktime, Hl. cbn [parseInt convert.numToBytes].
    rewrite length_app, length_map, le_bytes_length.
    rewrite take_app_ge by lia. f_equal. unfold tail. f_equal. lia. }
  rewrite Hcut, deserialize_head by assumption.
  rewrite (readAsInt_short _ 4 _ tail (view_end _ _)).
  - eexists. split; [reflexivity |]. unfold built.
    cbn [version locktime ins outs set_hash truthy]. by rewrite Htruthy.
  - unfold tail. rewrite length_take, length_map, le_bytes_length. lia.
Qed.

Lemma deserialize_cut_short_witness :
  exists tx',
    deserialize (take (length (serialize golden) - 2) (serialize golden)) = Ok tx'
    /\ version tx' = version golden /\ ins tx' = ins golden
    /\ outs tx' = outs golden /\ locktime tx' = Num 0.
Proof. apply (deserialize_cut_short golden 2); [reflexivity | lia]. Defined.

(** The only error of [deserialize] is the engine's [RangeError], raised
    when a count is read where the buffer has ended. *)
Lemma deserialize_throws_RangeError_only buf e :
  deserialize buf = Throw e -> e = RangeError.
Proof.
  intros H. pose proof (deserialize_error buf) as He. by rewrite H in He.
Qed.

Example deserialize_missing_count :
  deserialize (map Num [1; 0; 0; 0;  0;  1;  0; 0; 0; 0; 0; 0; 0; 0]) = Throw RangeError.
Proof. reflexivity. Qed.

(** ** The signature hash *)

Lemma clone_fields tx :
  clone tx = {| version := version tx; locktime := locktime tx;
                ins := map TransactionIn_clone (ins tx);
                outs := map TransactionOut_clone (outs tx);
                tx_hash := None |}.
Proof.
  unfold clone. rewrite fold_push_in, fold_push_out. reflexivity.
Qed.

(** C1, at its failing input: with hash type ALL|0x80 = 0x81 the test
    [hashType & SIGHASH_ANYONECANPAY] is [0x81 & 80 = 0], every input is
    serialized, and appending an input changes the digest of input 0. *)
Theorem sighash_0x81_depends_on_other_inputs :
  Z.land 0x81 SIGHASH_ANYONECANPAY = 0
  /\ (exists txTmp, sighash_txTmp two_inputs a_script 0 0x81 = Ok txTmp
                    /\ length (ins txTmp) = 2%nat)
  /\ hashTransactionForSignature golden a_script 0 0x81
     <> hashTransactionForSignature two_inputs a_script 0 0x81.
Proof.
  split; [reflexivity |]. split.
  - eexists. split; [vm_compute; reflexivity | reflexivity].
  - vm_compute. discriminate.
Qed.

(** For every transaction: with hash type 0x81 the clone that is serialized
    keeps as many inputs as the transaction has. *)
Lemma sighash_0x81_keeps_inputs tx connectedScript inIndex txTmp :
  sighash_txTmp tx connectedScript inIndex 0x81 = Ok txTmp ->
  length (ins txTmp) = length (ins tx).
Proof.
  unfold sighash_txTmp. rewrite clone_fields. cbn [set_ins ins].
  change (Z.land 0x81 0x1f =? SIGHASH_NONE) with false.
  change (truthy (Num (Z.land 0x81 SIGHASH_ANYONECANPAY))) with false. cbn iota.
  destruct (_ !! inIndex); [| discriminate].
  destruct (Z.land 0x81 0x1f =? SIGHASH_SINGLE); intros [= <-];
    cbn [set_ins ins]; by rewrite length_insert, !length_map.
Qed.

(** C4, where it fails: with hash type SINGLE a digest is returned. *)
Lemma sighash_single_counterexample :
  exists digest, hashTransactionForSignature golden a_script 0 3 = Ok digest
                 /\ sighash_txTmp golden a_script 0 3 = sighash_txTmp golden a_script 0 1.
Proof. eexists. split; vm_compute; reflexivity. Qed.

(** C4, amended: with a hash type whose low five bits are 3 (SINGLE) no
    error is raised for an input of the transaction: a digest is returned,
    and it is computed over the same modified clone as for a hash type whose
    low five bits are 1 (ALL) and whose test [hashType & 80] is the same;
    the hash type itself is what is appended. *)
Theorem sighash_single_as_all tx connectedScript inIndex hashType hashType' :
  Z.land hashType 0x1f = SIGHASH_SINGLE ->
  Z.land hashType' 0x1f = SIGHASH_ALL ->
  Z.land hashType' SIGHASH_ANYONECANPAY = Z.land hashType SIGHASH_ANYONECANPAY ->
  (inIndex < length (ins tx))%nat ->
  exists txTmp,
    sighash_txTmp tx connectedScript inIndex hashType = Ok txTmp
    /\ sighash_txTmp tx connectedScript inIndex hashType' = Ok txTmp
    /\ hashTransactionForSignature tx connectedScript inIndex hashType
       = Ok (doubleSHA256 (serialize txTmp
                           ++ convert.numToBytes (Num hashType) 4)).
Proof.
  intros Hs Ha Hacp Hi.
  unfold hashTransactionForSignature, sighash_buffer, sighash_txTmp.
  rewrite Hs, Ha, Hacp. change (SIGHASH_SINGLE =? SIGHASH_NONE) with false.
  change (SIGHASH_ALL =? SIGHASH_NONE) with false.
  change (SIGHASH_SINGLE =? SIGHASH_SINGLE) with true.
  change (SIGHASH_ALL =? SIGHASH_SINGLE) with false. cbn iota.
  destruct (_ !! inIndex) as [txin |] eqn:Hin.
  - eexists. repeat split.
  - apply lookup_ge_None in Hin.
    rewrite clone_fields in Hin. cbn [set_ins ins] in Hin.
    rewrite !length_map in Hin. lia.
Qed.

Lemma sighash_single_as_all_witness :
  exists txTmp,
    sighash_txTmp golden a_script 0 3 = Ok txTmp
    /\ sighash_txTmp golden a_script 0 1 = Ok txTmp
    /\ hashTransactionForSignature golden a_script 0 3
       = Ok (doubleSHA256 (serialize txTmp ++ convert.numToBytes (Num 3) 4)).
Proof.
  apply (sighash_single_as_all golden a_script 0 3 1);
    [reflexivity | reflexivity | reflexivity | simpl; lia].
Defined.

(** C6, at its failing input: with hash type NONE the other input gets the
    number 0 as its sequence, and [serialize] writes it as one byte where
    the sequence field has four. *)
Theorem sighash_none_sequence_one_byte :
  exists txTmp,
    sighash_txTmp two_inputs a_script 0 2 = Ok txTmp
    /\ outs txTmp = []
    /\ map sequence (ins txTmp) = [defaultSequence; SeqVal (Num 0)]
    /\ convert.bytesToHex (flat_map serialize_in (ins txTmp))
       = ("010000000000000000000000000000000000000000000000000000000000000000000000"
          ++ "0476a988ac" ++ "ffffffff"
          ++ "020000000000000000000000000000000000000000000000000000000000000003000000"
          ++ "00" ++ "00")%string.
Proof. eexists. split; [vm_compute; reflexivity |]. repeat split. Qed.

(** For every transaction: with hash type NONE the outputs are dropped and
    every input but [inIndex] has the number 0 as its sequence, which
    [serialize] writes as the one element 0. *)
Lemma sighash_none_other_inputs tx connectedScript inIndex txTmp :
  sighash_txTmp tx connectedScript inIndex 2 = Ok txTmp ->
  outs txTmp = []
  /\ length (ins txTmp) = length (ins tx)
  /\ forall j txin,
       ins txTmp !! j = Some txin -> j <> inIndex ->
       sequence txin = SeqVal (Num 0) /\ concat_arg (sequence txin) = [Num 0].
Proof.
  unfold sighash_txTmp. rewrite clone_fields. cbn [set_ins ins].
  change (Z.land 2 0x1f =? SIGHASH_NONE) with true.
  change (truthy (Num (Z.land 2 SIGHASH_ANYONECANPAY))) with false. cbn iota.
  destruct (_ !! inIndex); [| discriminate]. intros [= <-].
  cbn [set_ins set_outs ins outs]. split; [done |]. split.
  - unfold zero_other_sequences. by rewrite length_imap, length_insert, !length_map.
  - intros j txin Hj Hne. unfold zero_other_sequences in Hj.
    rewrite list_lookup_imap in Hj.
    destruct (_ !! j) as [x |]; [| discriminate]. cbn in Hj.
    destruct (Nat.eqb_spec j inIndex); [done |]. by injection Hj as <-.
Qed.

(** C7, at its failing input: a [TransactionIn] built from an outpoint
    object, or from a hash and an index, without a sequence has [undefined]
    as its sequence, not 0xFFFFFFFF ([this.defaultSequence] is a field of
    [Transaction] objects only). *)
Theorem TransactionIn_without_sequence op h i sc :
  sequence (new_TransactionIn (InOutpoint op sc (SeqVal Undefined))) = SeqVal Undefined
  /\ sequence (new_TransactionIn (InHashIndex h i sc (SeqVal Undefined))) = SeqVal Undefined
  /\ SeqVal Undefined <> defaultSequence.
Proof. repeat split. discriminate. Qed.

(** The sibling path: an input added by [addInput] from a hash and an index
    has the sequence 0xFFFFFFFF. *)
Lemma addInput_default_sequence tx h i tx' :
  addInput tx (AddHash h i) = Some tx' ->
  exists txin, ins tx' = ins tx ++ [txin]
               /\ sequence txin = SeqBytes [Num 255; Num 255; Num 255; Num 255].
Proof.
  unfold addInput. destruct (_ <? _); [discriminate |]. intros [= <-].
  eexists. split; reflexivity.
Qed.

(** ** The object store: what an operation leaves alone *)

Lemma frame_refl ins_w txs_w st : frame ins_w txs_w st st.
Proof. by split. Qed.

Lemma frame_trans ins_w txs_w st1 st2 st3 :
  frame ins_w txs_w st1 st2 -> frame ins_w txs_w st2 st3 -> frame ins_w txs_w st1 st3.
Proof.
  intros [] []. split; try (etrans; eassumption); auto.
Qed.

Lemma frame_weaken ins_w txs_w ins_w' txs_w' st st' :
  ins_w ⊆ ins_w' -> txs_w ⊆ txs_w' ->
  frame ins_w txs_w st st' -> frame ins_w' txs_w' st st'.
Proof.
  intros Hi Ht []. split; try assumption.
  - intros l o Hl. apply fr_txins0. intros Hin. apply Hl, Hi, Hin.
  - intros l o Hl. apply fr_txs0. intros Hin. apply Hl, Ht, Hin.
Qed.

Section Frame.

Context {ins_w txs_w : list loc} {st st' : store}.
Hypothesis Hfr : frame ins_w txs_w st st'.

Lemma frame_script l s : snap_script st l = Some s -> snap_script st' l = Some s.
Proof.
  unfold snap_script. intros H.
  destruct (scripts st !! l) as [b |] eqn:Hb; [| discriminate]. cbn in H.
  destruct (arrays st !! b) as [elts |] eqn:He; [| discriminate].
  rewrite (prefix_lookup_Some _ _ _ _ Hb (fr_scripts _ _ _ _ Hfr)). cbn.
  by rewrite (prefix_lookup_Some _ _ _ _ He (fr_arrays _ _ _ _ Hfr)).
Qed.

Lemma frame_sequence q s : snap_sequence st q = Some s -> snap_sequence st' q = Some s.
Proof.
  destruct q as [a | v]; [| done]. cbn.
  destruct (arrays st !! a) as [elts |] eqn:He; [| discriminate].
  by rewrite (prefix_lookup_Some _ _ _ _ He (fr_arrays _ _ _ _ Hfr)).
Qed.

Lemma frame_in l x : l ∉ ins_w -> snap_in st l = Some x -> snap_in st' l = Some x.
Proof.
  unfold snap_in. intros Hl H.
  destruct (txins st !! l) as [o |] eqn:Ho; [| discriminate]. cbn in H.
  destruct (outpoints st !! o_outpoint o) as [op |] eqn:Hop; [| discriminate]. cbn in H.
  destruct (snap_script st (o_script o)) as [sc |] eqn:Hsc; [| discriminate]. cbn in H.
  destruct (snap_sequence st (o_sequence o)) as [sq |] eqn:Hsq; [| discriminate].
  rewrite (fr_txins _ _ _ _ Hfr _ _ Hl Ho). cbn.
  rewrite (prefix_lookup_Some _ _ _ _ Hop (fr_outpoints _ _ _ _ Hfr)). cbn.
  by rewrite (frame_script _ _ Hsc), (frame_sequence _ _ Hsq).
Qed.

Lemma frame_out l y : snap_out st l = Some y -> snap_out st' l = Some y.
Proof.
  unfold snap_out. intros H.
  destruct (txouts st !! l) as [o |] eqn:Ho; [| discriminate]. cbn in H.
  destruct (snap_script st (o_out_script o)) as [sc |] eqn:Hsc; [| discriminate].
  rewrite (prefix_lookup_Some _ _ _ _ Ho (fr_txouts _ _ _ _ Hfr)). cbn.
  by rewrite (frame_script _ _ Hsc).
Qed.

Lemma frame_ins ls xs :
  (forall l, l ∈ ls -> l ∉ ins_w) ->
  Forall2 (fun l x => snap_in st l = Some x) ls xs ->
  Forall2 (fun l x => snap_in st' l = Some x) ls xs.
Proof.
  intros Hls H. induction H as [| l x ls xs Hl H IH]; constructor.
  - apply frame_in; [apply Hls; left | done].
  - apply IH. intros l' Hl'. apply Hls. by right.
Qed.

Lemma frame_outs ls ys :
  Forall2 (fun l y => snap_out st l = Some y) ls ys ->
  Forall2 (fun l y => snap_out st' l = Some y) ls ys.
Proof. intros H. eapply Forall2_impl; [exact H |]. intros. by apply frame_out. Qed.

End Frame.

Lemma frame_add_array st x : frame [] [] st (with_arrays (arrays st ++ [x]) st).
Proof. frame_append. Qed.

Lemma frame_add_outpoint st x : frame [] [] st (with_outpoints (outpoints st ++ [x]) st).
Proof. frame_append. Qed.

Lemma frame_add_txin st x : frame [] [] st (with_txins (txins st ++ [x]) st).
Proof. frame_append. by apply lookup_app_l_Some. Qed.

Lemma frame_add_txout st x : frame [] [] st (with_txouts (txouts st ++ [x]) st).
Proof. frame_append. Qed.

Lemma frame_add_tx st x : frame [] [] st (with_txs (txs st ++ [x]) st).
Proof. frame_append. by apply lookup_app_l_Some. Qed.

Lemma frame_assign_txin st l o : frame [l] [] st (with_txins (<[l := o]> (txins st)) st).
Proof.
  split; cbn; try done. intros l' o' Hl Ho.
  rewrite list_lookup_insert_ne; [done |]. intros ->. apply Hl. by left.
Qed.

Lemma frame_assign_tx st l o : frame [] [l] st (with_txs (<[l := o]> (txs st)) st).
Proof.
  split; cbn; try done. intros l' o' Hl Ho.
  rewrite list_lookup_insert_ne; [done |]. intros ->. apply Hl. by left.
Qed.

Lemma frame_add_script st elts : frame [] [] st (add_script elts st).
Proof. frame_append. Qed.

Lemma snap_add_script st elts :
  snap_script (add_script elts st) (length (scripts st)) = Some {| buffer := elts |}.
Proof.
  unfold snap_script. cbn. rewrite list_lookup_middle by done. cbn.
  by rewrite list_lookup_middle.
Qed.

(** ** Running the operations of the store *)

Lemma run_new_Script st :
  h_new_Script st = (Ok (length (scripts st)), add_script [] st).
Proof. reflexivity. Qed.

Lemma run_Script_clone st l s :
  snap_script st l = Some s ->
  h_Script_clone l st = (Ok (length (scripts st)), add_script (buffer s) st).
Proof.
  unfold snap_script. intros H.
  destruct (scripts st !! l) as [b |] eqn:Hb; [| discriminate]. cbn in H.
  destruct (arrays st !! b) as [elts |] eqn:He; [| discriminate].
  injection H as <-.
  unfold h_Script_clone, mbind, load. rewrite Hb, He. reflexivity.
Qed.

Lemma snap_sequence_or st q s :
  snap_sequence st q = Some s ->
  snap_sequence st (seqref_or q (SeqOther Undefined)) = Some (seq_or s (SeqVal Undefined)).
Proof.
  destruct q as [a | v]; cbn.
  - destruct (arrays st !! a); [| discriminate]. by intros [= <-].
  - intros [= <-]. cbn. by destruct (truthy v).
Qed.

Lemma snap_in_intro st l o op sc sq :
  txins st !! l = Some o ->
  outpoints st !! o_outpoint o = Some op ->
  snap_script st (o_script o) = Some sc ->
  snap_sequence st (o_sequence o) = Some sq ->
  snap_in st l = Some {| outpoint := op; script := sc; sequence := sq |}.
Proof.
  intros H1 H2 H3 H4. unfold snap_in.
  rewrite H1. simpl. rewrite H2. simpl. rewrite H3. simpl. by rewrite H4.
Qed.

Lemma snap_in_inv st l x :
  snap_in st l = Some x ->
  exists o, txins st !! l = Some o
            /\ outpoints st !! o_outpoint o = Some (outpoint x)
            /\ snap_script st (o_script o) = Some (script x)
            /\ snap_sequence st (o_sequence o) = Some (sequence x).
Proof.
  unfold snap_in. intros H.
  destruct (txins st !! l) as [o |] eqn:Ho; [| discriminate]. simpl in H.
  destruct (outpoints st !! o_outpoint o) as [op |] eqn:Hop; [| discriminate]. simpl in H.
  destruct (snap_script st (o_script o)) as [sc |] eqn:Hsc; [| discriminate]. simpl in H.
  destruct (snap_sequence st (o_sequence o)) as [sq |] eqn:Hsq; [| discriminate].
  injection H as <-. by exists o.
Qed.

Lemma snap_out_intro st l o sc :
  txouts st !! l = Some o ->
  snap_script st (o_out_script o) = Some sc ->
  snap_out st l = Some {| out_script := sc; value := o_value o |}.
Proof.
  intros H1 H2. unfold snap_out. rewrite H1. simpl. by rewrite H2.
Qed.

Lemma snap_out_inv st l y :
  snap_out st l = Some y ->
  exists o, txouts st !! l = Some o
            /\ snap_script st (o_out_script o) = Some (out_script y)
            /\ o_value o = value y.
Proof.
  unfold snap_out. intros H.
  destruct (txouts st !! l) as [o |] eqn:Ho; [| discriminate]. simpl in H.
  destruct (snap_script st (o_out_script o)) as [sc |] eqn:Hsc; [| discriminate].
  injection H as <-. by exists o.
Qed.

Lemma shares_sequence_frame txs_w st st' l l' :
  frame [] txs_w st st' -> shares_sequence st l l' -> shares_sequence st' l l'.
Proof.
  intros Hf (o & o' & Ho & Ho' & Hs). exists o, o'.
  split; [| split; [| done]];
    (apply (fr_txins _ _ _ _ Hf); [by intros ?%elem_of_nil | done]).
Qed.

Lemma run_TransactionIn_clone st l x :
  snap_in st l = Some x ->
  exists st',
    h_TransactionIn_clone l st = (Ok (length (txins st)), st')
    /\ frame [] [] st st'
    /\ snap_in st' (length (txins st)) = Some (TransactionIn_clone x)
    /\ shares_sequence st' l (length (txins st)).
Proof.
  intros H. destruct (snap_in_inv _ _ _ H) as (o & Ho & Hop & Hsc & Hsq).
  set (op' := {| hash := hash (outpoint x); index := index (outpoint x) |}).
  set (st1 := with_outpoints (outpoints st ++ [op']) st).
  assert (Hf1 : frame [] [] st st1) by apply frame_add_outpoint.
  pose proof (run_Script_clone st1 (o_script o) _ (frame_script Hf1 _ _ Hsc)) as Hrun.
  assert (Hf2 : frame [] [] st (add_script (buffer (script x)) st1)).
  { eapply frame_trans; [exact Hf1 | apply frame_add_script]. }
  eexists. split; [| split; [| split]].
  - unfold h_TransactionIn_clone, mbind, load. rewrite Ho, Hop.
    unfold alloc at 1. fold op' st1. rewrite Hrun. reflexivity.
  - eapply frame_trans; [exact Hf2 |]. apply frame_add_txin.
  - unfold TransactionIn_clone, new_TransactionIn, Script_clone.
    cbn [data_script data_sequence]. fold op'.
    eapply snap_in_intro.
    + apply (list_lookup_middle (txins st) []). reflexivity.
    + apply (list_lookup_middle (outpoints st) []). reflexivity.
    + apply (snap_add_script st1).
    + apply (snap_sequence_or (add_script (buffer (script x)) st1)).
      apply (frame_sequence Hf2 _ _ Hsq).
  - exists o. eexists. split; [by apply lookup_app_l_Some |].
    split; [apply (list_lookup_middle (txins st) []); reflexivity | reflexivity].
Qed.

Lemma run_TransactionOut_clone st l y :
  snap_out st l = Some y ->
  exists st',
    h_TransactionOut_clone l st = (Ok (length (txouts st)), st')
    /\ frame [] [] st st'
    /\ snap_out st' (length (txouts st)) = Some (TransactionOut_clone y).
Proof.
  intros H. destruct (snap_out_inv _ _ _ H) as (o & Ho & Hsc & Hv).
  pose proof (run_Script_clone st _ _ Hsc) as Hrun1.
  set (st1 := add_script (buffer (out_script y)) st) in *.
  pose proof (run_Script_clone st1 (length (scripts st)) _ (snap_add_script st _)) as Hrun2.
  set (st2 := add_script _ st1) in *.
  eexists. split; [| split].
  - unfold h_TransactionOut_clone, mbind, load. rewrite Ho, Hrun1, Hrun2. reflexivity.
  - eapply frame_trans; [apply (frame_add_script st) |].
    eapply frame_trans; [apply (frame_add_script st1) |]. apply frame_add_txout.
  - unfold TransactionOut_clone, new_TransactionOut, Script_clone.
    cbn [d_script d_value buffer]. rewrite <- Hv.
    eapply (snap_out_intro _ _ {| o_out_script := _; o_value := o_value o |}).
    + apply (list_lookup_middle (txouts st) []). reflexivity.
    + apply (snap_add_script st1).
Qed.

Lemma run_update_tx st l f o :
  txs st !! l = Some o ->
  update_tx l f st = (Ok tt, with_txs (<[l := f o]> (txs st)) st).
Proof. intros H. unfold update_tx, mbind, load. by rewrite H. Qed.

Lemma run_update_in st l f o :
  txins st !! l = Some o ->
  update_in l f st = (Ok tt, with_txins (<[l := f o]> (txins st)) st).
Proof. intros H. unfold update_in, mbind, load. by rewrite H. Qed.

Lemma snap_in_lt st l x : snap_in st l = Some x -> (l < length (txins st))%nat.
Proof.
  intros H. destruct (snap_in_inv _ _ _ H) as (o & Ho & _).
  by apply lookup_lt_Some in Ho.
Qed.

Lemma frame_txins_length txs_w st st' :
  frame [] txs_w st st' -> (length (txins st) <= length (txins st'))%nat.
Proof.
  intros Hf. destruct (txins st) as [| o l] eqn:E using rev_ind; [simpl; lia |].
  clear IHl. assert (Hl : txins st !! length l = Some o)
    by (rewrite E; by apply list_lookup_middle).
  apply (fr_txins _ _ _ _ Hf) in Hl; [| by intros ?%elem_of_nil].
  apply lookup_lt_Some in Hl. rewrite length_app. simpl. lia.
Qed.

Lemma snap_ins_lt st ls xs :
  Forall2 (fun l x => snap_in st l = Some x) ls xs ->
  forall l, l ∈ ls -> (l < length (txins st))%nat.
Proof.
  induction 1 as [| l x ls xs Hl _ IH]; intros l' Hin.
  - by apply elem_of_nil in Hin.
  - apply elem_of_cons in Hin as [-> | Hin]; [by eapply snap_in_lt | by apply IH].
Qed.

(** The first loop of [clone]: the inputs. *)
Lemma run_clone_ins newTx ls :
  forall xs st k acc accx o,
    Forall2 (fun l x => snap_in st l = Some x) ls xs ->
    txs st !! newTx = Some o -> o_ins o = acc ->
    Forall2 (fun l x => snap_in st l = Some x) acc accx ->
    NoDup acc ->
    exists st' new,
      forEach (fun _ txin =>
                 let! c := h_TransactionIn_clone txin in
                 update_tx newTx (fun n => tx_set_ins (o_ins n ++ [c]) n))
              k ls st = (Ok tt, st')
      /\ frame [] [newTx] st st'
      /\ txs st' !! newTx = Some (tx_set_ins (acc ++ new) o)
      /\ Forall2 (fun l x => snap_in st' l = Some x)
                 (acc ++ new) (accx ++ map TransactionIn_clone xs)
      /\ NoDup (acc ++ new)
      /\ Forall (fun l => (length (txins st) <= l)%nat) new
      /\ Forall2 (shares_sequence st') ls new.
Proof.
  induction ls as [| l ls IH]; intros xs st k acc accx o HF Hnew Hacc Haccx Hnd.
  - apply Forall2_nil_inv_l in HF as ->. exists st, [].
    rewrite !app_nil_r. repeat split; try done.
    rewrite Hnew. f_equal. destruct o. cbn in *. by subst.
  - apply Forall2_cons_inv_l in HF as (x & xs' & Hx & HF & ->).
    destruct (run_TransactionIn_clone st l x Hx) as (st1 & Hrun & Hf1 & Hc & Hsh).
    set (c := length (txins st)) in *.
    assert (Hnew1 : txs st1 !! newTx = Some o)
      by (apply (fr_txs _ _ _ _ Hf1); [by intros ?%elem_of_nil | done]).
    pose proof (run_update_tx st1 newTx (fun n => tx_set_ins (o_ins n ++ [c]) n) o Hnew1)
      as Hupd.
    set (st2 := with_txs _ st1) in Hupd.
    assert (Hf2 : frame [] [newTx] st1 st2) by apply frame_assign_tx.
    assert (Hf : frame [] [newTx] st st2).
    { eapply frame_trans; [| exact Hf2].
      eapply frame_weaken; [| | exact Hf1]; [done | by intros ? ?%elem_of_nil]. }
    destruct (IH xs' st2 (S k) (acc ++ [c]) (accx ++ [TransactionIn_clone x])
                (tx_set_ins (o_ins o ++ [c]) o))
      as (st' & new & Hrun' & Hf' & Htx & HF2 & Hnd' & Hfresh & Hshares).
    + apply (frame_ins Hf); [by intros ? _ ?%elem_of_nil | done].
    + apply list_lookup_insert_eq. by apply lookup_lt_Some in Hnew1.
    + cbn. by rewrite Hacc.
    + apply Forall2_app.
      * apply (frame_ins Hf); [by intros ? _ ?%elem_of_nil | done].
      * constructor; [| constructor].
        apply (frame_in Hf2); [by intros ?%elem_of_nil | done].
    + apply NoDup_app. split; [done |]. split; [| apply NoDup_singleton].
      intros l' Hl' ->%list_elem_of_singleton.
      pose proof (snap_ins_lt _ _ _ Haccx _ Hl'). unfold c in *. lia.
    + exists st', (c :: new).
      split; [| split; [| split; [| split; [| split; [| split]]]]].
      * cbn [forEach]. unfold mbind at 1. unfold mbind at 1. rewrite Hrun, Hupd.
        exact Hrun'.
      * eapply frame_trans; [exact Hf | exact Hf'].
      * rewrite Htx. rewrite <- app_assoc. reflexivity.
      * rewrite <- !app_assoc in HF2. exact HF2.
      * rewrite <- app_assoc in Hnd'. exact Hnd'.
      * constructor; [done |]. eapply Forall_impl; [exact Hfresh |].
        intros l' Hl'. cbn in Hl'.
        pose proof (frame_txins_length _ _ _ Hf). cbn in *. lia.
      * constructor; [| exact Hshares].
        eapply shares_sequence_frame; [exact Hf' |].
        eapply shares_sequence_frame; [exact Hf2 | exact Hsh].
Qed.

(** The second loop of [clone]: the outputs. *)
Lemma run_clone_outs newTx ls :
  forall ys st k acc accy o,
    Forall2 (fun l y => snap_out st l = Some y) ls ys ->
    txs st !! newTx = Some o -> o_outs o = acc ->
    Forall2 (fun l y => snap_out st l = Some y) acc accy ->
    exists st' new,
      forEach (fun _ txout =>
                 let! c := h_TransactionOut_clone txout in
                 update_tx newTx (fun n => tx_set_outs (o_outs n ++ [c]) n))
              k ls st = (Ok tt, st')
      /\ frame [] [newTx] st st'
      /\ txs st' !! newTx = Some (tx_set_outs (acc ++ new) o)
      /\ Forall2 (fun l y => snap_out st' l = Some y)
                 (acc ++ new) (accy ++ map TransactionOut_clone ys).
Proof.
  induction ls as [| l ls IH]; intros ys st k acc accy o HF Hnew Hacc Haccy.
  - apply Forall2_nil_inv_l in HF as ->. exists st, [].
    rewrite !app_nil_r. repeat split; try done.
    rewrite Hnew. f_equal. destruct o. cbn in *. by subst.
  - apply Forall2_cons_inv_l in HF as (y & ys' & Hy & HF & ->).
    destruct (run_TransactionOut_clone st l y Hy) as (st1 & Hrun & Hf1 & Hc).
    set (c := length (txouts st)) in *.
    assert (Hnew1 : txs st1 !! newTx = Some o)
      by (apply (fr_txs _ _ _ _ Hf1); [by intros ?%elem_of_nil | done]).
    pose proof (run_update_tx st1 newTx (fun n => tx_set_outs (o_outs n ++ [c]) n) o Hnew1)
      as Hupd.
    set (st2 := with_txs _ st1) in Hupd.
    assert (Hf2 : frame [] [newTx] st1 st2) by apply frame_assign_tx.
    assert (Hf : frame [] [newTx] st st2).
    { eapply frame_trans; [| exact Hf2].
      eapply frame_weaken; [| | exact Hf1]; [done | by intros ? ?%elem_of_nil]. }
    destruct (IH ys' st2 (S k) (acc ++ [c]) (accy ++ [TransactionOut_clone y])
                (tx_set_outs (o_outs o ++ [c]) o)) as (st' & new & Hrun' & Hf' & Htx & HF2).
    + apply (frame_outs Hf), HF.
    + apply list_lookup_insert_eq. by apply lookup_lt_Some in Hnew1.
    + cbn. by rewrite Hacc.
    + apply Forall2_app; [apply (frame_outs Hf), Haccy |].
      constructor; [| constructor]. apply (frame_out Hf2), Hc.
    + exists st', (c :: new). split; [| split; [| split]].
      * cbn [forEach]. unfold mbind at 1. unfold mbind at 1. rewrite Hrun, Hupd.
        exact Hrun'.
      * eapply frame_trans; [exact Hf | exact Hf'].
      * rewrite Htx. rewrite <- app_assoc. reflexivity.
      * rewrite <- !app_assoc in HF2. exact HF2.
Qed.

Lemma snap_tx_inv st l t :
  snap_tx st l = Some t ->
  exists o, txs st !! l = Some o
            /\ o_version o = version t /\ o_locktime o = locktime t
            /\ Forall2 (fun l x => snap_in st l = Some x) (o_ins o) (ins t)
            /\ Forall2 (fun l y => snap_out st l = Some y) (o_outs o) (outs t)
            /\ snap_hash st (o_hash o) = Some (tx_hash t).
Proof.
  unfold snap_tx. intros H.
  destruct (txs st !! l) as [o |] eqn:Ho; [| discriminate]. simpl in H.
  destruct (mapM (snap_in st) (o_ins o)) as [i |] eqn:Hi; [| discriminate]. simpl in H.
  destruct (mapM (snap_out st) (o_outs o)) as [u |] eqn:Hu; [| discriminate]. simpl in H.
  destruct (snap_hash st (o_hash o)) as [h |] eqn:Hh; [| discriminate].
  injection H as <-. exists o. cbn.
  apply mapM_Some in Hi. apply mapM_Some in Hu. by repeat split.
Qed.

Lemma snap_tx_intro st l o xs ys h :
  txs st !! l = Some o ->
  Forall2 (fun l x => snap_in st l = Some x) (o_ins o) xs ->
  Forall2 (fun l y => snap_out st l = Some y) (o_outs o) ys ->
  snap_hash st (o_hash o) = Some h ->
  snap_tx st l = Some {| version := o_version o; locktime := o_locktime o;
                         ins := xs; outs := ys; tx_hash := h |}.
Proof.
  intros Ho Hi Hu Hh. unfold snap_tx. rewrite Ho. simpl.
  apply mapM_Some in Hi. apply mapM_Some in Hu. rewrite Hi. simpl. rewrite Hu. simpl.
  by rewrite Hh.
Qed.

(** Objects that did not exist cannot have been assigned to. *)
Lemma frame_fresh ins_w txs_w st st' :
  frame ins_w txs_w st st' ->
  Forall (fun l => (length (txins st) <= l)%nat) ins_w ->
  Forall (fun l => (length (txs st) <= l)%nat) txs_w ->
  frame [] [] st st'.
Proof.
  intros [] Hi Ht. split; try assumption.
  - intros l o _ Ho. apply fr_txins0; [| done].
    intros Hin. rewrite Forall_forall in Hi. apply Hi in Hin.
    apply lookup_lt_Some in Ho. lia.
  - intros l o _ Ho. apply fr_txs0; [| done].
    intros Hin. rewrite Forall_forall in Ht. apply Ht in Hin.
    apply lookup_lt_Some in Ho. lia.
Qed.

Lemma frame_tx {ins_w txs_w st st'} (Hf : frame ins_w txs_w st st') l t :
  Forall (fun l => (length (txins st) <= l)%nat) ins_w ->
  Forall (fun l => (length (txs st) <= l)%nat) txs_w ->
  snap_tx st l = Some t -> snap_tx st' l = Some t.
Proof.
  intros Hi Ht H. pose proof (frame_fresh _ _ _ _ Hf Hi Ht) as Hf0.
  destruct (snap_tx_inv _ _ _ H) as (o & Ho & Hv & Hl & Hins & Houts & Hh).
  destruct t as [v lt xs ys h]. cbn in *. subst v lt.
  apply snap_tx_intro.
  - apply (fr_txs _ _ _ _ Hf0); [by intros ?%elem_of_nil | done].
  - apply (frame_ins Hf0); [by intros ? _ ?%elem_of_nil | done].
  - apply (frame_outs Hf0), Houts.
  - destruct (o_hash o) as [a |]; [| done]. cbn in *.
    destruct (arrays st !! a) as [e |] eqn:He; [| discriminate].
    by rewrite (prefix_lookup_Some _ _ _ _ He (fr_arrays _ _ _ _ Hf0)).
Qed.

Lemma mbind_run {A B : Type} (m : M A) (k : A -> M B) st a st' :
  m st = (Ok a, st') -> mbind m k st = k a st'.
Proof. intros H. unfold mbind. by rewrite H. Qed.

Lemma mbind_throw {A B : Type} (m : M A) (k : A -> M B) st e st' :
  m st = (Throw e, st') -> mbind m k st = (Throw e, st').
Proof. intros H. unfold mbind. by rewrite H. Qed.

Lemma run_load {A : Type} (table : store -> list A) l st x :
  table st !! l = Some x -> load table l st = (Ok x, st).
Proof. intros H. unfold load. by rewrite H. Qed.

(** [clone] returns a new transaction whose inputs and outputs are new
    objects that read as the clones of those of [this]; nothing that
    existed is assigned to. *)
Lemma run_clone st this t :
  snap_tx st this = Some t ->
  exists st' o',
    h_clone this st = (Ok (length (txs st)), st')
    /\ frame [] [] st st'
    /\ txs st' !! length (txs st) = Some o'
    /\ o_version o' = version t /\ o_locktime o' = locktime t /\ o_hash o' = None
    /\ Forall2 (fun l x => snap_in st' l = Some x)
               (o_ins o') (map TransactionIn_clone (ins t))
    /\ Forall2 (fun l y => snap_out st' l = Some y)
               (o_outs o') (map TransactionOut_clone (outs t))
    /\ NoDup (o_ins o')
    /\ Forall (fun l => (length (txins st) <= l)%nat) (o_ins o')
    /\ exists o, txs st !! this = Some o
                 /\ Forall2 (shares_sequence st') (o_ins o) (o_ins o').
Proof.
  intros H. destruct (snap_tx_inv _ _ _ H) as (o & Ho & Hv & Hl & Hins & Houts & _).
  set (newTx := length (txs st)).
  set (o0 := {| o_version := Num 1; o_locktime := Num 0; o_ins := []; o_outs := [];
                o_defaultSequence := length (arrays st); o_hash := None |}).
  set (st_a := with_txs (txs st ++ [o0])
                 (with_arrays (arrays st ++ [[Num 255; Num 255; Num 255; Num 255]]) st)).
  assert (Hfa : frame [] [newTx] st st_a).
  { eapply frame_weaken with (ins_w := []) (txs_w := []);
      [done | by intros ? ?%elem_of_nil |].
    eapply frame_trans;
      [apply frame_add_array | apply (frame_add_tx (with_arrays _ st))]. }
  assert (Hnew_a : txs st_a !! newTx = Some o0) by (by apply list_lookup_middle).
  assert (Hthis_a : txs st_a !! this = Some o) by (by apply lookup_app_l_Some).
  pose proof (run_update_tx st_a newTx (tx_set_version (o_version o)) o0 Hnew_a) as Hupd1.
  set (st_b := with_txs _ st_a) in Hupd1.
  assert (Hnew_b : txs st_b !! newTx = Some (tx_set_version (o_version o) o0)).
  { apply list_lookup_insert_eq. by apply lookup_lt_Some in Hnew_a. }
  pose proof (run_update_tx st_b newTx (tx_set_locktime (o_locktime o)) _ Hnew_b) as Hupd2.
  set (st_c := with_txs _ st_b) in Hupd2.
  set (o2 := tx_set_locktime (o_locktime o) (tx_set_version (o_version o) o0)) in *.
  assert (Hnew_c : txs st_c !! newTx = Some o2).
  { apply list_lookup_insert_eq. by apply lookup_lt_Some in Hnew_b. }
  assert (Hfc : frame [] [newTx] st st_c).
  { eapply frame_trans; [exact Hfa |].
    eapply frame_trans; [apply (frame_assign_tx st_a) | apply (frame_assign_tx st_b)]. }
  destruct (run_clone_ins newTx (o_ins o) (ins t) st_c 0%nat [] [] o2)
    as (st_d & ls & Hrun_i & Hfd & Hnew_d & Hsnap_i & Hnd & Hfresh & Hshares); try done.
  { apply (frame_ins Hfc); [by intros ? _ ?%elem_of_nil | done]. }
  { apply NoDup_nil_2. }
  destruct (run_clone_outs newTx (o_outs o) (outs t) st_d 0%nat [] [] (tx_set_ins ls o2))
    as (st_e & os & Hrun_o & Hfe & Hnew_e & Hsnap_o); try done.
  { apply (frame_outs Hfd), (frame_outs Hfc), Houts. }
  exists st_e, (tx_set_outs os (tx_set_ins ls o2)).
  split; [| split; [| split; [| split; [| split; [| split; [| split;
    [| split; [| split; [| split]]]]]]]]]; try done.
  - unfold h_clone.
    erewrite mbind_run by reflexivity. fold o0 st_a newTx.
    erewrite mbind_run by (apply run_load, Hthis_a).
    erewrite mbind_run by exact Hupd1.
    erewrite mbind_run by exact Hupd2.
    erewrite mbind_run by exact Hrun_i.
    erewrite mbind_run by exact Hrun_o.
    reflexivity.
  - eapply frame_fresh.
    + eapply frame_trans; [exact Hfc |]. eapply frame_trans; [exact Hfd | exact Hfe].
    + constructor.
    + constructor; [done | constructor].
  - apply (frame_ins Hfe); [by intros ? _ ?%elem_of_nil | done].
  - exists o. split; [done |]. cbn [o_ins tx_set_outs tx_set_ins].
    eapply Forall2_impl; [exact Hshares |].
    intros l l' Hsh. eapply shares_sequence_frame; [exact Hfe | exact Hsh].
Qed.

(** ** The loops over the inputs of the clone *)

(** A loop that assigns to each input in turn: when a turn on the input [l]
    makes it read as [g i x] and assigns to nothing else, the loop over
    distinct inputs makes each read as [g] of what it read as. *)
Lemma run_forEach_ins (body : nat -> nat -> M unit)
      (g : nat -> TransactionIn -> TransactionIn) :
  (forall i l st x,
      snap_in st l = Some x ->
      exists st', body i l st = (Ok tt, st') /\ frame [l] [] st st'
                  /\ snap_in st' l = Some (g i x)) ->
  forall ls xs k st,
    NoDup ls ->
    Forall2 (fun l x => snap_in st l = Some x) ls xs ->
    exists st',
      forEach body k ls st = (Ok tt, st')
      /\ frame ls [] st st'
      /\ Forall2 (fun l x => snap_in st' l = Some x) ls (imap (fun j => g (k + j)%nat) xs).
Proof.
  intros Hbody ls. induction ls as [| l ls IH]; intros xs k st Hnd HF.
  - apply Forall2_nil_inv_l in HF as ->. exists st.
    repeat split; try done.
  - apply Forall2_cons_inv_l in HF as (x & xs' & Hx & HF & ->).
    apply NoDup_cons in Hnd as [Hl Hnd].
    destruct (Hbody k l st x Hx) as (st1 & Hrun & Hf1 & Hx1).
    destruct (IH xs' (S k) st1 Hnd) as (st' & Hrun' & Hf' & HF').
    { apply (frame_ins Hf1); [| done].
      intros l' Hl' ->%list_elem_of_singleton. done. }
    exists st'. split; [| split].
    + cbn [forEach]. erewrite mbind_run by exact Hrun. exact Hrun'.
    + eapply frame_trans.
      * eapply frame_weaken; [| | exact Hf1]; [| done].
        intros ? ->%list_elem_of_singleton. by left.
      * eapply frame_weaken; [| | exact Hf']; [| done].
        intros ? ?. by right.
    + rewrite imap_cons. constructor.
      * rewrite Nat.add_0_r. by apply (frame_in Hf').
      * erewrite imap_ext; [exact HF' |]. intros j y _. cbn. f_equal. lia.
Qed.

Lemma run_set_script st l x cs s :
  snap_in st l = Some x -> snap_script st cs = Some s ->
  exists st',
    update_in l (in_set_script cs) st = (Ok tt, st')
    /\ frame [l] [] st st'
    /\ snap_in st' l = Some (set_script x s).
Proof.
  intros Hx Hs. destruct (snap_in_inv _ _ _ Hx) as (o & Ho & Hop & Hsc & Hsq).
  eexists. split; [apply (run_update_in _ _ _ _ Ho) |].
  split; [apply frame_assign_txin |].
  eapply (snap_in_intro _ _ (in_set_script cs o)); try done.
  apply list_lookup_insert_eq. by apply lookup_lt_Some in Ho.
Qed.

Lemma run_set_sequence st l x v :
  snap_in st l = Some x ->
  exists st',
    update_in l (in_set_sequence (SeqOther v)) st = (Ok tt, st')
    /\ frame [l] [] st st'
    /\ snap_in st' l = Some (set_sequence x (SeqVal v)).
Proof.
  intros Hx. destruct (snap_in_inv _ _ _ Hx) as (o & Ho & Hop & Hsc & Hsq).
  eexists. split; [apply (run_update_in _ _ _ _ Ho) |].
  split; [apply frame_assign_txin |].
  eapply (snap_in_intro _ _ (in_set_sequence (SeqOther v) o)); try done.
  apply list_lookup_insert_eq. by apply lookup_lt_Some in Ho.
Qed.

Lemma run_blank_script st l x :
  snap_in st l = Some x ->
  exists st',
    (let! s := h_new_Script in update_in l (in_set_script s)) st = (Ok tt, st')
    /\ frame [l] [] st st'
    /\ snap_in st' l = Some (set_script x (new_Script None)).
Proof.
  intros Hx.
  assert (Hf : frame [] [] st (add_script [] st)) by apply frame_add_script.
  destruct (run_set_script (add_script [] st) l x (length (scripts st)) {| buffer := [] |})
    as (st' & Hrun & Hf' & Hx').
  { apply (frame_in Hf); [by intros ?%elem_of_nil | done]. }
  { apply snap_add_script. }
  exists st'. split; [| split; [| done]].
  - erewrite mbind_run by apply run_new_Script. exact Hrun.
  - eapply frame_trans; [| exact Hf'].
    eapply frame_weaken; [| | exact Hf]; [by intros ? ?%elem_of_nil | done].
Qed.

(** ** The clone being changed *)

Lemma imap_constant {A B : Type} (f : A -> B) (l : list A) :
  imap (fun _ => f) l = map f l.
Proof. induction l as [| x l IH]; [done |]. rewrite imap_cons. cbn. by rewrite <- IH. Qed.

Lemma tx_state_inputs_kept st st' txTmp ls tm xs :
  tx_state st txTmp ls tm ->
  frame ls [] st st' ->
  Forall2 (fun l x => snap_in st' l = Some x) ls xs ->
  tx_state st' txTmp ls (set_ins tm xs).
Proof.
  intros (o & Ho & Hv & Hl & Hh & Hh' & Hi & Hins & Houts) Hf HF.
  exists o. repeat split; try done.
  - apply (fr_txs _ _ _ _ Hf); [by intros ?%elem_of_nil | done].
  - apply (frame_outs Hf), Houts.
Qed.

Lemma phase_blank st txTmp ls tm :
  tx_state st txTmp ls tm -> NoDup ls ->
  exists st',
    forEach (fun _ txin => let! s := h_new_Script in update_in txin (in_set_script s))
            0 ls st = (Ok tt, st')
    /\ frame ls [] st st'
    /\ tx_state st' txTmp ls
                (set_ins tm (map (fun txin => set_script txin (new_Script None)) (ins tm))).
Proof.
  intros Hst Hnd.
  destruct (run_forEach_ins
              (fun _ txin => let! s := h_new_Script in update_in txin (in_set_script s))
              (fun _ x => set_script x (new_Script None))
              (fun _ l st x => run_blank_script st l x)
              ls (ins tm) 0%nat st Hnd) as (st' & Hrun & Hf & HF).
  { by destruct Hst as (o & _ & _ & _ & _ & _ & _ & Hins & _). }
  exists st'. split; [done |]. split; [done |].
  rewrite imap_constant in HF. by eapply tx_state_inputs_kept.
Qed.

Lemma phase_script st txTmp ls tm i txin cs s :
  tx_state st txTmp ls tm -> NoDup ls ->
  ins tm !! i = Some txin -> snap_script st cs = Some s ->
  exists st',
    match ls !! i with
    | Some l => update_in l (in_set_script cs)
    | None => throw TypeError
    end st = (Ok tt, st')
    /\ frame ls [] st st'
    /\ tx_state st' txTmp ls (set_ins tm (<[i := set_script txin s]> (ins tm))).
Proof.
  intros Hst Hnd Hi Hs.
  pose proof Hst as (o & _ & _ & _ & _ & _ & _ & Hins & _).
  destruct (Forall2_lookup_r _ _ _ _ _ Hins Hi) as (l & Hl & Hx).
  destruct (run_set_script st l txin cs s Hx Hs) as (st' & Hrun & Hf & Hx').
  assert (Hf' : frame ls [] st st').
  { eapply frame_weaken; [| | exact Hf]; [| done].
    intros ? ->%list_elem_of_singleton. by eapply list_elem_of_lookup_2. }
  exists st'. rewrite Hl. split; [done |]. split; [done |].
  eapply tx_state_inputs_kept; [done | done |].
  apply Forall2_same_length_lookup. split.
  - rewrite length_insert. by eapply Forall2_length.
  - intros j l' x' Hl' Hx''.
    destruct (decide (j = i)) as [-> | Hne].
    + rewrite list_lookup_insert_eq in Hx'' by (by eapply lookup_lt_Some).
      rewrite Hl in Hl'. by simplify_eq.
    + rewrite list_lookup_insert_ne in Hx'' by done.
      apply (frame_in Hf).
      * intros ->%list_elem_of_singleton.
        apply Hne. exact (NoDup_lookup _ _ _ _ Hnd Hl' Hl).
      * eapply (Forall2_lookup_lr (fun l x => snap_in st l = Some x));
          [exact Hins | exact Hl' | exact Hx''].
Qed.

Lemma phase_none st txTmp ls tm i :
  tx_state st txTmp ls tm -> NoDup ls ->
  exists st',
    (let! _ := update_tx txTmp (tx_set_outs []) in
     let! t := load txs txTmp in
     forEach (fun j txin =>
                if Nat.eqb j i then ret tt
                else update_in txin (in_set_sequence (SeqOther (Num 0))))
             0 (o_ins t)) st = (Ok tt, st')
    /\ frame ls [txTmp] st st'
    /\ tx_state st' txTmp ls
                (set_ins (set_outs tm []) (zero_other_sequences i (ins (set_outs tm [])))).
Proof.
  intros (o & Ho & Hv & Hl & Hh & Hh' & Hi & Hins & Houts) Hnd.
  pose proof (run_update_tx st txTmp (tx_set_outs []) o Ho) as Hupd.
  set (st1 := with_txs _ st) in Hupd.
  assert (Ho1 : txs st1 !! txTmp = Some (tx_set_outs [] o)).
  { apply list_lookup_insert_eq. by apply lookup_lt_Some in Ho. }
  assert (Hf1 : frame [] [txTmp] st st1) by apply frame_assign_tx.
  destruct (run_forEach_ins
              (fun j txin => if Nat.eqb j i then ret tt
                             else update_in txin (in_set_sequence (SeqOther (Num 0))))
              (fun j x => if Nat.eqb j i then x else set_sequence x (SeqVal (Num 0))))
    with (ls := ls) (xs := ins tm) (k := 0%nat) (st := st1)
    as (st' & Hrun & Hf & HF); try done.
  { intros j l st0 x Hx. destruct (Nat.eqb j i).
    - exists st0. repeat split; try done.
    - by apply run_set_sequence. }
  exists st'. split; [| split].
  - erewrite mbind_run by exact Hupd.
    erewrite mbind_run by (apply run_load, Ho1).
    cbn [o_ins tx_set_outs]. rewrite Hi. exact Hrun.
  - eapply frame_trans.
    + eapply frame_weaken; [| | exact Hf1]; [by intros ? ?%elem_of_nil | done].
    + eapply frame_weaken; [| | exact Hf]; [done | by intros ? ?%elem_of_nil].
  - exists (tx_set_outs [] o). repeat split; try done.
    apply (fr_txs _ _ _ _ Hf); [by intros ?%elem_of_nil | done].
Qed.

Lemma phase_anyonecanpay st txTmp ls tm i :
  tx_state st txTmp ls tm ->
  exists st',
    (let! t := load txs txTmp in
     update_tx txTmp (tx_set_ins (option_list (o_ins t !! i)))) st = (Ok tt, st')
    /\ frame [] [txTmp] st st'
    /\ tx_state st' txTmp (option_list (ls !! i))
                (set_ins tm (option_list (ins tm !! i))).
Proof.
  intros (o & Ho & Hv & Hl & Hh & Hh' & Hi & Hins & Houts). subst ls.
  pose proof (run_update_tx st txTmp (tx_set_ins (option_list (o_ins o !! i))) o Ho) as Hupd.
  set (st1 := with_txs _ st) in Hupd.
  exists st1. split; [| split].
  - erewrite mbind_run by (apply run_load, Ho). exact Hupd.
  - apply frame_assign_tx.
  - exists (tx_set_ins (option_list (o_ins o !! i)) o).
    repeat split; try done.
    + apply list_lookup_insert_eq. by apply lookup_lt_Some in Ho.
    + cbn [set_ins ins].
      destruct (o_ins o !! i) as [l |] eqn:El.
      * destruct (Forall2_lookup_l _ _ _ _ _ Hins El) as (x & -> & Hx).
        constructor; [done | constructor].
      * apply lookup_ge_None in El. rewrite (Forall2_length _ _ _ Hins) in El.
        apply lookup_ge_None in El. rewrite El. constructor.
Qed.

Lemma phase_serialize st txTmp ls tm :
  tx_state st txTmp ls tm ->
  h_serialize txTmp st = (Ok (serialize tm), st).
Proof.
  intros (o & Ho & Hv & Hl & Hh & Hh' & Hi & Hins & Houts). subst ls.
  unfold h_serialize.
  rewrite (snap_tx_intro st txTmp o (ins tm) (outs tm) None Ho Hins Houts)
    by (by rewrite Hh).
  rewrite Hv, Hl. destruct tm. cbn in *. by subst.
Qed.

(** ** [hashTransactionForSignature] on the store *)

Lemma frame_widen ins_w txs_w ls txTmp st st' :
  frame ins_w txs_w st st' ->
  ins_w ⊆ ls -> txs_w ⊆ [txTmp] ->
  frame ls [txTmp] st st'.
Proof. intros Hf Hi Ht. by eapply frame_weaken. Qed.

(** On a store where [this] reads as [tx] and [connectedScript] as [s], the
    call has the result of the function on values, and assigns to nothing
    that existed before. *)
Lemma run_hashTransactionForSignature st this cs inIndex hashType tx s :
  snap_tx st this = Some tx -> snap_script st cs = Some s ->
  exists st',
    h_hashTransactionForSignature this cs inIndex hashType st
    = (hashTransactionForSignature tx s inIndex hashType, st')
    /\ frame [] [] st st'.
Proof.
  intros Htx Hs.
  destruct (run_clone st this tx Htx)
    as (st1 & o' & Hclone & Hf1 & Ho' & Hv & Hl & Hh & Hins & Houts & Hnd & Hfresh & _).
  set (txTmp := length (txs st)) in *. set (ls := o_ins o') in *.
  assert (Hst1 : tx_state st1 txTmp ls (clone tx)).
  { exists o'. rewrite clone_fields. by repeat split. }
  assert (Hfresh_tx : Forall (fun l => (length (txs st) <= l)%nat) [txTmp])
    by (constructor; [done | constructor]).
  assert (Hclose : forall st', frame ls [txTmp] st1 st' -> frame [] [] st st').
  { intros st' Hf. eapply (frame_fresh ls [txTmp]); [| done | done].
    eapply frame_trans; [| exact Hf].
    eapply frame_widen; [exact Hf1 | |]; by intros ? ?%elem_of_nil. }
  destruct (phase_blank _ _ _ _ Hst1 Hnd) as (st2 & Hblank & Hf2 & Hst2).
  set (tm2 := set_ins (clone tx) _) in Hst2.
  assert (Hs2 : snap_script st2 cs = Some s).
  { apply (frame_script Hf2), (frame_script Hf1), Hs. }
  pose proof Hst2 as (o2 & Ho2 & _ & _ & _ & _ & Hi2 & Hins2 & _).
  unfold h_hashTransactionForSignature.
  erewrite mbind_run by exact Hclone.
  erewrite mbind_run by (apply run_load, Ho'). fold ls.
  erewrite mbind_run by exact Hblank.
  erewrite mbind_run by (apply run_load, Ho2). rewrite Hi2.
  unfold hashTransactionForSignature, sighash_buffer, sighash_txTmp. fold tm2.
  destruct (ins tm2 !! inIndex) as [txin |] eqn:Hin.
  - destruct (phase_script _ _ _ _ _ _ _ _ Hst2 Hnd Hin Hs2) as (st3 & Hrun3 & Hf3 & Hst3).
    set (tm3 := set_ins tm2 _) in *.
    erewrite mbind_run by exact Hrun3.
    assert (Hf13 : frame ls [txTmp] st1 st3).
    { eapply frame_trans; (eapply frame_widen; [eassumption | done |]);
        by intros ? ?%elem_of_nil. }
    assert (Hnone : exists st4 tm4,
               (if Z.land hashType 31 =? SIGHASH_NONE
                then let! _ := update_tx txTmp (tx_set_outs []) in
                     let! t := load txs txTmp in
                     forEach (fun i txin =>
                                if Nat.eqb i inIndex then ret tt
                                else update_in txin (in_set_sequence (SeqOther (Num 0))))
                             0 (o_ins t)
                else ret tt) st3 = (Ok tt, st4)
               /\ frame ls [txTmp] st1 st4 /\ tx_state st4 txTmp ls tm4
               /\ tm4 = (if Z.land hashType 31 =? SIGHASH_NONE
                         then set_ins (set_outs tm3 [])
                                      (zero_other_sequences inIndex (ins (set_outs tm3 [])))
                         else if Z.land hashType 31 =? SIGHASH_SINGLE then tm3 else tm3)).
    { destruct (Z.land hashType 31 =? SIGHASH_NONE).
      - destruct (phase_none _ _ _ _ inIndex Hst3 Hnd) as (st4 & Hrun4 & Hf4 & Hst4).
        exists st4. eexists. split; [exact Hrun4 |]. split; [| split; [exact Hst4 | done]].
        eapply frame_trans; [exact Hf13 | exact Hf4].
      - exists st3, tm3. split; [reflexivity |]. split; [exact Hf13 |].
        split; [exact Hst3 |]. by destruct (Z.land hashType 31 =? SIGHASH_SINGLE). }
    destruct Hnone as (st4 & tm4 & Hrun4 & Hf14 & Hst4 & Htm4).
    change 0x1f with 31. erewrite mbind_run by exact Hrun4. rewrite <- Htm4.
    clear Htm4.
    destruct (truthy (Num (Z.land hashType SIGHASH_ANYONECANPAY))).
    + destruct (phase_anyonecanpay _ _ _ _ inIndex Hst4) as (st5 & Hrun5 & Hf5 & Hst5).
      erewrite mbind_run by exact Hrun5.
      erewrite mbind_run by (eapply phase_serialize, Hst5).
      eexists. split; [reflexivity |]. apply Hclose.
      eapply frame_trans; [exact Hf14 |].
      eapply frame_widen; [exact Hf5 | by intros ? ?%elem_of_nil | done].
    + erewrite mbind_run by reflexivity.
      erewrite mbind_run by (eapply phase_serialize, Hst4).
      eexists. split; [reflexivity |]. by apply Hclose.
  - assert (Hnone : ls !! inIndex = None).
    { apply lookup_ge_None. rewrite (Forall2_length _ _ _ Hins2).
      by apply lookup_ge_None. }
    rewrite Hnone. erewrite mbind_throw by reflexivity.
    eexists. split; [reflexivity |]. apply Hclose.
    eapply frame_widen; [exact Hf2 | done | by intros ? ?%elem_of_nil].
Qed.

Lemma hashTransactionForSignature_returns tx s inIndex hashType :
  (inIndex < length (ins tx))%nat ->
  exists digest, hashTransactionForSignature tx s inIndex hashType = Ok digest.
Proof.
  intros Hi. unfold hashTransactionForSignature, sighash_buffer, sighash_txTmp.
  destruct (_ !! inIndex) as [txin |] eqn:Hin.
  - eexists. reflexivity.
  - apply lookup_ge_None in Hin. rewrite clone_fields in Hin. cbn [set_ins ins] in Hin.
    rewrite !length_map in Hin. lia.
Qed.

Example golden_store_reads :
  snap_tx golden_store 0%nat = Some golden
  /\ snap_script golden_store 2%nat = Some a_script.
Proof. split; reflexivity. Qed.

(** C9: on a store where [this] reads as [tx] and [connectedScript] as [s],
    a call returns a result that depends on these values only (a digest
    when [inIndex] is an input of [tx]), it assigns to no object that
    existed, so that [this] and [connectedScript] read the same afterwards,
    and a second call with the same arguments returns the same result. *)
Theorem hashTransactionForSignature_deterministic
        st this connectedScript inIndex hashType tx s :
  snap_tx st this = Some tx -> snap_script st connectedScript = Some s ->
  exists r st1 st2,
    h_hashTransactionForSignature this connectedScript inIndex hashType st = (r, st1)
    /\ r = hashTransactionForSignature tx s inIndex hashType
    /\ ((inIndex < length (ins tx))%nat -> exists digest, r = Ok digest)
    /\ frame [] [] st st1
    /\ snap_tx st1 this = Some tx /\ snap_script st1 connectedScript = Some s
    /\ h_hashTransactionForSignature this connectedScript inIndex hashType st1 = (r, st2).
Proof.
  intros Htx Hs.
  destruct (run_hashTransactionForSignature st this connectedScript inIndex hashType
              tx s Htx Hs) as (st1 & Hrun1 & Hf1).
  assert (Htx1 : snap_tx st1 this = Some tx).
  { apply (frame_tx Hf1); [constructor | constructor | done]. }
  assert (Hs1 : snap_script st1 connectedScript = Some s)
    by apply (frame_script Hf1), Hs.
  destruct (run_hashTransactionForSignature st1 this connectedScript inIndex hashType
              tx s Htx1 Hs1) as (st2 & Hrun2 & _).
  exists (hashTransactionForSignature tx s inIndex hashType), st1, st2.
  split; [exact Hrun1 |]. split; [reflexivity |].
  split; [apply hashTransactionForSignature_returns |]. split; [exact Hf1 |].
  split; [exact Htx1 |]. split; [exact Hs1 | exact Hrun2].
Qed.

Lemma hashTransactionForSignature_deterministic_witness :
  exists r st1 st2,
    h_hashTransactionForSignature 0%nat 2%nat 0 1 golden_store = (r, st1)
    /\ r = hashTransactionForSignature golden a_script 0 1
    /\ ((0 < length (ins golden))%nat -> exists digest, r = Ok digest)
    /\ frame [] [] golden_store st1
    /\ snap_tx st1 0%nat = Some golden /\ snap_script st1 2%nat = Some a_script
    /\ h_hashTransactionForSignature 0%nat 2%nat 0 1 st1 = (r, st2).
Proof.
  apply (hashTransactionForSignature_deterministic golden_store 0%nat 2%nat 0%nat 1
           golden a_script); reflexivity.
Defined.

(** ** [clone] and sharing *)

(** On values, the clone of a transaction whose sequences are arrays has the
    same version, locktime, inputs and outputs. *)
Lemma clone_same_fields tx :
  Forall (fun txin => exists l, sequence txin = SeqBytes l) (ins tx) ->
  version (clone tx) = version tx /\ locktime (clone tx) = locktime tx
  /\ ins (clone tx) = ins tx /\ outs (clone tx) = outs tx.
Proof.
  intros H. rewrite clone_fields. cbn [version locktime ins outs].
  split; [done |]. split; [done |]. split.
  - induction H as [| x xs [l Hl] _ IH]; [done |]. cbn [map]. rewrite IH. f_equal.
    destruct x as [[h i] [b] q]. cbn in Hl. subst q. reflexivity.
  - induction (outs tx) as [| y ys IH]; [done |]. cbn [map]. rewrite IH. f_equal.
    by destruct y as [[b] v].
Qed.

(** C8, where the code fails it: [clone] returns a new transaction, which
    reads as the clone of the values and whose inputs are new objects, and
    it assigns to nothing that existed; but an input of the clone whose
    original has an array as its [sequence] holds that same array, so that
    the sequence bytes are shared between the original and the clone. *)
Theorem clone_shares_sequence_arrays st this tx :
  snap_tx st this = Some tx ->
  exists st' o o',
    h_clone this st = (Ok (length (txs st)), st')
    /\ frame [] [] st st'
    /\ snap_tx st' (length (txs st)) = Some (clone tx)
    /\ txs st !! this = Some o /\ txs st' !! length (txs st) = Some o'
    /\ Forall2 (fun l l' =>
                  l <> l'
                  /\ forall oi a,
                      txins st !! l = Some oi -> o_sequence oi = SeqRef a ->
                      exists oi', txins st' !! l' = Some oi' /\ o_sequence oi' = SeqRef a)
               (o_ins o) (o_ins o').
Proof.
  intros Htx.
  destruct (run_clone st this tx Htx)
    as (st' & o' & Hrun & Hf & Ho' & Hv & Hl & Hh & Hins & Houts & Hnd & Hfresh
        & o & Ho & Hshares).
  exists st', o, o'. split; [done |]. split; [done |]. split; [| split; [done |]].
  { rewrite clone_fields, <- Hv, <- Hl. apply snap_tx_intro; try done. by rewrite Hh. }
  split; [done |].
  apply Forall2_same_length_lookup. split; [by eapply Forall2_length |].
  intros j l l' Hl1 Hl2.
  destruct (Forall2_lookup_lr _ _ _ _ _ _ Hshares Hl1 Hl2) as (o1 & o1' & Ho1 & Ho1' & Hs).
  rewrite Forall_lookup in Hfresh. pose proof (Hfresh _ _ Hl2) as Hge. cbn in Hge.
  split.
  - intros ->. destruct (snap_tx_inv _ _ _ Htx) as (o2 & Ho2 & _ & _ & Hins2 & _).
    rewrite Ho in Ho2. injection Ho2 as <-.
    destruct (Forall2_lookup_l _ _ _ _ _ Hins2 Hl1) as (x & _ & Hx).
    apply snap_in_lt in Hx. lia.
  - intros oi a Hoi Ha. exists o1'. split; [done |].
    apply (fr_txins _ _ _ _ Hf) in Hoi; [| by intros ?%elem_of_nil].
    rewrite Ho1 in Hoi. injection Hoi as ->. by rewrite Hs, Ha.
Qed.

Lemma clone_shares_sequence_arrays_witness :
  exists st' o o',
    h_clone 0%nat golden_store = (Ok (length (txs golden_store)), st')
    /\ frame [] [] golden_store st'
    /\ snap_tx st' (length (txs golden_store)) = Some (clone golden)
    /\ txs golden_store !! 0%nat = Some o
    /\ txs st' !! length (txs golden_store) = Some o'
    /\ Forall2 (fun l l' =>
                  l <> l'
                  /\ forall oi a,
                      txins golden_store !! l = Some oi -> o_sequence oi = SeqRef a ->
                      exists oi', txins st' !! l' = Some oi' /\ o_sequence oi' = SeqRef a)
               (o_ins o) (o_ins o').
Proof. apply (clone_shares_sequence_arrays golden_store 0%nat golden). reflexivity. Defined.

(** At the failing input of C8: a byte written in the sequence of the
    clone's input is read in the original. *)
Example clone_write_through_sequence :
  snap_tx golden_store 0%nat = Some golden
  /\ map sequence (ins golden) = [SeqBytes [Num 255; Num 255; Num 255; Num 255]]
  /\ exists st' tx',
       write_clone_sequence 0%nat golden_store = (Ok tt, st')
       /\ snap_tx st' 0%nat = Some tx'
       /\ map sequence (ins tx') = [SeqBytes [Num 0; Num 255; Num 255; Num 255]].
Proof.
  split; [reflexivity |]. split; [reflexivity |].
  eexists. eexists. split; [vm_compute; reflexivity |]. split; reflexivity.
Qed.

(** [TransactionIn.prototype.clone] on any store: the clone of an input
    whose sequence is an array holds that same array. *)
Lemma TransactionIn_clone_shares_sequence st l x o a :
  snap_in st l = Some x -> txins st !! l = Some o -> o_sequence o = SeqRef a ->
  exists st' o',
    h_TransactionIn_clone l st = (Ok (length (txins st)), st')
    /\ txins st' !! length (txins st) = Some o'
    /\ o_sequence o' = SeqRef a.
Proof.
  intros Hx Ho Ha. destruct (snap_in_inv _ _ _ Hx) as (o1 & Ho1 & Hop & Hsc & Hsq).
  rewrite Ho in Ho1. injection Ho1 as <-.
  assert (Hf1 : frame [] [] st (with_outpoints
                                  (outpoints st ++ [{| hash := hash (outpoint x);
                                                       index := index (outpoint x) |}]) st))
    by apply frame_add_outpoint.
  pose proof (run_Script_clone _ (o_script o) _ (frame_script Hf1 _ _ Hsc)) as Hrun.
  eexists. eexists. split; [| split].
  - unfold h_TransactionIn_clone, mbind, load. rewrite Ho, Hop.
    unfold alloc at 1. rewrite Hrun. reflexivity.
  - apply (list_lookup_middle (txins st) []). reflexivity.
  - cbn. by rewrite Ha.
Qed.

(** The scripts are copied: a byte written in the script of the clone's
    input leaves the original as it was. *)
Example clone_copies_script :
  let st := snd ((let! _ := h_put_tx (set_ins golden [set_script second_in a_script]) in
                  ret tt) empty_store) in
  exists st' tx,
    write_clone_script 0%nat st = (Ok tt, st')
    /\ snap_tx st 0%nat = Some tx /\ snap_tx st' 0%nat = Some tx.
Proof.
  eexists. eexists. split; [vm_compute; reflexivity |]. split; reflexivity.
Qed.

(** * Further properties *)

(** ** The codec, further *)

Lemma le_bytes_bytes z k : forallb is_byte (map Num (convert.le_bytes z k)) = true.
Proof.
  revert z. induction k as [| k IH]; intros z; [done |].
  cbn [convert.le_bytes map forallb]. rewrite IH, andb_true_r.
  pose proof (Z.mod_pos_bound z 256 ltac:(lia)). cbn. 
  apply andb_true_iff. split; [apply Z.leb_le | apply Z.ltb_lt]; lia.
Qed.

Lemma numToVarInt_bytes n : 0 <= n -> forallb is_byte (convert.numToVarInt n) = true.
Proof.
  intros Hn. unfold convert.numToVarInt.
  destruct (Z.ltb_spec n 253).
  - cbn. rewrite andb_true_r. apply andb_true_iff.
    split; [apply Z.leb_le | apply Z.ltb_lt]; lia.
  - repeat destruct (_ <? _); cbn [forallb is_byte convert.numToBytes];
      by rewrite le_bytes_bytes.
Qed.

Lemma hexToBytes_bytes s : hex_ok s = true -> forallb is_byte (convert.hexToBytes s) = true.
Proof.
  induction s as [| a | a b s IH] using string_pair_ind; [done | done |].
  cbn [hex_ok convert.hexToBytes forallb]. intros H.
  apply andb_true_iff in H as [H Hs]. apply andb_true_iff in H as [Ha Hb].
  destruct (lower_hex_value a Ha) as (x & -> & Hx & _).
  destruct (lower_hex_value b Hb) as (y & -> & Hy & _).
  rewrite (IH Hs), andb_true_r. cbn.
  apply andb_true_iff. split; [apply Z.leb_le | apply Z.ltb_lt]; lia.
Qed.

Lemma forallb_rev {A : Type} (f : A -> bool) l : forallb f (rev l) = forallb f l.
Proof.
  induction l as [| x l IH]; [done |].
  cbn [rev forallb]. rewrite forallb_app, IH. cbn. rewrite andb_true_r. apply andb_comm.
Qed.

Lemma forallb_flat_map {A B : Type} (f : B -> bool) (g : A -> list B) (ok : A -> bool) l :
  (forall x, ok x = true -> forallb f (g x) = true) ->
  forallb ok l = true -> forallb f (flat_map g l) = true.
Proof.
  intros Hg. induction l as [| x l IH]; [done |].
  cbn [forallb flat_map]. intros [Hx Hl]%andb_true_iff.
  rewrite forallb_app, (Hg x Hx), (IH Hl). done.
Qed.

Lemma uint32_bytes v k : uint32 v = true -> forallb is_byte (convert.numToBytes (parseInt v) k) = true.
Proof. destruct v; [| done | done]. intros _. apply le_bytes_bytes. Qed.

Lemma serialize_in_bytes x : in_ok x = true -> forallb is_byte (serialize_in x) = true.
Proof.
  unfold in_ok, script_ok, serialize_in. intros H.
  destruct (sequence x) as [l |]; rewrite !andb_true_iff in H; [| by destruct H].
  destruct H as ((((Hh & _) & Hi) & (Hs & _)) & (Hq & _)).
  rewrite !forallb_app, forallb_rev, hexToBytes_bytes, uint32_bytes,
    numToVarInt_bytes by (done || lia).
  cbn [concat_arg]. by rewrite Hs, Hq.
Qed.

Lemma serialize_out_bytes y : out_ok y = true -> forallb is_byte (serialize_out y) = true.
Proof.
  unfold out_ok, script_ok, serialize_out. intros H.
  destruct (value y) as [z | |]; rewrite !andb_true_iff in H;
    [| by destruct H as [? _] | by destruct H as [? _]].
  destruct H as (_ & (Hs & _)).
  rewrite !forallb_app, numToVarInt_bytes by lia.
  cbn [convert.numToBytes]. by rewrite le_bytes_bytes, Hs.
Qed.

Lemma serialize_bytes tx :
  uint32 (version tx) = true -> body_ok tx = true ->
  forallb is_byte (serialize tx) = true.
Proof.
  intros Hv H. unfold body_ok, items_ok in H. rewrite !andb_true_iff in H.
  destruct H as ((((Hi & _) & Ho) & _) & Hl).
  unfold serialize.
  rewrite !forallb_app, !uint32_bytes, !numToVarInt_bytes by (done || lia).
  rewrite (forallb_flat_map is_byte serialize_in in_ok) by (done || apply serialize_in_bytes).
  rewrite (forallb_flat_map is_byte serialize_out out_ok) by (done || apply serialize_out_bytes).
  done.
Qed.

(** Bytes after the serialization are not read. *)
Lemma deserialize_trailing tx extra :
  uint32 (version tx) = true -> body_ok tx = true ->
  deserialize (serialize tx ++ extra) = Ok (reread tx).
Proof.
  intros Hver Hbody. apply andb_true_iff in Hbody as [Hitems Hlock].
  rewrite serialize_head_locktime, <- app_assoc, deserialize_head by assumption.
  unfold reread. destruct (locktime tx) as [lz | |]; try discriminate.
  cbn [parseInt convert.numToBytes].
  rewrite (readAsInt_view _ 4 lz _ extra); [reflexivity | | apply view_end].
  unfold uint32 in Hlock. apply andb_true_iff in Hlock as [H1 H2].
  apply Z.leb_le in H1. apply Z.ltb_lt in H2.
  change (256 ^ Z.of_nat 4) with 4294967296. lia.
Qed.

Lemma reread_fields tx :
  truthy (version tx) = true -> uint32 (locktime tx) = true ->
  version (reread tx) = version tx /\ locktime (reread tx) = locktime tx
  /\ ins (reread tx) = ins tx /\ outs (reread tx) = outs tx.
Proof.
  intros Hv Hl. unfold reread, built. cbn [version locktime ins outs set_hash].
  rewrite Hv. split; [done |]. split; [| done].
  destruct (locktime tx) as [z | |]; try discriminate.
  cbn [truthy]. by destruct (Z.eqb_spec z 0) as [-> |].
Qed.

Lemma tx_ok_inv tx :
  tx_ok tx = true ->
  uint32 (version tx) = true /\ truthy (version tx) = true
  /\ body_ok tx = true /\ uint32 (locktime tx) = true.
Proof.
  unfold tx_ok, body_ok. rewrite !andb_true_iff. intros [[? ?] [? ?]].
  repeat split; done.
Qed.

(** X1: the hexadecimal form of a well-formed transaction is a string of
    lower-case digits, two per byte of [serialize], and [deserialize] on
    that string returns a transaction with the same version, locktime,
    inputs and outputs, whose hexadecimal form is the same string. *)
Theorem serializeHex_deserialize tx :
  tx_ok tx = true ->
  hex_ok (serializeHex tx) = true
  /\ String.length (serializeHex tx) = (2 * length (serialize tx))%nat
  /\ exists tx',
       deserialize_hex (serializeHex tx) = Ok tx'
       /\ version tx' = version tx /\ locktime tx' = locktime tx
       /\ ins tx' = ins tx /\ outs tx' = outs tx
       /\ serializeHex tx' = serializeHex tx.
Proof.
  intros (Hver & Htruthy & Hbody & Hlock)%tx_ok_inv.
  destruct (bytesToHex_ok (serialize tx) (serialize_bytes tx Hver Hbody))
    as (Hhex & Hlen & Hback).
  unfold serializeHex, deserialize_hex. split; [exact Hhex |]. split; [exact Hlen |].
  rewrite Hback, deserialize_serialize by assumption.
  exists (reread tx). split; [reflexivity |].
  destruct (reread_fields tx Htruthy Hlock) as (? & ? & ? & ?).
  repeat (split; [assumption |]). by rewrite serialize_reread.
Qed.

Lemma serializeHex_deserialize_witness :
  hex_ok (serializeHex golden) = true
  /\ String.length (serializeHex golden) = (2 * length (serialize golden))%nat
  /\ exists tx',
       deserialize_hex (serializeHex golden) = Ok tx'
       /\ version tx' = version golden /\ locktime tx' = locktime golden
       /\ ins tx' = ins golden /\ outs tx' = outs golden
       /\ serializeHex tx' = serializeHex golden.
Proof. apply (serializeHex_deserialize golden). reflexivity. Defined.

(** X2: [deserialize] does not look at what follows the transaction: on
    the serialization of a well-formed transaction followed by any elements
    it returns the same transaction as on the serialization alone, with the
    fields of the original. *)
Theorem deserialize_trailing_bytes tx extra :
  tx_ok tx = true ->
  exists tx',
    deserialize (serialize tx ++ extra) = Ok tx'
    /\ deserialize (serialize tx) = Ok tx'
    /\ version tx' = version tx /\ locktime tx' = locktime tx
    /\ ins tx' = ins tx /\ outs tx' = outs tx.
Proof.
  intros (Hver & Htruthy & Hbody & Hlock)%tx_ok_inv.
  exists (reread tx). split; [by apply deserialize_trailing |].
  split; [by apply deserialize_serialize |]. by apply reread_fields.
Qed.

Lemma deserialize_trailing_bytes_witness :
  exists tx',
    deserialize (serialize golden ++ [Num 7; NaN]) = Ok tx'
    /\ deserialize (serialize golden) = Ok tx'
    /\ version tx' = version golden /\ locktime tx' = locktime golden
    /\ ins tx' = ins golden /\ outs tx' = outs golden.
Proof. apply (deserialize_trailing_bytes golden [Num 7; NaN]). reflexivity. Defined.

(** X3: the serialization is self-delimiting on well-formed transactions:
    if the serialization of one, followed by anything, equals the
    serialization of another, followed by anything, then the two have the
    same version, locktime, inputs and outputs, and what follows is the
    same.  In particular [serialize] is injective on them. *)
Theorem serialize_prefix_free tx1 tx2 e1 e2 :
  tx_ok tx1 = true -> tx_ok tx2 = true ->
  serialize tx1 ++ e1 = serialize tx2 ++ e2 ->
  version tx1 = version tx2 /\ locktime tx1 = locktime tx2
  /\ ins tx1 = ins tx2 /\ outs tx1 = outs tx2 /\ e1 = e2.
Proof.
  intros (Hver1 & Ht1 & Hbody1 & Hl1)%tx_ok_inv (Hver2 & Ht2 & Hbody2 & Hl2)%tx_ok_inv Heq.
  pose proof (deserialize_trailing tx1 e1 Hver1 Hbody1) as H1.
  pose proof (deserialize_trailing tx2 e2 Hver2 Hbody2) as H2.
  rewrite Heq, H2 in H1.
  assert (Hr : reread tx2 = reread tx1) by congruence. clear H1 H2.
  destruct (reread_fields tx1 Ht1 Hl1) as (Hv1 & Hk1 & Hi1 & Ho1).
  destruct (reread_fields tx2 Ht2 Hl2) as (Hv2 & Hk2 & Hi2 & Ho2).
  assert (Hv : version tx1 = version tx2) by congruence.
  assert (Hk : locktime tx1 = locktime tx2) by congruence.
  assert (Hi : ins tx1 = ins tx2) by congruence.
  assert (Ho : outs tx1 = outs tx2) by congruence.
  repeat (split; [assumption |]).
  assert (Hs : serialize tx1 = serialize tx2).
  { unfold serialize. by rewrite Hv, Hk, Hi, Ho. }
  rewrite Hs in Heq. by apply app_inv_head in Heq.
Qed.

Lemma serialize_prefix_free_witness :
  version golden = version (reread golden) /\ locktime golden = locktime (reread golden)
  /\ ins golden = ins (reread golden) /\ outs golden = outs (reread golden)
  /\ [Num 1] = [Num 1].
Proof.
  apply (serialize_prefix_free golden (reread golden) [Num 1] [Num 1]);
    [reflexivity | reflexivity | reflexivity].
Defined.

Lemma readAsInt_pos buf k :
  forall p, snd (readAsInt buf k (Num p)) = Num (p + Z.of_nat k).
Proof.
  induction k as [| k IH]; intros p; cbn [readAsInt snd]; [f_equal; lia |].
  cbn [jadd]. specialize (IH (p + 1)).
  destruct (readAsInt buf k (Num (p + 1))) as [r q]. cbn [snd] in *.
  rewrite IH. f_equal. lia.
Qed.

(** X5: on an array of at most four elements, where the count of inputs is
    missing, [deserialize] fails with [RangeError] (the recursion of
    [readAsInt] on [undefined - 251] never ends). *)
Theorem deserialize_short_buffer buf :
  (length buf <= 4)%nat -> deserialize buf = Throw RangeError.
Proof.
  intros Hlen. unfold deserialize.
  pose proof (readAsInt_pos buf 4 0) as Hp.
  destruct (readAsInt buf 4 (Num 0)) as [v p]. cbn [snd] in Hp. subst p.
  unfold readVarInt. cbn [jadd jsub].
  change (0 + Z.of_nat 4 + 1 - 1) with 4. unfold jget.
  change (4 <? 0) with false. cbn iota.
  rewrite nth_overflow by (change (Z.to_nat 4) with 4%nat; lia).
  reflexivity.
Qed.

Lemma deserialize_short_buffer_witness :
  deserialize [Num 1; Num 0; Num 0] = Throw RangeError.
Proof. apply (deserialize_short_buffer [Num 1; Num 0; Num 0]). simpl. lia. Defined.

Lemma read_loop_Forall {A : Type} (item : jsval -> result (A * jsval)) (P : A -> Prop) :
  (forall p d q, item p = Ok (d, q) -> P d) ->
  forall n p ds q, read_loop item n p = Ok (ds, q) -> Forall P ds.
Proof.
  intros Hitem. induction n as [| n IH]; intros p ds q; cbn [read_loop].
  - intros [= <- _]. constructor.
  - destruct (item p) as [[d p1] |] eqn:Hd; [| discriminate]. cbn [bind].
    destruct (read_loop item n p1) as [[rest p2] |] eqn:Hr; [| discriminate]. cbn [bind].
    intros [= <- _]. constructor; [by eapply Hitem | by eapply IH].
Qed.

Lemma read_in_sequence buf p d q :
  read_in buf p = Ok (d, q) -> exists l, sequence (new_TransactionIn d) = SeqBytes l.
Proof.
  unfold read_in. destruct (readBytes buf (Num 32) p) as [h p1].
  destruct (readAsInt buf 4 p1) as [i p2].
  destruct (readVarString buf p2) as [[s p3] |]; [| discriminate]. cbn [bind].
  destruct (readBytes buf (Num 4) p3) as [sq p4]. intros [= <- _]. by exists sq.
Qed.

(** What [deserialize] returns, when it returns. *)
Lemma deserialize_built buf tx :
  deserialize buf = Ok tx ->
  exists v l i o,
    tx = built v l i o /\ Forall (fun x => exists s, sequence x = SeqBytes s) i.
Proof.
  unfold deserialize. destruct (readAsInt buf 4 (Num 0)) as [v p0].
  destruct (readVarInt buf p0) as [[n p] |]; [| discriminate]. cbn [bind].
  destruct (read_loop _ _ p) as [[di p1] |] eqn:Hdi; [| discriminate]. cbn [bind].
  destruct (readVarInt buf p1) as [[m p2] |]; [| discriminate]. cbn [bind].
  destruct (read_loop _ _ p2) as [[do p3] |]; [| discriminate]. cbn [bind].
  destruct (readAsInt buf 4 p3) as [l p4].
  rewrite new_Transaction_doc. intros [= <-].
  exists v, l, (map new_TransactionIn di), (map new_TransactionOut do).
  split; [reflexivity |]. apply Forall_map.
  eapply read_loop_Forall; [| exact Hdi]. intros ? ? ?. apply read_in_sequence.
Qed.

(** X6: a transaction returned by [deserialize], on any array, has a
    non-zero number as its version and a number as its locktime (never
    [NaN] or [undefined]: the constructor keeps its defaults 1 and 0 for
    those), and its cached [hash] is the hash [getHash] computes for it. *)
Theorem deserialize_result_invariants buf tx :
  deserialize buf = Ok tx ->
  (exists v, version tx = Num v /\ v <> 0)
  /\ (exists l, locktime tx = Num l)
  /\ tx_hash tx = Some (getHash tx).
Proof.
  intros (v & l & i & o & -> & _)%deserialize_built.
  unfold built. cbn [version locktime tx_hash set_hash]. split; [| split].
  - destruct v as [z | |]; cbn [truthy]; [| by exists 1 | by exists 1].
    destruct (Z.eqb_spec z 0); cbn [negb]; [by exists 1 | by exists z].
  - destruct l as [z | |]; cbn [truthy]; [| by exists 0 | by exists 0].
    destruct (z =? 0); cbn [negb]; [by exists 0 | by exists z].
  - reflexivity.
Qed.

Lemma deserialize_result_invariants_witness :
  (exists v, version (reread zero_version_tx) = Num v /\ v <> 0)
  /\ (exists l, locktime (reread zero_version_tx) = Num l)
  /\ tx_hash (reread zero_version_tx) = Some (getHash (reread zero_version_tx)).
Proof.
  apply (deserialize_result_invariants (serialize zero_version_tx) (reread zero_version_tx)).
  reflexivity.
Defined.

(** X7: the inputs of a transaction returned by [deserialize] hold arrays
    as their sequences, so that [clone] copies it without loss: the clone
    has the same version, locktime, inputs and outputs, and no cached
    hash. *)
Theorem deserialize_then_clone buf tx :
  deserialize buf = Ok tx ->
  Forall (fun txin => exists l, sequence txin = SeqBytes l) (ins tx)
  /\ version (clone tx) = version tx /\ locktime (clone tx) = locktime tx
  /\ ins (clone tx) = ins tx /\ outs (clone tx) = outs tx
  /\ tx_hash (clone tx) = None.
Proof.
  intros (v & l & i & o & -> & Hseq)%deserialize_built.
  split; [exact Hseq |].
  destruct (clone_same_fields (built v l i o) Hseq) as (? & ? & ? & ?).
  repeat (split; [assumption |]). by rewrite clone_fields.
Qed.

Lemma deserialize_then_clone_witness :
  Forall (fun txin => exists l, sequence txin = SeqBytes l) (ins (reread golden))
  /\ version (clone (reread golden)) = version (reread golden)
  /\ locktime (clone (reread golden)) = locktime (reread golden)
  /\ ins (clone (reread golden)) = ins (reread golden)
  /\ outs (clone (reread golden)) = outs (reread golden)
  /\ tx_hash (clone (reread golden)) = None.
Proof.
  apply (deserialize_then_clone (serialize golden) (reread golden)). reflexivity.
Defined.

(** ** Digests *)

Lemma round_length st kw : length (SHA256.round st kw) = length st.
Proof.
  unfold SHA256.round.
  do 9 (destruct st as [| ? st]; [reflexivity |]). reflexivity.
Qed.

Lemma fold_round_length l : forall st, length (fold_left SHA256.round l st) = length st.
Proof.
  induction l as [| kw l IH]; intros st; [reflexivity |].
  cbn [fold_left]. by rewrite IH, round_length.
Qed.

Lemma compress_length h block : length (SHA256.compress h block) = length h.
Proof.
  unfold SHA256.compress.
  rewrite length_map, length_combine, fold_round_length. lia.
Qed.

Lemma blocks_length n : forall ws h, length (SHA256.blocks n ws h) = length h.
Proof.
  induction n as [| n IH]; intros ws h; [reflexivity |].
  cbn [SHA256.blocks]. by rewrite IH, compress_length.
Qed.

Lemma be_bytes_length k z : length (SHA256.be_bytes k z) = k.
Proof.
  revert z. induction k as [| k IH]; intros z; [reflexivity |].
  cbn [SHA256.be_bytes]. rewrite length_app, IH. cbn. lia.
Qed.

Lemma be_bytes_range k z : Forall (fun b => 0 <= b < 256) (SHA256.be_bytes k z).
Proof.
  revert z. induction k as [| k IH]; intros z; [constructor |].
  cbn [SHA256.be_bytes]. apply Forall_app. split; [apply IH |].
  constructor; [| constructor]. apply Z.mod_pos_bound. lia.
Qed.

Lemma digest_length msg : length (SHA256.digest msg) = 32%nat.
Proof.
  unfold SHA256.digest.
  set (h := SHA256.blocks _ _ _).
  assert (Hh : length h = 8%nat) by (unfold h; by rewrite blocks_length).
  clearbody h. do 9 (destruct h as [| ? h]; try discriminate).
  cbn [flat_map]. by rewrite !length_app, !be_bytes_length.
Qed.

Lemma digest_range msg : Forall (fun b => 0 <= b < 256) (SHA256.digest msg).
Proof.
  unfold SHA256.digest. induction (SHA256.blocks _ _ _) as [| w h IH]; [constructor |].
  cbn [flat_map]. apply Forall_app. split; [apply be_bytes_range | exact IH].
Qed.

Lemma doubleSHA256_bytes buf :
  length (doubleSHA256 buf) = 32%nat /\ forallb is_byte (doubleSHA256 buf) = true.
Proof.
  unfold doubleSHA256. rewrite length_map, digest_length. split; [reflexivity |].
  apply forallb_forall. intros v (b & <- & Hb)%in_map_iff.
  pose proof (digest_range (SHA256.digest (map byteOf buf))) as Hr.
  rewrite List.Forall_forall in Hr. specialize (Hr b Hb). cbn.
  apply andb_true_iff. split; [apply Z.leb_le | apply Z.ltb_lt]; lia.
Qed.

Lemma getHash_length tx :
  length (getHash tx) = 32%nat /\ forallb is_byte (getHash tx) = true.
Proof.
  destruct (doubleSHA256_bytes (serialize tx)) as [Hlen Hb].
  unfold getHash. by rewrite forallb_rev, length_rev.
Qed.

Lemma getHash_hex tx :
  hex_ok (convert.bytesToHex (getHash tx)) = true
  /\ String.length (convert.bytesToHex (getHash tx)) = 64%nat.
Proof.
  destruct (getHash_length tx) as [Hl Hbytes].
  destruct (bytesToHex_ok _ Hbytes) as (Hhex & Hsl & _).
  split; [assumption |]. by rewrite Hsl, Hl.
Qed.

(** X8: [getHash] returns 32 bytes, whatever the transaction holds, and
    their hexadecimal form, which [addInput] stores when it is given a
    transaction, is a string of 64 lower-case digits. *)
Theorem getHash_bytes tx :
  length (getHash tx) = 32%nat
  /\ forallb is_byte (getHash tx) = true
  /\ hex_ok (convert.bytesToHex (getHash tx)) = true
  /\ String.length (convert.bytesToHex (getHash tx)) = 64%nat.
Proof.
  destruct (getHash_length tx) as [? ?]. destruct (getHash_hex tx) as [? ?]. done.
Qed.

(** X9: [addInput(prev, i)] with a transaction returned by [deserialize]
    appends an input that refers to output [i] of [prev] by the hexadecimal
    form of its cached hash, the hash [getHash] computes for [prev]; the
    input is well formed: 64 hex digits, an empty script and the sequence
    0xFFFFFFFF. *)
Theorem addInput_deserialized buf prev tx i :
  deserialize buf = Ok prev -> uint32 i = true ->
  exists txin,
    addInput tx (AddTransaction prev i) = Some (push_in tx txin)
    /\ outpoint txin = {| hash := convert.bytesToHex (getHash prev); index := i |}
    /\ buffer (script txin) = []
    /\ sequence txin = defaultSequence
    /\ in_ok txin = true.
Proof.
  intros (v & l & xs & o & -> & _)%deserialize_built Hi.
  unfold addInput, built. cbn [tx_hash set_hash].
  eexists. split; [reflexivity |]. cbn [addInput_new new_TransactionIn outpoint script
    sequence data_script data_sequence seq_or defaultSequence new_Script buffer].
  repeat (split; [reflexivity |]).
  unfold in_ok, addInput_new, new_TransactionIn.
  cbn [outpoint script sequence hash index].
  match goal with |- context [convert.bytesToHex (getHash ?t)] =>
    destruct (getHash_hex t) as (Hhex & Hlen) end.
  rewrite Hhex, Hlen, Hi. reflexivity.
Qed.

(** ** The signature hash, further *)

Lemma sighash_txTmp_None tx cs i ht :
  ins tx !! i = None -> sighash_txTmp tx cs i ht = Throw TypeError.
Proof.
  intros Hi. unfold sighash_txTmp. rewrite clone_fields. cbn [set_ins ins].
  by rewrite !list_lookup_fmap, Hi.
Qed.

(** The clone that is serialized, input by input. *)
Lemma sighash_txTmp_Some tx cs i ht x :
  ins tx !! i = Some x ->
  exists l,
    sighash_txTmp tx cs i ht
    = Ok {| version := version tx; locktime := locktime tx;
            ins := if truthy (Num (Z.land ht SIGHASH_ANYONECANPAY))
                   then [set_script (TransactionIn_clone x) cs] else l;
            outs := if Z.land ht 0x1f =? SIGHASH_NONE then []
                    else map TransactionOut_clone (outs tx);
            tx_hash := None |}
    /\ length l = length (ins tx)
    /\ forall j y,
         ins tx !! j = Some y ->
         l !! j = Some (if Nat.eqb j i then set_script (TransactionIn_clone x) cs
                        else if Z.land ht 0x1f =? SIGHASH_NONE
                             then set_sequence
                                    (set_script (TransactionIn_clone y) (new_Script None))
                                    (SeqVal (Num 0))
                             else set_script (TransactionIn_clone y) (new_Script None)).
Proof.
  intros Hi. unfold sighash_txTmp. rewrite clone_fields. cbn [set_ins ins].
  rewrite !list_lookup_fmap, Hi. cbn [fmap option_fmap option_map].
  set (blank := map (fun txin => set_script txin (new_Script None))
                    (map TransactionIn_clone (ins tx))).
  set (L := <[i := set_script (set_script (TransactionIn_clone x) (new_Script None)) cs]>
              blank).
  assert (Hlen : length L = length (ins tx))
    by (unfold L, blank; by rewrite length_insert, !length_map).
  assert (HL : forall j y, ins tx !! j = Some y ->
            L !! j = Some (if Nat.eqb j i then set_script (TransactionIn_clone x) cs
                           else set_script (TransactionIn_clone y) (new_Script None))).
  { intros j y Hj. unfold L. destruct (Nat.eqb_spec j i) as [-> | Hne].
    - rewrite list_lookup_insert_eq; [reflexivity |].
      unfold blank. rewrite !length_map. by eapply lookup_lt_Some.
    - rewrite list_lookup_insert_ne by done. unfold blank.
      by rewrite !list_lookup_fmap, Hj. }
  exists (if Z.land ht 0x1f =? SIGHASH_NONE then zero_other_sequences i L else L).
  destruct (Z.land ht 0x1f =? SIGHASH_NONE) eqn:Hnone.
  - cbn [set_ins set_outs ins outs version locktime tx_hash].
    assert (HZ : forall j y, ins tx !! j = Some y ->
              zero_other_sequences i L !! j
              = Some (if Nat.eqb j i then set_script (TransactionIn_clone x) cs
                      else set_sequence
                             (set_script (TransactionIn_clone y) (new_Script None))
                             (SeqVal (Num 0)))).
    { intros j y Hj. unfold zero_other_sequences.
      rewrite list_lookup_imap, (HL j y Hj). cbn.
      by destruct (Nat.eqb j i). }
    split; [| split; [by unfold zero_other_sequences; rewrite length_imap | exact HZ]].
    destruct (truthy _); cbn [set_ins ins outs version locktime tx_hash]; [| reflexivity].
    rewrite (HZ i x Hi), Nat.eqb_refl. reflexivity.
  - split; [| split; [exact Hlen | exact HL]].
    destruct (Z.land ht 0x1f =? SIGHASH_SINGLE);
      destruct (truthy _); cbn [set_ins ins outs version locktime tx_hash];
      rewrite ?(HL i x Hi), ?Nat.eqb_refl; reflexivity.
Qed.

Lemma clone_but_script a b s :
  outpoint a = outpoint b -> sequence a = sequence b ->
  set_script (TransactionIn_clone a) s = set_script (TransactionIn_clone b) s.
Proof.
  intros Ho Hs. unfold set_script, TransactionIn_clone, new_TransactionIn.
  cbn [outpoint sequence data_sequence]. by rewrite Ho, Hs.
Qed.

Lemma clone_but_script_sequence a b s q :
  outpoint a = outpoint b ->
  set_sequence (set_script (TransactionIn_clone a) s) q
  = set_sequence (set_script (TransactionIn_clone b) s) q.
Proof.
  intros Ho. unfold set_sequence, set_script, TransactionIn_clone, new_TransactionIn.
  cbn [outpoint script]. by rewrite Ho.
Qed.

(** What the clone that is serialized depends on. *)
Lemma sighash_txTmp_agree tx tx' cs i ht :
  version tx = version tx' -> locktime tx = locktime tx' ->
  ((Z.land ht 0x1f =? SIGHASH_NONE) = false -> outs tx = outs tx') ->
  length (ins tx) = length (ins tx') ->
  (forall j y y',
      ins tx !! j = Some y -> ins tx' !! j = Some y' ->
      outpoint y = outpoint y'
      /\ (j = i \/ (Z.land ht 0x1f =? SIGHASH_NONE) = false -> sequence y = sequence y')) ->
  sighash_txTmp tx cs i ht = sighash_txTmp tx' cs i ht.
Proof.
  intros Hv Hk Ho Hlen Hin.
  destruct (ins tx !! i) as [x |] eqn:Hx.
  - destruct (ins tx' !! i) as [x' |] eqn:Hx'.
    2: { apply lookup_ge_None in Hx'. apply lookup_lt_Some in Hx. lia. }
    destruct (sighash_txTmp_Some tx cs i ht x Hx) as (l & -> & Hl & Hlook).
    destruct (sighash_txTmp_Some tx' cs i ht x' Hx') as (l' & -> & Hl' & Hlook').
    destruct (Hin i x x' Hx Hx') as [Hop Hsq].
    rewrite (clone_but_script x x' cs Hop (Hsq (or_introl eq_refl))).
    assert (l = l') as <-.
    { apply list_eq. intros j.
      destruct (ins tx !! j) as [y |] eqn:Hy.
      - destruct (ins tx' !! j) as [y' |] eqn:Hy'.
        2: { apply lookup_ge_None in Hy'. apply lookup_lt_Some in Hy. lia. }
        rewrite (Hlook j y Hy), (Hlook' j y' Hy'). f_equal.
        destruct (Hin j y y' Hy Hy') as [Hop' Hsq'].
        destruct (Nat.eqb_spec j i) as [-> | Hne].
        + by rewrite (clone_but_script x x' cs Hop (Hsq (or_introl eq_refl))).
        + destruct (Z.land ht 0x1f =? SIGHASH_NONE) eqn:Hnone.
          * by apply clone_but_script_sequence.
          * apply clone_but_script; [done | by apply Hsq'; right].
      - apply lookup_ge_None in Hy.
        rewrite (proj2 (lookup_ge_None l j)), (proj2 (lookup_ge_None l' j)) by lia. done. }
    rewrite Hv, Hk. destruct (Z.land ht 0x1f =? SIGHASH_NONE); [done |].
    by rewrite Ho.
  - rewrite (sighash_txTmp_None tx cs i ht Hx). symmetry. apply sighash_txTmp_None.
    apply lookup_ge_None. apply lookup_ge_None in Hx. lia.
Qed.

Lemma hashTransactionForSignature_agree tx tx' cs i i' ht :
  sighash_txTmp tx cs i ht = sighash_txTmp tx' cs i' ht ->
  hashTransactionForSignature tx cs i ht = hashTransactionForSignature tx' cs i' ht.
Proof.
  intros H. unfold hashTransactionForSignature, sighash_buffer. by rewrite H.
Qed.

(** X10: [hashTransactionForSignature] returns a digest of 32 bytes when
    [inIndex] is the index of an input, for every hash type and script;
    when it is not, the assignment to [txTmp.ins[inIndex].script] fails
    with a [TypeError]. *)
Theorem hashTransactionForSignature_index tx cs i ht :
  ((i < length (ins tx))%nat ->
   exists digest, hashTransactionForSignature tx cs i ht = Ok digest
                  /\ length digest = 32%nat /\ forallb is_byte digest = true)
  /\ ((length (ins tx) <= i)%nat ->
      hashTransactionForSignature tx cs i ht = Throw TypeError).
Proof.
  split; intros Hi.
  - apply lookup_lt_is_Some_2 in Hi as [x Hx].
    destruct (sighash_txTmp_Some tx cs i ht x Hx) as (l & Heq & _).
    unfold hashTransactionForSignature, sighash_buffer. rewrite Heq. cbn [bind].
    eexists. split; [reflexivity |]. apply doubleSHA256_bytes.
  - unfold hashTransactionForSignature, sighash_buffer.
    rewrite sighash_txTmp_None; [reflexivity |]. by apply lookup_ge_None.
Qed.

(** X11: the digest does not depend on the scripts of the inputs of the
    transaction, the signed one included: two transactions with the same
    version, locktime and outputs whose inputs have the same outpoints and
    sequences give the same result, for every index and hash type.  (The
    scripts of the clone are blanked and the connected script is put in.) *)
Theorem sighash_ignores_input_scripts tx tx' cs i ht :
  version tx = version tx' -> locktime tx = locktime tx' -> outs tx = outs tx' ->
  Forall2 (fun a b => outpoint a = outpoint b /\ sequence a = sequence b)
          (ins tx) (ins tx') ->
  hashTransactionForSignature tx cs i ht = hashTransactionForSignature tx' cs i ht.
Proof.
  intros Hv Hk Ho Hin. apply hashTransactionForSignature_agree.
  apply sighash_txTmp_agree; try done.
  - by eapply Forall2_length.
  - intros j y y' Hy Hy'.
    destruct (Forall2_lookup_lr _ _ _ _ _ _ Hin Hy Hy') as [? ?]. done.
Qed.

Lemma sighash_ignores_input_scripts_witness :
  hashTransactionForSignature golden a_script 0 1
  = hashTransactionForSignature
      (set_ins golden (map (fun x => set_script x a_script) (ins golden))) a_script 0 1.
Proof.
  apply (sighash_ignores_input_scripts golden
           (set_ins golden (map (fun x => set_script x a_script) (ins golden)))
           a_script 0%nat 1);
    [reflexivity | reflexivity | reflexivity |].
  simpl. constructor; [split; reflexivity | constructor].
Defined.

(** X12: with a hash type whose low five bits are 2 (NONE) the digest
    depends on the version, the locktime, the outpoints of the inputs and
    the sequence of the signed input only: not on the outputs, nor on the
    sequences of the other inputs. *)
Theorem sighash_none_ignores_outputs tx tx' cs i ht :
  Z.land ht 0x1f = SIGHASH_NONE ->
  version tx = version tx' -> locktime tx = locktime tx' ->
  Forall2 (fun a b => outpoint a = outpoint b) (ins tx) (ins tx') ->
  (forall x x', ins tx !! i = Some x -> ins tx' !! i = Some x' ->
                sequence x = sequence x') ->
  hashTransactionForSignature tx cs i ht = hashTransactionForSignature tx' cs i ht.
Proof.
  intros Hnone Hv Hk Hin Hsq. apply hashTransactionForSignature_agree.
  apply sighash_txTmp_agree; try done.
  - rewrite Hnone. discriminate.
  - by eapply Forall2_length.
  - intros j y y' Hy Hy'. split.
    + exact (Forall2_lookup_lr _ _ _ _ _ _ Hin Hy Hy').
    + rewrite Hnone. intros [-> | ?]; [by eapply Hsq | discriminate].
Qed.

Lemma sighash_none_ignores_outputs_witness :
  hashTransactionForSignature two_inputs a_script 0 2
  = hashTransactionForSignature
      (set_outs (set_ins two_inputs
                         (zero_other_sequences 0 (ins two_inputs))) [])
      a_script 0 2.
Proof.
  apply (sighash_none_ignores_outputs two_inputs
           (set_outs (set_ins two_inputs (zero_other_sequences 0 (ins two_inputs))) [])
           a_script 0%nat 2);
    [reflexivity | reflexivity | reflexivity | |].
  - simpl. constructor; [reflexivity |]. constructor; [reflexivity | constructor].
  - simpl. intros x x' [= <-] [= <-]. reflexivity.
Defined.

(** X13: with a hash type for which the test [hashType & 80] of the source
    is not zero (bit 0x40 or bit 0x10 set), the digest depends on the
    signed input alone among the inputs, not even on its position: two
    transactions with the same version, locktime and outputs, in which the
    inputs at [i] and at [i'] have the same outpoint and sequence, give the
    same result. *)
Theorem sighash_test_80_one_input tx tx' cs i i' ht x x' :
  Z.land ht SIGHASH_ANYONECANPAY <> 0 ->
  version tx = version tx' -> locktime tx = locktime tx' -> outs tx = outs tx' ->
  ins tx !! i = Some x -> ins tx' !! i' = Some x' ->
  outpoint x = outpoint x' -> sequence x = sequence x' ->
  hashTransactionForSignature tx cs i ht = hashTransactionForSignature tx' cs i' ht.
Proof.
  intros Hacp Hv Hk Ho Hx Hx' Hop Hsq. apply hashTransactionForSignature_agree.
  destruct (sighash_txTmp_Some tx cs i ht x Hx) as (l & -> & _).
  destruct (sighash_txTmp_Some tx' cs i' ht x' Hx') as (l' & -> & _).
  assert (Ht : truthy (Num (Z.land ht SIGHASH_ANYONECANPAY)) = true).
  { cbn [truthy]. by destruct (Z.eqb_spec (Z.land ht SIGHASH_ANYONECANPAY) 0). }
  rewrite Ht, Hv, Hk, Ho. by rewrite (clone_but_script x x' cs Hop Hsq).
Qed.

Lemma sighash_test_80_one_input_witness :
  hashTransactionForSignature golden a_script 0 0x41
  = hashTransactionForSignature (set_ins golden (second_in :: ins golden)) a_script 1 0x41.
Proof.
  eapply (sighash_test_80_one_input golden (set_ins golden (second_in :: ins golden))
            a_script 0%nat 1%nat 0x41);
    [vm_compute; lia | reflexivity | reflexivity | reflexivity | reflexivity | reflexivity
    | reflexivity | reflexivity].
Defined.

(** ** [clone], further *)

Lemma TransactionIn_clone_twice x :
  TransactionIn_clone (TransactionIn_clone x) = TransactionIn_clone x.
Proof.
  destruct x as [[h i] [b] q]. unfold TransactionIn_clone, new_TransactionIn.
  cbn [outpoint script sequence hash index data_script data_sequence]. f_equal.
  destruct q as [l | v]; [reflexivity |]. cbn [seq_or].
  destruct (truthy v) eqn:Hv; cbn [seq_or]; [by rewrite Hv | reflexivity].
Qed.

(** X14: [clone] is idempotent on values: the clone of a clone has the
    version, locktime, inputs, outputs (and absent cached hash) of the
    clone. *)
Theorem clone_twice tx : clone (clone tx) = clone tx.
Proof.
  rewrite !clone_fields. cbn [version locktime ins outs]. f_equal.
  - rewrite map_map. apply map_ext. apply TransactionIn_clone_twice.
  - rewrite map_map. apply map_ext. by intros [[b] v].
Qed.

(** X15: unless an input holds the number 0 or [NaN] as its sequence
    (which [data.sequence || this.defaultSequence] turns into [undefined]),
    the clone serializes to the same bytes and has the same hash. *)
Theorem clone_serialize tx :
  Forall (fun txin => sequence txin <> SeqVal (Num 0) /\ sequence txin <> SeqVal NaN)
         (ins tx) ->
  serialize (clone tx) = serialize tx /\ getHash (clone tx) = getHash tx.
Proof.
  intros H.
  assert (Hs : serialize (clone tx) = serialize tx).
  { rewrite clone_fields. unfold serialize. cbn [version locktime ins outs].
    rewrite !length_map. f_equal. f_equal. f_equal; [| f_equal; f_equal].
    - induction H as [| x xs [H0 Hn] _ IH]; [reflexivity |].
      cbn [map flat_map]. rewrite IH. f_equal.
      destruct x as [[h i] [b] q]. cbn [sequence] in H0, Hn.
      unfold serialize_in, TransactionIn_clone, new_TransactionIn.
      cbn [outpoint script sequence hash index data_script data_sequence buffer
           Script_clone].
      do 4 f_equal. destruct q as [l | [z | |]]; try done. cbn [seq_or truthy].
      destruct (Z.eqb_spec z 0) as [-> |]; done.
    - induction (outs tx) as [| [[b] v] ys IH]; [reflexivity |].
      cbn [map flat_map]. by rewrite IH. }
  split; [exact Hs |]. unfold getHash. by rewrite Hs.
Qed.

Lemma clone_serialize_witness :
  serialize (clone two_inputs) = serialize two_inputs
  /\ getHash (clone two_inputs) = getHash two_inputs.
Proof.
  apply (clone_serialize two_inputs). simpl.
  constructor; [split; discriminate |]. constructor; [split; discriminate | constructor].
Defined.

(** ** [estimateFee] *)

Lemma ceil_div_1000 a : exists k, ceil_div a 1000 = k /\ 1000 * (k - 1) < a <= 1000 * k.
Proof.
  exists (ceil_div a 1000). split; [reflexivity |]. unfold ceil_div.
  pose proof (Z.div_mod (- a) 1000 ltac:(lia)).
  pose proof (Z.mod_pos_bound (- a) 1000 ltac:(lia)). lia.
Qed.


(** X17: with a rate that is not negative, adding an input or an output
    never lowers the estimated fee. *)
Theorem estimateFee_monotone tx txin txout r :
  0 <= r ->
  exists a b c,
    estimateFee tx (Num r) = Num a
    /\ estimateFee (push_in tx txin) (Num r) = Num b
    /\ estimateFee (addOutput tx txout) (Num r) = Num c
    /\ a <= b /\ a <= c.
Proof.
  intros Hr. unfold estimateFee. cbn [jmul]. do 3 eexists.
  split; [reflexivity |]. split; [reflexivity |]. split; [reflexivity |].
  unfold estimate_size, addOutput, push_in, push_out. cbn [set_ins set_outs ins outs].
  rewrite !length_app. cbn [length].
  destruct (ceil_div_1000 (Z.of_nat (length (ins tx)) * 180
                           + Z.of_nat (length (outs tx)) * 34 + 34)) as (k & -> & Hk).
  destruct (ceil_div_1000 (Z.of_nat (length (ins tx) + 1) * 180
                           + Z.of_nat (length (outs tx)) * 34 + 34)) as (k1 & -> & Hk1).
  destruct (ceil_div_1000 (Z.of_nat (length (ins tx)) * 180
                           + Z.of_nat (length (outs tx) + 1) * 34 + 34)) as (k2 & -> & Hk2).
  split; apply Z.mul_le_mono_nonneg_l; lia.
Qed.

Lemma estimateFee_monotone_witness :
  exists a b c,
    estimateFee golden (Num 20000) = Num a
    /\ estimateFee (push_in golden second_in) (Num 20000) = Num b
    /\ estimateFee (addOutput golden {| out_script := a_script; value := Num 5 |})
                   (Num 20000) = Num c
    /\ a <= b /\ a <= c.
Proof.
  apply (estimateFee_monotone golden second_in
           {| out_script := a_script; value := Num 5 |} 20000). lia.
Defined.

(** ** [addInput] on the store *)

Lemma run_addInput st this h i o :
  txs st !! this = Some o ->
  exists st',
    h_addInput this h i st = (Ok tt, st')
    /\ frame [] [this] st st'
    /\ txs st' !! this = Some (tx_set_ins (o_ins o ++ [length (txins st)]) o)
    /\ txins st' !! length (txins st)
       = Some {| o_outpoint := length (outpoints st); o_script := length (scripts st);
                 o_sequence := SeqRef (o_defaultSequence o) |}
    /\ outpoints st' !! length (outpoints st) = Some {| hash := h; index := i |}
    /\ snap_script st' (length (scripts st)) = Some (new_Script None)
    /\ length (txins st') = S (length (txins st)).
Proof.
  intros Ho. unfold h_addInput.
  rewrite (mbind_run _ _ _ _ _ (run_load txs this st o Ho)).
  unfold alloc at 1. unfold mbind at 1.
  rewrite (mbind_run _ _ _ _ _ (run_new_Script _)).
  unfold alloc at 1. unfold mbind at 1.
  erewrite run_update_tx by (cbn; exact Ho).
  eexists. split; [reflexivity |]. cbn.
  split; [| split; [| split; [| split; [| split]]]].
  - split; cbn; try (by apply prefix_app_r); try done.
    + intros l x _ Hl. by apply lookup_app_l_Some.
    + intros l x Hl Hx. rewrite list_lookup_insert_ne; [done |].
      intros <-. apply Hl. by left.
  - apply list_lookup_insert_eq. by eapply lookup_lt_Some.
  - apply list_lookup_middle. reflexivity.
  - apply list_lookup_middle. reflexivity.
  - unfold snap_script. cbn.
    rewrite (list_lookup_middle (scripts st) [] _ (length (scripts st)) eq_refl). cbn.
    by rewrite (list_lookup_middle (arrays st) [] _ (length (arrays st)) eq_refl).
  - rewrite length_app. cbn. lia.
Qed.

(** X18: on the store, [addInput(hash, outIndex)] with a hash of at most 65
    characters assigns to the transaction only, and the transaction reads
    afterwards as the value-level [addInput] says, as long as nothing has
    written to its [defaultSequence] array: one more input, with the given
    outpoint, an empty script and the sequence 0xFFFFFFFF. *)
Theorem addInput_refines st this tx o h i :
  snap_tx st this = Some tx ->
  txs st !! this = Some o ->
  arrays st !! o_defaultSequence o = Some [Num 255; Num 255; Num 255; Num 255] ->
  (String.length h <= 65)%nat ->
  exists st' tx',
    h_addInput this h i st = (Ok tt, st')
    /\ frame [] [this] st st'
    /\ addInput tx (AddHash h i) = Some tx'
    /\ snap_tx st' this = Some tx'
    /\ ins tx' = ins tx ++ [addInput_new h i].
Proof.
  intros Htx Ho Hd Hlen.
  destruct (snap_tx_inv st this tx Htx) as (o' & Ho' & Hv & Hk & Hins & Houts & Hh).
  rewrite Ho in Ho'. injection Ho' as <-.
  destruct (run_addInput st this h i o Ho)
    as (st' & Hrun & Hf & Hto & Hti & Hop & Hsc & _).
  exists st', (push_in tx (addInput_new h i)).
  split; [exact Hrun |]. split; [exact Hf |]. split.
  { unfold addInput. destruct (Z.ltb_spec 65 (Z.of_nat (String.length h))); [lia | done]. }
  split; [| reflexivity].
  assert (Hnew : snap_in st' (length (txins st)) = Some (addInput_new h i)).
  { eapply (snap_in_intro st' _ _ {| hash := h; index := i |} (new_Script None)
              (SeqBytes [Num 255; Num 255; Num 255; Num 255])); [exact Hti | exact Hop
              | exact Hsc |].
    cbn. by rewrite (prefix_lookup_Some _ _ _ _ Hd (fr_arrays _ _ _ _ Hf)). }
  pose proof (snap_tx_intro st' this (tx_set_ins (o_ins o ++ [length (txins st)]) o)
                (ins tx ++ [addInput_new h i]) (outs tx) (tx_hash tx) Hto) as Hsnap.
  cbn [tx_set_ins o_ins o_outs o_hash o_version o_locktime] in Hsnap.
  rewrite Hv, Hk in Hsnap. apply Hsnap.
  - apply Forall2_app; [| by constructor].
    apply (frame_ins Hf); [by intros ? _ ?%elem_of_nil | exact Hins].
  - apply (frame_outs Hf), Houts.
  - destruct (o_hash o) as [a |]; cbn in Hh |- *; [| done].
    destruct (arrays st !! a) as [elts |] eqn:Ha; [| discriminate].
    by rewrite (prefix_lookup_Some _ _ _ _ Ha (fr_arrays _ _ _ _ Hf)).
Qed.

Lemma addInput_refines_witness :
  exists st' tx',
    h_addInput 0%nat "ab" (Num 3) golden_store = (Ok tt, st')
    /\ frame [] [0%nat] golden_store st'
    /\ addInput golden (AddHash "ab" (Num 3)) = Some tx'
    /\ snap_tx st' 0%nat = Some tx'
    /\ ins tx' = ins golden ++ [addInput_new "ab" (Num 3)].
Proof.
  apply (addInput_refines golden_store 0%nat golden golden_obj "ab" (Num 3));
    [reflexivity | reflexivity | reflexivity | simpl; lia].
Defined.

(** X19: two inputs added by [addInput(hash, outIndex)] (hashes of at most
    65 characters) hold one and the same array as their sequence, the [defaultSequence] array of the
    transaction: the input objects are distinct, their sequence bytes are
    shared (with each other and with every input added later). *)
Theorem addInput_shares_defaultSequence st this o h1 i1 h2 i2 :
  txs st !! this = Some o ->
  (String.length h1 <= 65)%nat -> (String.length h2 <= 65)%nat ->
  exists st' o' l1 l2 x1 x2,
    (let! _ := h_addInput this h1 i1 in h_addInput this h2 i2) st = (Ok tt, st')
    /\ txs st' !! this = Some o'
    /\ o_ins o' = o_ins o ++ [l1; l2] /\ l1 <> l2
    /\ txins st' !! l1 = Some x1 /\ txins st' !! l2 = Some x2
    /\ o_sequence x1 = SeqRef (o_defaultSequence o')
    /\ o_sequence x2 = SeqRef (o_defaultSequence o').
Proof.
  intros Ho _ _.
  destruct (run_addInput st this h1 i1 o Ho)
    as (st1 & Hrun1 & Hf1 & Hto1 & Hti1 & _ & _ & Hlen1).
  destruct (run_addInput st1 this h2 i2 _ Hto1)
    as (st2 & Hrun2 & Hf2 & Hto2 & Hti2 & _ & _ & _).
  eexists st2, _, (length (txins st)), (length (txins st1)), _, _.
  split; [by erewrite mbind_run by exact Hrun1 |].
  split; [exact Hto2 |]. cbn [tx_set_ins o_ins o_defaultSequence].
  split; [by rewrite <- app_assoc |]. split; [lia |].
  split.
  { apply (fr_txins _ _ _ _ Hf2); [by intros ?%elem_of_nil | exact Hti1]. }
  split; [exact Hti2 |]. split; reflexivity.
Qed.

Lemma addInput_shares_defaultSequence_witness :
  exists st' o' l1 l2 x1 x2,
    (let! _ := h_addInput 0%nat "ab" (Num 0) in h_addInput 0%nat "cd" (Num 1)) golden_store
    = (Ok tt, st')
    /\ txs st' !! 0%nat = Some o'
    /\ o_ins o' = o_ins golden_obj ++ [l1; l2] /\ l1 <> l2
    /\ txins st' !! l1 = Some x1 /\ txins st' !! l2 = Some x2
    /\ o_sequence x1 = SeqRef (o_defaultSequence o')
    /\ o_sequence x2 = SeqRef (o_defaultSequence o').
Proof.
  apply (addInput_shares_defaultSequence golden_store 0%nat golden_obj
           "ab" (Num 0) "cd" (Num 1)); [reflexivity | simpl; lia | simpl; lia].
Defined.

(** ** The cached hash *)

Lemma numToBytes_length v k : length (convert.numToBytes v k) = k.
Proof.
  destruct v; cbn [convert.numToBytes];
    [by rewrite length_map, le_bytes_length | apply repeat_length | apply repeat_length].
Qed.

Lemma numToVarInt_length_mono n m :
  n <= m -> (length (convert.numToVarInt n) <= length (convert.numToVarInt m))%nat.
Proof.
  intros H. unfold convert.numToVarInt.
  repeat match goal with
         | |- context [?a <? ?b] => destruct (Z.ltb_spec a b)
         end; cbn [length]; rewrite ?numToBytes_length; lia.
Qed.

Lemma serialize_length tx :
  length (serialize tx)
  = (8 + length (convert.numToVarInt (Z.of_nat (length (ins tx))))
     + length (flat_map serialize_in (ins tx))
     + length (convert.numToVarInt (Z.of_nat (length (outs tx))))
     + length (flat_map serialize_out (outs tx)))%nat.
Proof. unfold serialize. rewrite !length_app, !numToBytes_length. lia. Qed.

Lemma serialize_in_length x : (4 < length (serialize_in x))%nat.
Proof.
  unfold serialize_in. rewrite !length_app, numToBytes_length.
  assert (0 < length (convert.numToVarInt (Z.of_nat (length (buffer (script x))))))%nat;
    [| lia].
  unfold convert.numToVarInt. repeat destruct (_ <? _); cbn [length]; lia.
Qed.

Lemma serialize_out_length y : (8 < length (serialize_out y))%nat.
Proof.
  unfold serialize_out. rewrite !length_app, numToBytes_length.
  assert (0 < length (convert.numToVarInt (Z.of_nat (length (buffer (out_script y))))))%nat;
    [| lia].
  unfold convert.numToVarInt. repeat destruct (_ <? _); cbn [length]; lia.
Qed.

Lemma serialize_longer_in tx txin :
  (length (serialize tx) < length (serialize (push_in tx txin)))%nat.
Proof.
  rewrite !serialize_length. unfold push_in. cbn [set_ins ins outs].
  rewrite flat_map_app, !length_app. cbn [flat_map length].
  pose proof (numToVarInt_length_mono (Z.of_nat (length (ins tx)))
                (Z.of_nat (length (ins tx) + 1)) ltac:(lia)).
  rewrite app_nil_r. pose proof (serialize_in_length txin). lia.
Qed.

Lemma serialize_longer_out tx txout :
  (length (serialize tx) < length (serialize (push_out tx txout)))%nat.
Proof.
  rewrite !serialize_length. unfold push_out. cbn [set_outs ins outs].
  rewrite flat_map_app, !length_app. cbn [flat_map length].
  pose proof (numToVarInt_length_mono (Z.of_nat (length (outs tx)))
                (Z.of_nat (length (outs tx) + 1)) ltac:(lia)).
  rewrite app_nil_r. pose proof (serialize_out_length txout). lia.
Qed.

(** X20: [addInput] and [addOutput] leave the cached hash as it is,
    although the serialization changes (it gets longer): after either, a
    cached hash is the hash of the transaction as it was. *)
Theorem cached_hash_not_updated tx :
  (forall args tx',
      addInput tx args = Some tx' ->
      tx_hash tx' = tx_hash tx
      /\ (length (serialize tx) < length (serialize tx'))%nat)
  /\ (forall txout,
         tx_hash (addOutput tx txout) = tx_hash tx
         /\ (length (serialize tx) < length (serialize (addOutput tx txout)))%nat).
Proof.
  split.
  - intros args tx' H.
    assert (exists txin, tx' = push_in tx txin) as [txin ->].
    { unfold addInput in H. destruct args as [x | h i | prev i].
      - injection H as <-. by eexists.
      - destruct (_ <? _); [discriminate |]. injection H as <-. by eexists.
      - destruct (tx_hash prev); [| discriminate]. injection H as <-. by eexists. }
    split; [reflexivity | apply serialize_longer_in].
  - intros txout. split; [reflexivity | apply serialize_longer_out].
Qed.

Lemma addInput_deserialized_witness :
  exists txin,
    addInput golden (AddTransaction (reread golden) (Num 0)) = Some (push_in golden txin)
    /\ outpoint txin = {| hash := convert.bytesToHex (getHash (reread golden));
                          index := Num 0 |}
    /\ buffer (script txin) = []
    /\ sequence txin = defaultSequence
    /\ in_ok txin = true.
Proof.
  apply (addInput_deserialized (serialize golden) (reread golden) golden (Num 0));
    reflexivity.
Defined.

(** ** Signing *)

(** Assigning a script to an input does not change any digest. *)
Lemma sighash_after_assign tx j x s cs i ht :
  ins tx !! j = Some x ->
  hashTransactionForSignature (set_ins tx (<[j := set_script x s]> (ins tx))) cs i ht
  = hashTransactionForSignature tx cs i ht.
Proof.
  intros Hx. apply hashTransactionForSignature_agree.
  apply sighash_txTmp_agree; try done.
  - cbn [set_ins ins]. by rewrite length_insert.
  - cbn [set_ins ins]. intros k y y' Hy Hy'.
    destruct (decide (k = j)) as [-> | Hne].
    + rewrite list_lookup_insert_eq in Hy by (by eapply lookup_lt_Some).
      rewrite Hx in Hy'. by simplify_eq.
    + rewrite list_lookup_insert_ne in Hy by done. by simplify_eq.
Qed.

Section SigningProperties.

Context {collaborators : Collaborators}.

Lemma sign_None tx i key type e :
  ins tx !! i = None -> sign tx i key type e = Throw TypeError.
Proof.
  intros Hi. unfold sign, hashTransactionForSignature, sighash_buffer.
  by rewrite (sighash_txTmp_None _ _ _ _ Hi).
Qed.

Lemma sign_Some tx i key type e x :
  ins tx !! i = Some x ->
  exists d,
    hashTransactionForSignature tx (key_script (new_ECKey key)) i (type_or_ALL type) = Ok d
    /\ sign tx i key type e
       = Ok (set_ins tx (<[i := set_script x
                                   (createInputScript
                                      (key_sign (new_ECKey key) d e
                                       ++ [Num (type_or_ALL type)])
                                      (getPub (new_ECKey key)))]> (ins tx))).
Proof.
  intros Hi.
  destruct (hashTransactionForSignature_returns tx (key_script (new_ECKey key)) i
              (type_or_ALL type)) as [d Hd]; [by eapply lookup_lt_Some |].
  exists d. split; [exact Hd |]. unfold sign, assign_script. by rewrite Hd, Hi.
Qed.

Lemma assign_script_digest tx j s tx' cs i ht :
  assign_script tx j s = Ok tx' ->
  hashTransactionForSignature tx' cs i ht = hashTransactionForSignature tx cs i ht.
Proof.
  unfold assign_script. destruct (ins tx !! j) as [x |] eqn:Hx; [| discriminate].
  intros [= <-]. by apply sighash_after_assign.
Qed.

Lemma sign_digest tx j key type e tx' cs i ht :
  sign tx j key type e = Ok tx' ->
  hashTransactionForSignature tx' cs i ht = hashTransactionForSignature tx cs i ht.
Proof.
  unfold sign. destruct (hashTransactionForSignature tx _ j _) as [d |]; [| discriminate].
  cbn [bind]. apply assign_script_digest.
Qed.

(** On values: signing two different inputs gives the same transaction in
    either order, and the same error when an index is not that of an
    input. *)
Lemma sign_commute_values tx i j key1 type1 e1 key2 type2 e2 :
  i <> j ->
  (let* t := sign tx i key1 type1 e1 in sign t j key2 type2 e2)
  = (let* t := sign tx j key2 type2 e2 in sign t i key1 type1 e1).
Proof.
  intros Hne.
  destruct (ins tx !! i) as [x |] eqn:Hx; destruct (ins tx !! j) as [y |] eqn:Hy.
  - destruct (sign_Some tx i key1 type1 e1 x Hx) as (d1 & Hd1 & ->).
    destruct (sign_Some tx j key2 type2 e2 y Hy) as (d2 & Hd2 & ->). cbn [bind].
    set (s1 := createInputScript _ _). set (s2 := createInputScript _ _).
    destruct (sign_Some (set_ins tx (<[i := set_script x s1]> (ins tx))) j key2 type2 e2 y)
      as (d2' & Hd2' & ->).
    { cbn [set_ins ins]. by rewrite list_lookup_insert_ne. }
    destruct (sign_Some (set_ins tx (<[j := set_script y s2]> (ins tx))) i key1 type1 e1 x)
      as (d1' & Hd1' & ->).
    { cbn [set_ins ins]. by rewrite list_lookup_insert_ne. }
    rewrite sighash_after_assign in Hd1', Hd2' by done.
    assert (d1' = d1) as -> by congruence. assert (d2' = d2) as -> by congruence.
    fold s1 s2. unfold set_ins. cbn [version locktime ins outs tx_hash].
    by rewrite list_insert_insert_ne.
  - destruct (sign_Some tx i key1 type1 e1 x Hx) as (d1 & Hd1 & ->).
    rewrite (sign_None tx j key2 type2 e2 Hy). cbn [bind]. apply sign_None.
    cbn [set_ins ins]. by rewrite list_lookup_insert_ne.
  - destruct (sign_Some tx j key2 type2 e2 y Hy) as (d2 & Hd2 & ->).
    rewrite (sign_None tx i key1 type1 e1 Hx). cbn [bind]. symmetry. apply sign_None.
    cbn [set_ins ins]. by rewrite list_lookup_insert_ne.
  - by rewrite (sign_None tx i key1 type1 e1 Hx), (sign_None tx j key2 type2 e2 Hy).
Qed.

(** X22: signing an input again replaces the first signature: the result
    is that of the second call alone. *)
Theorem sign_again tx i key1 type1 e1 key2 type2 e2 :
  (let* t := sign tx i key1 type1 e1 in sign t i key2 type2 e2)
  = sign tx i key2 type2 e2.
Proof.
  destruct (ins tx !! i) as [x |] eqn:Hx.
  - destruct (sign_Some tx i key1 type1 e1 x Hx) as (d1 & Hd1 & ->). cbn [bind].
    set (s1 := createInputScript _ _).
    destruct (sign_Some tx i key2 type2 e2 x Hx) as (d2 & Hd2 & ->).
    destruct (sign_Some (set_ins tx (<[i := set_script x s1]> (ins tx))) i key2 type2 e2
                (set_script x s1)) as (d2' & Hd2' & ->).
    { cbn [set_ins ins]. apply list_lookup_insert_eq. by eapply lookup_lt_Some. }
    rewrite sighash_after_assign in Hd2' by done.
    assert (d2' = d2) as -> by congruence.
    unfold set_ins. cbn [version locktime ins outs tx_hash set_script outpoint sequence].
    by rewrite list_insert_insert_eq.
  - by rewrite (sign_None tx i key1 type1 e1 Hx), (sign_None tx i key2 type2 e2 Hx).
Qed.

Lemma signed_input_eq tx ad hm rnd i x :
  ins tx !! i = Some x ->
  signed_input tx ad hm rnd i x
  = match key_for ad hm (outpoint x) with
    | None => x
    | Some key =>
        match hashTransactionForSignature tx (key_script (new_ECKey key)) i SIGHASH_ALL with
        | Ok d => set_script x (createInputScript
                                  (key_sign (new_ECKey key) d (rnd i) ++ [Num SIGHASH_ALL])
                                  (getPub (new_ECKey key)))
        | Throw _ => x
        end
    end.
Proof.
  intros Hx. unfold signed_input. destruct (key_for ad hm (outpoint x)) as [key |]; [| reflexivity].
  destruct (sign_Some tx i key Undefined (rnd i) x Hx) as (d & Hd & ->).
  change (type_or_ALL Undefined) with SIGHASH_ALL in *. rewrite Hd.
  cbn [set_ins ins]. apply nth_lookup_Some.
  apply list_lookup_insert_eq. by eapply lookup_lt_Some.
Qed.

Lemma signed_input_same tx ad hm rnd i x :
  ins tx !! i = Some x ->
  outpoint (signed_input tx ad hm rnd i x) = outpoint x
  /\ sequence (signed_input tx ad hm rnd i x) = sequence x.
Proof.
  intros Hx. rewrite (signed_input_eq tx ad hm rnd i x Hx).
  destruct (key_for ad hm (outpoint x)); [| done]. by destruct (hashTransactionForSignature _ _ _ _).
Qed.

(** The loop of [signWithKeys]: when the inputs before [i] are signed and
    the others are as they were, the loop signs the others. *)
Lemma signWithKeys_from_spec tx ad hm rnd n :
  forall i,
    (n + i = length (ins tx))%nat ->
    signWithKeys_from ad hm rnd n i
      (set_ins tx (take i (imap (signed_input tx ad hm rnd) (ins tx)) ++ drop i (ins tx)))
    = Ok (set_ins tx (imap (signed_input tx ad hm rnd) (ins tx))).
Proof.
  set (L := imap (signed_input tx ad hm rnd) (ins tx)).
  assert (HL : length L = length (ins tx)) by apply length_imap.
  induction n as [| n IH]; intros i Hi; cbn [signWithKeys_from].
  - rewrite take_ge, drop_ge, app_nil_r by lia. reflexivity.
  - destruct (lookup_lt_is_Some_2 (ins tx) i ltac:(lia)) as [x Hx].
    assert (HLi : L !! i = Some (signed_input tx ad hm rnd i x))
      by (unfold L; by rewrite list_lookup_imap, Hx).
    assert (Hcur : (take i L ++ drop i (ins tx)) !! i = Some x).
    { rewrite lookup_app_r by (rewrite length_take; lia).
      rewrite length_take, lookup_drop. replace (i + (i - i `min` length L))%nat with i by lia.
      exact Hx. }
    cbn [set_ins ins]. rewrite Hcur.
    assert (Hnext : forall y, L !! i = Some y ->
              <[i := y]> (take i L ++ drop i (ins tx))
              = take (S i) L ++ drop (S i) (ins tx)).
    { intros y Hy. rewrite (take_S_r L i y Hy), <- app_assoc. cbn [app].
      rewrite insert_app_r_alt by (rewrite length_take; lia).
      rewrite length_take. replace (i - i `min` length L)%nat with 0%nat by lia.
      rewrite (drop_S (ins tx) x i Hx). reflexivity. }
    pose proof (signed_input_eq tx ad hm rnd i x Hx) as Heq.
    destruct (key_for ad hm (outpoint x)) as [key |] eqn:Hkey.
    + set (cur := set_ins tx (take i L ++ drop i (ins tx))).
      destruct (sign_Some cur i key Undefined (rnd i) x Hcur) as (d & Hd & ->).
      change (type_or_ALL Undefined) with SIGHASH_ALL in *. cbn [bind].
      assert (Hsame : hashTransactionForSignature cur (key_script (new_ECKey key)) i
                        SIGHASH_ALL
                      = hashTransactionForSignature tx (key_script (new_ECKey key)) i
                          SIGHASH_ALL).
      { apply hashTransactionForSignature_agree. apply sighash_txTmp_agree; try done.
        - unfold cur. cbn [set_ins ins]. rewrite length_app, length_take, length_drop. lia.
        - unfold cur. cbn [set_ins ins]. intros k y y' Hy Hy'.
          destruct (decide (k < i)%nat) as [Hlt | Hge].
          + rewrite lookup_app_l in Hy by (rewrite length_take; lia).
            rewrite lookup_take_lt in Hy by done.
            unfold L in Hy. rewrite list_lookup_imap, Hy' in Hy. injection Hy as <-.
            by destruct (signed_input_same tx ad hm rnd k y' Hy') as [-> ->].
          + rewrite lookup_app_r in Hy by (rewrite length_take; lia).
            rewrite length_take, lookup_drop in Hy.
            replace (i + (k - i `min` length L))%nat with k in Hy by lia.
            by simplify_eq. }
      rewrite Hsame in Hd. rewrite Hd in Heq.
      unfold cur. cbn [set_ins ins version locktime outs tx_hash].
      rewrite <- Heq, (Hnext _ HLi).
      specialize (IH (S i) ltac:(lia)). exact IH.
    + assert (E : take i L ++ drop i (ins tx) = take (S i) L ++ drop (S i) (ins tx)).
      { rewrite <- (Hnext x) by (by rewrite HLi, Heq).
        symmetry. apply list_insert_id. exact Hcur. }
      rewrite E. apply IH. lia.
Qed.

(** On values: what [signWithKeys] returns, input by input. *)
Lemma signWithKeys_values tx keys outputs type rnd :
  exists tx',
    signWithKeys tx keys outputs type rnd = Ok tx'
    /\ version tx' = version tx /\ locktime tx' = locktime tx
    /\ outs tx' = outs tx /\ tx_hash tx' = tx_hash tx
    /\ length (ins tx') = length (ins tx)
    /\ forall i x,
         ins tx !! i = Some x ->
         match key_for (addrdata_of keys) (hmap_of outputs) (outpoint x) with
         | None => ins tx' !! i = Some x
         | Some key =>
             exists d,
               hashTransactionForSignature tx (key_script (new_ECKey key)) i SIGHASH_ALL
               = Ok d
               /\ ins tx' !! i
                  = Some (set_script x
                            (createInputScript
                               (key_sign (new_ECKey key) d (rnd i) ++ [Num SIGHASH_ALL])
                               (getPub (new_ECKey key))))
         end.
Proof.
  eexists. split.
  { unfold signWithKeys.
    pose proof (signWithKeys_from_spec tx (addrdata_of keys) (hmap_of outputs) rnd
                  (length (ins tx)) 0%nat ltac:(lia)) as Hloop.
    rewrite take_0, drop_0 in Hloop. cbn [app] in Hloop.
    replace (set_ins tx (ins tx)) with tx in Hloop by (by destruct tx). exact Hloop. }
  cbn [set_ins version locktime outs tx_hash ins].
  repeat (split; [reflexivity |]). split; [apply length_imap |].
  intros i x Hx. rewrite list_lookup_imap, Hx. cbn [fmap option_fmap option_map].
  rewrite (signed_input_eq tx _ _ rnd i x Hx).
  destruct (key_for _ _ (outpoint x)) as [key |]; [| reflexivity].
  destruct (hashTransactionForSignature_returns tx (key_script (new_ECKey key)) i
              SIGHASH_ALL) as [d Hd]; [by eapply lookup_lt_Some |].
  exists d. by rewrite Hd.
Qed.

(** X24: installing a script on an input, by [sign] or by
    [applyMultisigs], does not change what is signed or checked for any
    input afterwards: on the transaction that is returned, [validateSig]
    gives the same answer and [p2shsign] the same signature as on the
    transaction before. *)
Theorem validateSig_after_sign tx j key type e redeem sigs tx' i script :
  sign tx j key type e = Ok tx' \/ applyMultisigs tx j redeem sigs = Ok tx' ->
  (forall sig pub, validateSig tx' i script sig pub = validateSig tx i script sig pub)
  /\ (forall key' type' e',
         p2shsign tx' i script key' type' e' = p2shsign tx i script key' type' e').
Proof.
  intros Hs.
  assert (Hd : forall cs ht, hashTransactionForSignature tx' cs i ht
                             = hashTransactionForSignature tx cs i ht).
  { intros cs ht. destruct Hs as [Hs | Hs].
    - by eapply sign_digest.
    - by eapply assign_script_digest. }
  split.
  - intros sig pub. unfold validateSig. by rewrite Hd.
  - intros key' type' e'. unfold p2shsign. by rewrite Hd.
Qed.

(** X25: the round trip of signing and validation, for collaborators whose
    [verify] accepts what [sign] makes of a digest under the public key of
    the key (both as bytes), and for the hash type ALL (the one
    [validateSig] hashes with):
    the script that [sign] installs is made from a signature followed by
    the byte 1 and from the public key, and [validateSig], on the signed
    transaction, with the script of the key's address, accepts that
    signature; it also accepts the signature that [p2shsign] returns for a
    script, less its last byte. *)
Theorem sign_then_validateSig tx i key type e :
  (forall k d r,
      ECDSA_verify d (coerceToBytes (key_sign k d r)) (coerceToBytes (getPub k)) = true) ->
  type_or_ALL type = SIGHASH_ALL ->
  (forall tx',
      sign tx i key type e = Ok tx' ->
      exists x sig,
        ins tx !! i = Some x
        /\ ins tx' !! i
           = Some (set_script x (createInputScript (sig ++ [Num SIGHASH_ALL])
                                                   (getPub (new_ECKey key))))
        /\ validateSig tx' i (buffer (key_script (new_ECKey key))) sig
                        (getPub (new_ECKey key)) = Ok true)
  /\ (forall script sig,
         p2shsign tx i script key type e = Ok sig ->
         validateSig tx i script (removelast sig) (getPub (new_ECKey key)) = Ok true).
Proof.
  intros Hverify Htype. split.
  - intros tx' Hs.
    destruct (ins tx !! i) as [x |] eqn:Hx; [| by rewrite sign_None in Hs].
    destruct (sign_Some tx i key type e x Hx) as (d & Hd & Heq).
    rewrite Htype in Hd, Heq.
    exists x, (key_sign (new_ECKey key) d e). split; [reflexivity |].
    assert (Hdig := sign_digest _ _ _ _ _ _ (key_script (new_ECKey key)) i SIGHASH_ALL Hs).
    rewrite Heq in Hs. injection Hs as <-. split.
    + cbn [set_ins ins]. apply list_lookup_insert_eq. by eapply lookup_lt_Some.
    + unfold validateSig.
      replace (new_Script (Some (buffer (key_script (new_ECKey key)))))
        with (key_script (new_ECKey key)) by (by destruct (key_script _)).
      change 1 with SIGHASH_ALL. rewrite Hdig, Hd. cbn [bind].
      by rewrite Hverify.
  - intros script sig. unfold p2shsign, validateSig. rewrite Htype.
    change 1 with SIGHASH_ALL.
    destruct (hashTransactionForSignature tx _ i SIGHASH_ALL) as [d |]; [| discriminate].
    cbn [bind]. intros [= <-]. by rewrite removelast_last, Hverify.
Qed.

End SigningProperties.

Lemma validateSig_after_sign_witness :
  exists tx',
    sign (collaborators := toy) two_inputs 1 [Num 3] Undefined tt = Ok tx'
    /\ (forall sig pub,
           validateSig (collaborators := toy) tx' 0 [Num 1] sig pub
           = validateSig (collaborators := toy) two_inputs 0 [Num 1] sig pub)
    /\ (forall key' type' e',
           p2shsign (collaborators := toy) tx' 0 [Num 1] key' type' e'
           = p2shsign (collaborators := toy) two_inputs 0 [Num 1] key' type' e').
Proof.
  eexists. split; [vm_compute; reflexivity |].
  apply (validateSig_after_sign (collaborators := toy) two_inputs 1 [Num 3] Undefined tt
           a_script []).
  left. vm_compute. reflexivity.
Defined.

Lemma sign_then_validateSig_witness :
  (forall tx',
      sign (collaborators := toy) golden 0 [Num 2] Undefined tt = Ok tx' ->
      exists x sig,
        ins golden !! 0%nat = Some x
        /\ ins tx' !! 0%nat
           = Some (set_script x (createInputScript (Collaborators := toy)
                                   (sig ++ [Num SIGHASH_ALL])
                                   (getPub (new_ECKey (Collaborators := toy) [Num 2]))))
        /\ validateSig (collaborators := toy) tx' 0
             (buffer (key_script (new_ECKey (Collaborators := toy) [Num 2]))) sig
             (getPub (new_ECKey (Collaborators := toy) [Num 2])) = Ok true)
  /\ (forall script sig,
         p2shsign (collaborators := toy) golden 0 script [Num 2] Undefined tt = Ok sig ->
         validateSig (collaborators := toy) golden 0 script (removelast sig)
           (getPub (new_ECKey (Collaborators := toy) [Num 2])) = Ok true).
Proof.
  apply (sign_then_validateSig (collaborators := toy) golden 0 [Num 2] Undefined tt).
  - intros k d r. simpl. apply bool_decide_eq_true_2. reflexivity.
  - reflexivity.
Defined.

(** ** [sign] on the store *)

Lemma run_put_script st s :
  h_put_script s st = (Ok (length (scripts st)), add_script (buffer s) st).
Proof. reflexivity. Qed.

Lemma snap_put_script st s : snap_script (add_script (buffer s) st) (length (scripts st)) = Some s.
Proof. rewrite snap_add_script. by destruct s. Qed.

Lemma frame_hash {ins_w txs_w st st'} (Hf : frame ins_w txs_w st st') a h :
  snap_hash st a = Some h -> snap_hash st' a = Some h.
Proof.
  destruct a as [a |]; [| done]. cbn.
  destruct (arrays st !! a) as [e |] eqn:He; [| discriminate].
  by rewrite (prefix_lookup_Some _ _ _ _ He (fr_arrays _ _ _ _ Hf)).
Qed.

Section SigningStore.

Context {collaborators : Collaborators}.

(** [sign] on the store at an input of the transaction. *)
Lemma run_sign_Some st this tx o index key type e x :
  snap_tx st this = Some tx -> txs st !! this = Some o -> NoDup (o_ins o) ->
  ins tx !! index = Some x ->
  exists st' l tx',
    o_ins o !! index = Some l
    /\ h_sign this index key type e st = (Ok tt, st')
    /\ frame [l] [] st st'
    /\ sign tx index key type e = Ok tx'
    /\ snap_tx st' this = Some tx'
    /\ txs st' !! this = Some o.
Proof.
  intros Htx Ho Hnd Hx.
  destruct (snap_tx_inv st this tx Htx) as (o' & Ho' & Hv & Hk & Hins & Houts & Hh).
  rewrite Ho in Ho'. injection Ho' as <-.
  set (k := new_ECKey key). set (cs := key_script k). set (t := type_or_ALL type).
  pose proof (frame_add_script st (buffer cs)) as Hf1.
  set (st1 := add_script (buffer cs) st) in *.
  assert (Htx1 : snap_tx st1 this = Some tx)
    by (apply (frame_tx Hf1); [constructor | constructor | done]).
  destruct (run_hashTransactionForSignature st1 this (length (scripts st)) index t tx cs
              Htx1 (snap_put_script st cs)) as (st2 & Hrun & Hf2).
  assert (Hf12 : frame [] [] st st2) by (eapply frame_trans; [exact Hf1 | exact Hf2]).
  destruct (sign_Some tx index key type e x Hx) as (d & Hd & Hsign). fold k cs t in Hd, Hsign.
  rewrite Hd in Hrun.
  set (s := createInputScript (key_sign k d e ++ [Num t]) (getPub k)) in *.
  pose proof (frame_add_script st2 (buffer s)) as Hf3.
  set (st3 := add_script (buffer s) st2) in *.
  assert (Hf13 : frame [] [] st st3) by (eapply frame_trans; [exact Hf12 | exact Hf3]).
  assert (Ho3 : txs st3 !! this = Some o)
    by (apply (fr_txs _ _ _ _ Hf13); [by intros ?%elem_of_nil | done]).
  destruct (Forall2_lookup_r _ _ _ _ _ Hins Hx) as (l & Hl & Hxl).
  assert (Hx3 : snap_in st3 l = Some x)
    by (apply (frame_in Hf13); [by intros ?%elem_of_nil | done]).
  destruct (run_set_script st3 l x (length (scripts st2)) s Hx3 (snap_put_script st2 s))
    as (st4 & Hrun4 & Hf4 & Hx4).
  exists st4, l, (set_ins tx (<[index := set_script x s]> (ins tx))).
  split; [exact Hl |]. split.
  { unfold h_sign. fold k cs t.
    rewrite (mbind_run _ _ _ _ _ (run_put_script st cs)). fold st1.
    erewrite mbind_run by exact Hrun. fold s.
    rewrite (mbind_run _ _ _ _ _ (run_put_script st2 s)). fold st3.
    erewrite mbind_run by (apply run_load, Ho3). rewrite Hl. exact Hrun4. }
  split.
  { eapply frame_trans; [| exact Hf4].
    eapply frame_weaken; [| | exact Hf13]; [by intros ? ?%elem_of_nil | done]. }
  split; [exact Hsign |]. split.
  - pose proof (snap_tx_intro st4 this o (<[index := set_script x s]> (ins tx)) (outs tx)
                  (tx_hash tx)) as Hsnap.
    rewrite Hv, Hk in Hsnap. apply Hsnap.
    + apply (fr_txs _ _ _ _ Hf4); [by intros ?%elem_of_nil | done].
    + apply Forall2_same_length_lookup. split.
      * rewrite length_insert. by eapply Forall2_length.
      * intros j l' x' Hl' Hx'.
        destruct (decide (j = index)) as [-> | Hne].
        -- rewrite list_lookup_insert_eq in Hx' by (by eapply lookup_lt_Some).
           rewrite Hl in Hl'. by simplify_eq.
        -- rewrite list_lookup_insert_ne in Hx' by done.
           apply (frame_in Hf4).
           ++ intros ->%list_elem_of_singleton.
              apply Hne. exact (NoDup_lookup _ _ _ _ Hnd Hl' Hl).
           ++ apply (frame_in Hf13); [by intros ?%elem_of_nil |].
              eapply (Forall2_lookup_lr (fun l x => snap_in st l = Some x));
                [exact Hins | exact Hl' | exact Hx'].
    + apply (frame_outs Hf4), (frame_outs Hf13), Houts.
    + apply (frame_hash Hf4), (frame_hash Hf13), Hh.
  - apply (fr_txs _ _ _ _ Hf4); [by intros ?%elem_of_nil | done].
Qed.

(** X26: [sign] on the store, for a transaction whose inputs are distinct
    objects: the call assigns to the input object at [index] and to nothing
    else that existed (to nothing when there is no such input, where it
    raises [TypeError]), and the transaction reads afterwards as the
    value-level [sign] says. *)
Theorem sign_refines st this tx o index key type e :
  snap_tx st this = Some tx -> txs st !! this = Some o -> NoDup (o_ins o) ->
  exists st',
    h_sign this index key type e st
    = (match sign tx index key type e with
       | Ok _ => Ok tt
       | Throw err => Throw err
       end, st')
    /\ frame (option_list (o_ins o !! index)) [] st st'
    /\ snap_tx st' this
       = Some (match sign tx index key type e with
               | Ok tx' => tx'
               | Throw _ => tx
               end).
Proof.
  intros Htx Ho Hnd.
  destruct (ins tx !! index) as [x |] eqn:Hx.
  - destruct (run_sign_Some st this tx o index key type e x Htx Ho Hnd Hx)
      as (st' & l & tx' & Hl & Hrun & Hf & Hsign & Hsnap & _).
    exists st'. rewrite Hsign, Hl. cbn [option_list].
    split; [exact Hrun |]. split; [exact Hf | exact Hsnap].
  - destruct (snap_tx_inv st this tx Htx) as (o' & Ho' & _ & _ & Hins & _).
    rewrite Ho in Ho'. injection Ho' as <-.
    set (k := new_ECKey key). set (cs := key_script k). set (t := type_or_ALL type).
    pose proof (frame_add_script st (buffer cs)) as Hf1.
    set (st1 := add_script (buffer cs) st) in *.
    assert (Htx1 : snap_tx st1 this = Some tx)
      by (apply (frame_tx Hf1); [constructor | constructor | done]).
    destruct (run_hashTransactionForSignature st1 this (length (scripts st)) index t tx cs
                Htx1 (snap_put_script st cs)) as (st2 & Hrun & Hf2).
    assert (Hf12 : frame [] [] st st2) by (eapply frame_trans; [exact Hf1 | exact Hf2]).
    rewrite (sign_None tx index key type e Hx).
    assert (Hthrow : hashTransactionForSignature tx cs index t = Throw TypeError).
    { unfold hashTransactionForSignature, sighash_buffer.
      by rewrite (sighash_txTmp_None _ _ _ _ Hx). }
    rewrite Hthrow in Hrun.
    assert (Hl : o_ins o !! index = None).
    { apply lookup_ge_None. rewrite (Forall2_length _ _ _ Hins). by apply lookup_ge_None. }
    rewrite Hl. cbn [option_list]. exists st2. split.
    { unfold h_sign. fold k cs t.
      rewrite (mbind_run _ _ _ _ _ (run_put_script st cs)). fold st1.
      by erewrite mbind_throw by exact Hrun. }
    split; [exact Hf12 |]. apply (frame_tx Hf12); [constructor | constructor | done].
Qed.

(** Two calls of [sign] in a row, at inputs of the transaction. *)
Lemma run_sign_twice st this tx o i j key1 type1 e1 key2 type2 e2 :
  snap_tx st this = Some tx -> txs st !! this = Some o -> NoDup (o_ins o) ->
  (i < length (o_ins o))%nat -> (j < length (o_ins o))%nat ->
  exists st' tx1 tx2,
    (let! _ := h_sign this i key1 type1 e1 in h_sign this j key2 type2 e2) st = (Ok tt, st')
    /\ sign tx i key1 type1 e1 = Ok tx1 /\ sign tx1 j key2 type2 e2 = Ok tx2
    /\ snap_tx st' this = Some tx2.
Proof.
  intros Htx Ho Hnd Hi Hj.
  destruct (snap_tx_inv st this tx Htx) as (o' & Ho' & _ & _ & Hins & _).
  rewrite Ho in Ho'. injection Ho' as <-.
  rewrite (Forall2_length _ _ _ Hins) in Hi, Hj.
  destruct (lookup_lt_is_Some_2 _ _ Hi) as [x Hx].
  destruct (run_sign_Some st this tx o i key1 type1 e1 x Htx Ho Hnd Hx)
    as (st1 & l1 & tx1 & _ & Hrun1 & _ & Hsign1 & Hsnap1 & Ho1).
  assert (Hlen : length (ins tx1) = length (ins tx)).
  { destruct (sign_Some tx i key1 type1 e1 x Hx) as (d & _ & Heq).
    rewrite Heq in Hsign1. injection Hsign1 as <-. cbn [set_ins ins]. apply length_insert. }
  destruct (lookup_lt_is_Some_2 (ins tx1) j ltac:(lia)) as [y Hy].
  destruct (run_sign_Some st1 this tx1 o j key2 type2 e2 y Hsnap1 Ho1 Hnd Hy)
    as (st2 & l2 & tx2 & _ & Hrun2 & _ & Hsign2 & Hsnap2 & _).
  exists st2, tx1, tx2. split; [by erewrite mbind_run by exact Hrun1 |].
  by repeat split.
Qed.

(** X21: on the store, for a transaction whose inputs are distinct objects,
    signing two different inputs of it gives the same transaction in either
    order (with the same keys, hash types and entropy): the digest that is
    signed for one input does not depend on the script that [sign] has
    installed on the other. *)
Theorem sign_commute st this tx o i j key1 type1 e1 key2 type2 e2 :
  snap_tx st this = Some tx -> txs st !! this = Some o -> NoDup (o_ins o) ->
  i <> j -> (i < length (o_ins o))%nat -> (j < length (o_ins o))%nat ->
  exists st1 st2 tx',
    (let! _ := h_sign this i key1 type1 e1 in h_sign this j key2 type2 e2) st
    = (Ok tt, st1)
    /\ (let! _ := h_sign this j key2 type2 e2 in h_sign this i key1 type1 e1) st
       = (Ok tt, st2)
    /\ snap_tx st1 this = Some tx' /\ snap_tx st2 this = Some tx'
    /\ (let* t := sign tx i key1 type1 e1 in sign t j key2 type2 e2) = Ok tx'.
Proof.
  intros Htx Ho Hnd Hne Hi Hj.
  destruct (run_sign_twice st this tx o i j key1 type1 e1 key2 type2 e2 Htx Ho Hnd Hi Hj)
    as (st1 & ta & tab & Hrun1 & Ha & Hab & Hsnap1).
  destruct (run_sign_twice st this tx o j i key2 type2 e2 key1 type1 e1 Htx Ho Hnd Hj Hi)
    as (st2 & tb & tba & Hrun2 & Hb & Hba & Hsnap2).
  pose proof (sign_commute_values tx i j key1 type1 e1 key2 type2 e2 Hne) as Hc.
  rewrite Ha, Hb in Hc. cbn [bind] in Hc. rewrite Hab, Hba in Hc. injection Hc as <-.
  exists st1, st2, tab. split; [exact Hrun1 |]. split; [exact Hrun2 |].
  split; [exact Hsnap1 |]. split; [exact Hsnap2 |]. by rewrite Ha.
Qed.

(** The loop of [signWithKeys] on the store does what it does on values. *)
Lemma run_signWithKeys_from ad hm rnd this o :
  NoDup (o_ins o) ->
  forall n i st cur,
    snap_tx st this = Some cur -> txs st !! this = Some o ->
    exists st' tx',
      h_signWithKeys_from ad hm rnd n i this st = (Ok tt, st')
      /\ signWithKeys_from ad hm rnd n i cur = Ok tx'
      /\ snap_tx st' this = Some tx'
      /\ frame (o_ins o) [] st st'.
Proof.
  intros Hnd. induction n as [| n IH]; intros i st cur Hcur Ho.
  - exists st, cur. repeat split; try done.
  - destruct (snap_tx_inv st this cur Hcur) as (o' & Ho' & _ & _ & Hins & _).
    rewrite Ho in Ho'. injection Ho' as <-.
    cbn [h_signWithKeys_from signWithKeys_from].
    erewrite mbind_run by (apply run_load, Ho).
    destruct (o_ins o !! i) as [l |] eqn:Hl.
    + destruct (Forall2_lookup_l _ _ _ _ _ Hins Hl) as (x & Hx & Hxl).
      destruct (snap_in_inv _ _ _ Hxl) as (oi & Hoi & Hop & _).
      rewrite Hx.
      erewrite mbind_run by (apply run_load, Hoi).
      erewrite mbind_run by (apply run_load, Hop).
      destruct (key_for ad hm (outpoint x)) as [key |].
      * destruct (run_sign_Some st this cur o i key Undefined (rnd i) x Hcur Ho Hnd Hx)
          as (st1 & l' & tx1 & Hl' & Hrun & Hf & Hsign & Hsnap & Ho1).
        rewrite Hl in Hl'. injection Hl' as <-.
        destruct (IH (S i) st1 tx1 Hsnap Ho1) as (st' & tx' & Hloop & Hval & Hsnap' & Hf').
        exists st', tx'. rewrite Hsign. cbn [bind].
        split; [by erewrite mbind_run by exact Hrun |]. split; [exact Hval |].
        split; [exact Hsnap' |].
        eapply frame_trans; [| exact Hf'].
        eapply frame_weaken; [| | exact Hf]; [| done].
        intros ? ->%list_elem_of_singleton. by eapply list_elem_of_lookup_2.
      * apply IH; done.
    + assert (Hx : ins cur !! i = None).
      { apply lookup_ge_None. rewrite <- (Forall2_length _ _ _ Hins).
        by apply lookup_ge_None. }
      rewrite Hx. exists st, cur. repeat split; try done.
Qed.

(** X23: on the store, for a transaction whose inputs are distinct objects,
    [signWithKeys] returns (it raises no error) and assigns to input
    objects of the transaction only, of which it changes the scripts.
    An input whose outpoint has no record in [outputs], or whose record
    names the address of none of the keys, is left as it is.  Every other
    input gets the script that the factory makes from the signature, by the
    first key with that address, of the digest of the transaction as it
    was before the call, for hash type ALL whatever [type] is, followed by
    the byte 1. *)
Theorem signWithKeys_inputs st this tx o keys outputs type rnd :
  snap_tx st this = Some tx -> txs st !! this = Some o -> NoDup (o_ins o) ->
  exists st' tx',
    h_signWithKeys this keys outputs type rnd st = (Ok tt, st')
    /\ frame (o_ins o) [] st st'
    /\ snap_tx st' this = Some tx'
    /\ version tx' = version tx /\ locktime tx' = locktime tx
    /\ outs tx' = outs tx /\ tx_hash tx' = tx_hash tx
    /\ length (ins tx') = length (ins tx)
    /\ forall i x,
         ins tx !! i = Some x ->
         match key_for (addrdata_of keys) (hmap_of outputs) (outpoint x) with
         | None => ins tx' !! i = Some x
         | Some key =>
             exists d,
               hashTransactionForSignature tx (key_script (new_ECKey key)) i SIGHASH_ALL
               = Ok d
               /\ ins tx' !! i
                  = Some (set_script x
                            (createInputScript
                               (key_sign (new_ECKey key) d (rnd i) ++ [Num SIGHASH_ALL])
                               (getPub (new_ECKey key))))
         end.
Proof.
  intros Htx Ho Hnd.
  destruct (snap_tx_inv st this tx Htx) as (o' & Ho' & _ & _ & Hins & _).
  rewrite Ho in Ho'. injection Ho' as <-.
  destruct (run_signWithKeys_from (addrdata_of keys) (hmap_of outputs) rnd this o Hnd
              (length (o_ins o)) 0%nat st tx Htx Ho)
    as (st' & tx' & Hloop & Hval & Hsnap & Hf).
  destruct (signWithKeys_values tx keys outputs type rnd) as (tx'' & Hval' & Hrest).
  unfold signWithKeys in Hval'. rewrite <- (Forall2_length _ _ _ Hins), Hval in Hval'.
  injection Hval' as <-.
  exists st', tx'. split.
  { unfold h_signWithKeys. erewrite mbind_run by (apply run_load, Ho). exact Hloop. }
  split; [exact Hf |]. split; [exact Hsnap | exact Hrest].
Qed.

End SigningStore.

Lemma sign_refines_witness :
  exists st',
    h_sign (collaborators := toy) 0%nat 0 [Num 2] Undefined tt golden_store
    = (match sign (collaborators := toy) golden 0 [Num 2] Undefined tt with
       | Ok _ => Ok tt
       | Throw err => Throw err
       end, st')
    /\ frame (option_list (o_ins golden_obj !! 0%nat)) [] golden_store st'
    /\ snap_tx st' 0%nat
       = Some (match sign (collaborators := toy) golden 0 [Num 2] Undefined tt with
               | Ok tx' => tx'
               | Throw _ => golden
               end).
Proof.
  apply (sign_refines (collaborators := toy) golden_store 0%nat golden golden_obj 0
           [Num 2] Undefined tt); [reflexivity | reflexivity |].
  simpl. apply NoDup_singleton.
Defined.

(** ** Counts, outputs and the constructor *)

(** X27: after a first byte [b] of 253, 254 or 255, [readVarInt] reads
    [b - 251] bytes as a little-endian number: two after 0xFD, but three
    after 0xFE and four after 0xFF (where the CompactSize has four and
    eight), and it leaves the cursor behind them. *)
Theorem readVarInt_width pre b z rem :
  253 <= b <= 255 -> 0 <= z < 256 ^ (b - 251) ->
  readVarInt (pre ++ Num b :: map Num (convert.le_bytes z (Z.to_nat (b - 251))) ++ rem)
             (Num (Z.of_nat (length pre)))
  = Ok (Num z, Num (Z.of_nat (length pre) + 1 + (b - 251))).
Proof.
  intros Hb Hz.
  set (buf := pre ++ _).
  assert (Hv : view buf (Z.of_nat (length pre))
                 (Num b :: map Num (convert.le_bytes z (Z.to_nat (b - 251))) ++ rem))
    by apply view_end.
  unfold readVarInt. cbn [jadd jsub].
  replace (Z.of_nat (length pre) + 1 - 1) with (Z.of_nat (length pre)) by lia.
  rewrite (view_jget _ _ _ _ Hv). cbn [jlt jsub].
  destruct (Z.ltb_spec b 253); [lia |]. unfold readAsInt_val.
  destruct (Z.ltb_spec (b - 251) 0); [lia |].
  rewrite (readAsInt_view buf (Z.to_nat (b - 251)) z (Z.of_nat (length pre) + 1) rem).
  - do 3 f_equal. lia.
  - by rewrite Z2Nat.id by lia.
  - exact (view_cons _ _ _ _ Hv).
Qed.

Lemma readVarInt_width_witness :
  readVarInt ([Num 1] ++ Num 254 :: map Num (convert.le_bytes 70000 (Z.to_nat (254 - 251)))
              ++ [Num 9])
             (Num (Z.of_nat (length [Num 1])))
  = Ok (Num 70000, Num (Z.of_nat (length [Num 1]) + 1 + (254 - 251))).
Proof. apply (readVarInt_width [Num 1] 254 70000 [Num 9]); simpl; lia. Defined.

(** X28: a [TransactionOut] built from a script in lower-case hex and a
    value given as its eight little-endian bytes (a value below 2^53) has
    that value as a number and that string as its [scriptPubKey]; it is
    written back by [serialize] as the same eight bytes, the script length
    and the script bytes, and its clone is equal to it. *)
Theorem TransactionOut_of_hex hex z :
  hex_ok hex = true -> 0 <= z < 9007199254740992 ->
  exists txout,
    new_TransactionOut {| d_script := ScriptHex hex;
                          d_value := ValueArray (map Num (convert.le_bytes z 8)) |}
    = txout
    /\ value txout = Num z
    /\ scriptPubKey txout = hex
    /\ serialize_out txout
       = map Num (convert.le_bytes z 8)
         ++ convert.numToVarInt (Z.of_nat (length (convert.hexToBytes hex)))
         ++ convert.hexToBytes hex
    /\ TransactionOut_clone txout = txout.
Proof.
  intros Hhex Hz. eexists. split; [reflexivity |].
  unfold new_TransactionOut, scriptPubKey, serialize_out, TransactionOut_clone.
  cbn [d_script d_value value out_script new_Script buffer Script_clone
       new_TransactionOut].
  rewrite bytesToNum_le_bytes by (change (256 ^ Z.of_nat 8) with 18446744073709551616; lia).
  rewrite bytesToHex_hexToBytes by done. repeat split.
Qed.

Lemma TransactionOut_of_hex_witness :
  exists txout,
    new_TransactionOut {| d_script := ScriptHex "76a988ac";
                          d_value := ValueArray (map Num (convert.le_bytes 5000 8)) |}
    = txout
    /\ value txout = Num 5000
    /\ scriptPubKey txout = "76a988ac"%string
    /\ serialize_out txout
       = map Num (convert.le_bytes 5000 8)
         ++ convert.numToVarInt (Z.of_nat (length (convert.hexToBytes "76a988ac")))
         ++ convert.hexToBytes "76a988ac"
    /\ TransactionOut_clone txout = txout.
Proof. apply (TransactionOut_of_hex "76a988ac" 5000); [reflexivity | lia]. Defined.

(** X29: the constructor keeps a hash that the document supplies, without
    comparing it with the content; without one it stores the hash that
    [getHash] computes for the transaction it has built, whose inputs and
    outputs are those of the document in their order. *)
Theorem new_Transaction_hash d :
  (forall h, doc_hash d = Some h -> tx_hash (new_Transaction (Some d)) = Some h)
  /\ (doc_hash d = None ->
      tx_hash (new_Transaction (Some d)) = Some (getHash (new_Transaction (Some d))))
  /\ ins (new_Transaction (Some d)) = map new_TransactionIn (doc_ins d)
  /\ outs (new_Transaction (Some d)) = map new_TransactionOut (doc_outs d).
Proof.
  unfold new_Transaction. rewrite fold_push_in, fold_push_out.
  cbn [set_ins set_outs set_hash version locktime ins outs tx_hash app].
  split; [| split; [| split; reflexivity]].
  - by intros h ->.
  - by intros ->.
Qed.

Lemma two_inputs_store_NoDup : NoDup (o_ins two_inputs_obj).
Proof.
  apply NoDup_cons. split; [| apply NoDup_singleton].
  intros H%list_elem_of_singleton. discriminate.
Qed.

Lemma sign_commute_witness :
  exists st1 st2 tx',
    (let! _ := h_sign (collaborators := toy) 0%nat 0 [Num 2] Undefined tt in
     h_sign (collaborators := toy) 0%nat 1 [Num 3] (Num 2) tt) two_inputs_store
    = (Ok tt, st1)
    /\ (let! _ := h_sign (collaborators := toy) 0%nat 1 [Num 3] (Num 2) tt in
        h_sign (collaborators := toy) 0%nat 0 [Num 2] Undefined tt) two_inputs_store
       = (Ok tt, st2)
    /\ snap_tx st1 0%nat = Some tx' /\ snap_tx st2 0%nat = Some tx'
    /\ (let* t := sign (collaborators := toy) two_inputs 0 [Num 2] Undefined tt in
        sign (collaborators := toy) t 1 [Num 3] (Num 2) tt) = Ok tx'.
Proof.
  apply (sign_commute (collaborators := toy) two_inputs_store 0%nat two_inputs
           two_inputs_obj 0 1 [Num 2] Undefined tt [Num 3] (Num 2) tt);
    [reflexivity | reflexivity | apply two_inputs_store_NoDup | lia | simpl; lia
    | simpl; lia].
Defined.

Lemma signWithKeys_inputs_witness :
  exists st' tx',
    h_signWithKeys (collaborators := toy) 0%nat [[Num 2]]
      [second_history]
      Undefined (fun _ => tt) two_inputs_store = (Ok tt, st')
    /\ frame (o_ins two_inputs_obj) [] two_inputs_store st'
    /\ snap_tx st' 0%nat = Some tx'
    /\ version tx' = version two_inputs /\ locktime tx' = locktime two_inputs
    /\ outs tx' = outs two_inputs /\ tx_hash tx' = tx_hash two_inputs
    /\ length (ins tx') = length (ins two_inputs)
    /\ forall i x,
         ins two_inputs !! i = Some x ->
         match key_for (collaborators := toy) (addrdata_of (collaborators := toy) [[Num 2]])
                 (hmap_of
                    [second_history])
                 (outpoint x) with
         | None => ins tx' !! i = Some x
         | Some key =>
             exists d,
               hashTransactionForSignature two_inputs
                 (key_script (collaborators := toy) (new_ECKey (Collaborators := toy) key))
                 i SIGHASH_ALL
               = Ok d
               /\ ins tx' !! i
                  = Some (set_script x
                            (createInputScript (Collaborators := toy)
                               (key_sign (Collaborators := toy)
                                  (new_ECKey (Collaborators := toy) key) d tt
                                ++ [Num SIGHASH_ALL])
                               (getPub (new_ECKey (Collaborators := toy) key))))
         end.
Proof.
  apply (signWithKeys_inputs (collaborators := toy) two_inputs_store 0%nat two_inputs
           two_inputs_obj [[Num 2]]
           [second_history]
           Undefined (fun _ => tt));
    [reflexivity | reflexivity | apply two_inputs_store_NoDup].
Defined.

(** The record of the witness is that of the second input, and the key is
    taken for it. *)
Example signWithKeys_witness_key :
  map (fun x => key_for (collaborators := toy) (addrdata_of (collaborators := toy) [[Num 2]])
                  (hmap_of
                     [second_history])
                  (outpoint x))
      (ins two_inputs)
  = [None; Some [Num 2]].
Proof. reflexivity. Qed.

(** ** [clone]: the inputs of the copy *)

(** X30: the inputs of the transaction that [clone] returns are objects of
    their own: assigning a script to the [script] field of any of them
    (as [hashTransactionForSignature] does on its clone) changes that input
    of the clone and leaves the original transaction as it read before the
    clone was made. *)
Theorem clone_input_isolation st this tx :
  snap_tx st this = Some tx ->
  exists st' o',
    h_clone this st = (Ok (length (txs st)), st')
    /\ txs st' !! length (txs st) = Some o'
    /\ Forall2 (fun l' x =>
                  forall cs s,
                    snap_script st' cs = Some s ->
                    exists st'',
                      update_in l' (in_set_script cs) st' = (Ok tt, st'')
                      /\ snap_in st'' l' = Some (set_script (TransactionIn_clone x) s)
                      /\ snap_tx st'' this = Some tx)
               (o_ins o') (ins tx).
Proof.
  intros H.
  destruct (run_clone st this tx H)
    as (st' & o' & Hclone & Hfr & Ho' & _ & _ & _ & Hins' & _ & _ & Hfresh & _).
  exists st', o'. split; [exact Hclone |]. split; [exact Ho' |].
  apply Forall2_fmap_r in Hins'.
  apply Forall2_same_length_lookup. split; [by eapply Forall2_length |].
  intros k l' x Hl' Hx cs s Hs.
  pose proof (Forall2_lookup_lr _ _ _ _ _ _ Hins' Hl' Hx) as Hsnap. cbn in Hsnap.
  destruct (run_set_script st' l' _ cs s Hsnap Hs) as (st'' & Hrun & Hf & Hx'').
  exists st''. split; [exact Hrun |]. split; [exact Hx'' |].
  assert (Hf' : frame [l'] [] st st'').
  { eapply frame_trans; [| exact Hf].
    eapply frame_weaken; [| | exact Hfr]; [by intros ? ?%elem_of_nil | done]. }
  apply (frame_tx Hf'); [| constructor | exact H].
  constructor; [| constructor].
  exact (Forall_lookup_1 _ _ _ _ Hfresh Hl').
Qed.

Lemma clone_input_isolation_witness :
  exists st' o',
    h_clone 0%nat golden_store = (Ok (length (txs golden_store)), st')
    /\ txs st' !! length (txs golden_store) = Some o'
    /\ Forall2 (fun l' x =>
                  forall cs s,
                    snap_script st' cs = Some s ->
                    exists st'',
                      update_in l' (in_set_script cs) st' = (Ok tt, st'')
                      /\ snap_in st'' l' = Some (set_script (TransactionIn_clone x) s)
                      /\ snap_tx st'' 0%nat = Some golden)
               (o_ins o') (ins golden).
Proof. apply (clone_input_isolation golden_store 0%nat golden). reflexivity. Defined.

(** In the witness the clone has one input, and the script [a_script] of
    the store can be assigned to it. *)
Example clone_input_isolation_instance :
  exists st' o',
    h_clone 0%nat golden_store = (Ok 1%nat, st')
    /\ txs st' !! 1%nat = Some o' /\ length (o_ins o') = 1%nat
    /\ snap_script st' 2%nat = Some a_script.
Proof. eexists _, _. split; [vm_compute; reflexivity |]. repeat split. Qed.

(** ** Encodings with a long script *)

